(** * anyrouter_proxy: a shallow embedding of [app.py]

    The development follows the source file top to bottom:

    - [Py]       the few Python primitives the program relies on (string
                 search, [int(s, 16)], [hex], [sorted], exceptions);
    - [Solver]   [solve_acw_challenge], the WAF cookie solver;
    - [Sha256]   [hashlib.sha256(..).hexdigest()], needed by [_key_id];
    - [Json]     JSON values, [json.dumps] with compact separators;
    - [Cooldown] the cooldown store, the pending buffer and the key usage
                 counter (module level dictionaries of [app.py]);
    - [Rewriter] [process_request_body];
    - [Engine]   [RetryContext] and the retry loops of [proxy];
    - [WafCookies], [Rotation], [Headers]  the cache of WAF cookies
                 ([fetch_waf_cookie]), the rotation indices
                 ([get_next_url], [get_next_api_key], [reset_indices])
                 and the two header filters.

    Python [str] values are modelled as [string] holding the UTF-8 bytes
    of the text (a surrogate code point in its three-byte form, see
    [Rewriter.encode_utf8]); dictionaries that are only looked up and
    updated are [gmap]s. *)

From Stdlib Require Import ZArith NArith QArith Lqa Ascii String List Bool.
From Stdlib Require Import Sorting.Sorted Sorting.Permutation.
From stdpp Require Import base tactics option list strings pretty gmap fin_maps.

Local Open Scope string_scope.
Local Open Scope list_scope.

(* ===================================================================== *)
(** * Python primitives                                                   *)
(* ===================================================================== *)

Module Py.

(** Uncaught Python exceptions are values of [exn]; a computation that may
    raise returns a [result]. *)
Inductive exn : Type :=
| TypeError
| AttributeError
| ValueError
| KeyError.

Inductive result (A : Type) : Type :=
| Ok (a : A)
| Raise (e : exn).
Arguments Ok {A} a.
Arguments Raise {A} e.

Definition bind {A B} (m : result A) (k : A -> result B) : result B :=
  match m with
  | Ok a => k a
  | Raise e => Raise e
  end.

Definition is_ok {A} (m : result A) : bool :=
  match m with Ok _ => true | Raise _ => false end.

#[global] Instance result_ret : MRet result := @Ok.
#[global] Instance result_bind : MBind result :=
  fun A B k m => bind m k.

Definition chars (s : string) : list ascii := list_ascii_of_string s.
Definition str (l : list ascii) : string := string_of_list_ascii l.

(** [prefix_strip p l] is [Some r] when [l = p ++ r]. *)
Fixpoint prefix_strip (p l : list ascii) : option (list ascii) :=
  match p, l with
  | [], _ => Some l
  | a :: p', b :: l' => if Ascii.eqb a b then prefix_strip p' l' else None
  | _ :: _, [] => None
  end.

(** [needle in haystack] on [str]. *)
Fixpoint contains (needle hay : list ascii) : bool :=
  match prefix_strip needle hay with
  | Some _ => true
  | None => match hay with
            | [] => false
            | _ :: hay' => contains needle hay'
            end
  end.

Definition str_in (needle hay : string) : bool :=
  contains (chars needle) (chars hay).

(** [c.lower()] on the ASCII range.  [str.lower] also rewrites letters
    outside ASCII, but the only such letters that produce an ASCII letter
    are U+0130 (giving i) and U+212A (giving k); the needles searched for
    after lowering in [app.py] ("claude code", "overload") contain
    neither, so lowering ASCII alone decides the same searches. *)
Definition lower_ascii (c : ascii) : ascii :=
  let n := N_of_ascii c in
  if ((65 <=? n) && (n <=? 90))%N then ascii_of_N (n + 32) else c.

Definition lower (s : string) : string := str (map lower_ascii (chars s)).

(** The character classes [[A-F0-9]] and [[0-9a-f]]. *)
Definition is_upper_hex (c : ascii) : bool :=
  let n := N_of_ascii c in
  (((48 <=? n) && (n <=? 57)) || ((65 <=? n) && (n <=? 70)))%N.

Definition is_lower_hex (c : ascii) : bool :=
  let n := N_of_ascii c in
  (((48 <=? n) && (n <=? 57)) || ((97 <=? n) && (n <=? 102)))%N.

(** One hexadecimal digit, either case, as [int(c, 16)] reads it. *)
Definition hex_value (c : ascii) : option Z :=
  let n := Z.of_N (N_of_ascii c) in
  if ((48 <=? n) && (n <=? 57))%Z then Some (n - 48)%Z
  else if ((65 <=? n) && (n <=? 70))%Z then Some (n - 55)%Z
  else if ((97 <=? n) && (n <=? 102))%Z then Some (n - 87)%Z
  else None.

(** [int(s, 16)] for a text made of hexadecimal digits only; anything
    else (in particular the empty text) is reported as [ValueError]. *)
Definition int16 (s : list ascii) : result Z :=
  match s with
  | [] => Raise ValueError
  | _ => foldl (fun acc c =>
                  a ← acc;
                  match hex_value c with
                  | Some d => Ok (16 * a + d)%Z
                  | None => Raise ValueError
                  end) (Ok 0%Z) s
  end.

Definition hex_digit (d : Z) : ascii :=
  if (d <? 10)%Z then ascii_of_N (Z.to_N (d + 48))
  else ascii_of_N (Z.to_N (d + 87)).

Fixpoint hex_go (fuel : nat) (n : Z) (acc : list ascii) : list ascii :=
  match fuel with
  | O => acc
  | S fuel' =>
      if (n =? 0)%Z then acc
      else hex_go fuel' (n / 16) (hex_digit (n mod 16) :: acc)
  end.

(** [hex(n)[2:]] for [n >= 0]: lowercase digits, no leading zero. *)
Definition hex_tail (n : Z) : list ascii :=
  if (n =? 0)%Z then ["0"%char] else hex_go (Z.to_nat n) n [].

(** [l[i:i+2]] *)
Definition slice2 {A} (i : nat) (l : list A) : list A := take 2 (drop i l).

(** [range(0, m, 2)] *)
Definition range_step2 (m : nat) : list nat :=
  map (fun k => 2 * k) (seq 0 (Nat.div2 (S m))).

(** [sorted(l, key=f)] for keys ordered by [leb].  Python's sort is stable
    and a stable sort has one possible result; inserting every element in
    front of the later elements that do not compare below it computes it. *)
Section Sorted.
Context {A K : Type} (leb : K -> K -> bool) (f : A -> K).

Fixpoint insert_sorted (x : A) (l : list A) : list A :=
  match l with
  | [] => [x]
  | y :: l' => if leb (f x) (f y) then x :: y :: l'
               else y :: insert_sorted x l'
  end.

Definition sorted (l : list A) : list A := foldr insert_sorted [] l.

End Sorted.

End Py.

Import Py.

(* ===================================================================== *)
(** * The WAF challenge solver ([solve_acw_challenge])                    *)
(* ===================================================================== *)

Module Solver.

(** ** [base64.b64decode] on padded input over the standard alphabet *)

Definition b64_value (c : ascii) : option Z :=
  let n := Z.of_N (N_of_ascii c) in
  if ((65 <=? n) && (n <=? 90))%Z then Some (n - 65)%Z
  else if ((97 <=? n) && (n <=? 122))%Z then Some (n - 71)%Z
  else if ((48 <=? n) && (n <=? 57))%Z then Some (n + 4)%Z
  else if (n =? 43)%Z then Some 62%Z
  else if (n =? 47)%Z then Some 63%Z
  else None.

Definition byte_char (z : Z) : ascii := ascii_of_N (Z.to_N (z mod 256)).

Fixpoint b64decode (s : list ascii) : result (list ascii) :=
  match s with
  | [] => Ok []
  | [a; b; "="; "="]%char =>
      match b64_value a, b64_value b with
      | Some x, Some y => Ok [byte_char ((x * 4) + (y / 16))]
      | _, _ => Raise ValueError
      end%Z
  | [a; b; c; "="]%char =>
      match b64_value a, b64_value b, b64_value c with
      | Some x, Some y, Some z =>
          Ok [byte_char ((x * 4) + (y / 16)); byte_char ((y * 16) + (z / 4))]
      | _, _, _ => Raise ValueError
      end%Z
  | a :: b :: c :: d :: rest =>
      match b64_value a, b64_value b, b64_value c, b64_value d with
      | Some x, Some y, Some z, Some w =>
          r ← b64decode rest;
          Ok (byte_char ((x * 4) + (y / 16))
                :: byte_char ((y * 16) + (z / 4))
                :: byte_char ((z * 64) + w) :: r)
      | _, _, _, _ => Raise ValueError
      end%Z
  | _ => Raise ValueError
  end.

(** ** The pattern [var arg1='([A-F0-9]+)'] *)

(** The longest prefix of characters satisfying [p], and the rest. *)
Fixpoint span (p : ascii -> bool) (l : list ascii) : list ascii * list ascii :=
  match l with
  | [] => ([], [])
  | c :: l' => if p c then let '(a, b) := span p l' in (c :: a, b)
               else ([], l)
  end.

Definition arg1_prefix : list ascii := chars "var arg1='".

(** A match starting at the head of [l].  The class [[A-F0-9]+] is greedy
    and is followed by a quote, which is not in the class, so the group
    is the longest run of class characters and a quote must follow. *)
Definition match_here (l : list ascii) : option (list ascii) :=
  match prefix_strip arg1_prefix l with
  | None => None
  | Some rest =>
      match span is_upper_hex rest with
      | (c :: hex, "'"%char :: _) => Some (c :: hex)
      | _ => None
      end
  end.

(** [re.search(..).group(1)]: the leftmost match. *)
Fixpoint re_search (l : list ascii) : option (list ascii) :=
  match match_here l with
  | Some hex => Some hex
  | None => match l with
            | [] => None
            | _ :: l' => re_search l'
            end
  end.

(** ** The permutation and the mask *)

Definition mask_b64 : string :=
  "MzAwMDE3NjAwMDg1NjAwNjA2MTUwMTUzMzAwMzY5MDAyNzgwMDM3NQ==".

Definition posList : list nat :=
  [0xf;0x23;0x1d;0x18;0x21;0x10;0x1;0x26;0xa;0x9;0x13;0x1f;0x28;0x1b;0x16;
   0x17;0x19;0xd;0x6;0xb;0x27;0x12;0x14;0x8;0xe;0x15;0x20;0x1a;0x2;0x1e;
   0x7;0x4;0x11;0x5;0x3;0x1c;0x22;0x25;0xc;0x24]%nat.

(** The inner loop [for j in range(n)] for one [i]; the source runs it
    with [n = len(posList)]. *)
Definition inner_loop (i : nat) (c : ascii) (n : nat)
    (out : list (list ascii)) : list (list ascii) :=
  foldl (fun out j =>
           if decide (posList !! j = Some (i + 1)%nat)
           then <[j := [c]]> out else out)
        out (seq 0 n).

Definition place (i : nat) (c : ascii) (out : list (list ascii))
  : list (list ascii) :=
  inner_loop i c (length posList) out.

(** [outPutList] after the two loops; the empty text is [[]]. *)
Definition outPutList (arg1 : list ascii) : list (list ascii) :=
  foldl (fun out ic => place (fst ic) (snd ic) out)
        (replicate (length posList) [])
        (imap pair arg1).

Definition arg2 (arg1 : list ascii) : list ascii := concat (outPutList arg1).

(** [xorChar] after the padding test. *)
Definition two_digits (z : Z) : list ascii :=
  let xorChar := hex_tail z in
  if decide (length xorChar = 1%nat) then "0"%char :: xorChar else xorChar.

(** One round of the last loop: the characters appended to [arg3]. *)
Definition xor_chars (a2 mask : list ascii) (i : nat) : result (list ascii) :=
  strChar ← int16 (slice2 i a2);
  maskChar ← int16 (slice2 i mask);
  Ok (two_digits (Z.lxor strChar maskChar)).

Definition arg3 (a2 mask : list ascii) : result (list ascii) :=
  foldl (fun acc i => a ← acc; x ← xor_chars a2 mask i; Ok (a ++ x))
        (Ok [])
        (range_step2 (Nat.min (length a2) (length mask))).

(** The token as a function of the captured group. *)
Definition token_of (arg1 : list ascii) : result string :=
  mask ← b64decode (chars mask_b64);
  t ← arg3 (arg2 arg1) mask;
  Ok (str t).

Definition solve_acw_challenge (html_content : string)
  : result (option string) :=
  match re_search (chars html_content) with
  | None => Ok None
  | Some arg1 => t ← token_of arg1; Ok (Some t)
  end.

(** ** Specification vocabulary *)

(** The text [pre ++ "var arg1='" ++ hex ++ "'" ++ post], with [hex] a
    non-empty run of [[A-F0-9]]: what the pattern matches. *)
Definition occurs (l hex : list ascii) : Prop :=
  hex <> [] /\ forallb is_upper_hex hex = true /\
  exists pre post, l = pre ++ arg1_prefix ++ hex ++ "'"%char :: post.

(** What ends up in slot [j]: the character of [arg1] at index
    [posList[j] - 1], when [arg1] is that long. *)
Definition slot (arg1 : list ascii) (p : nat) : list ascii :=
  option_list (arg1 !! (p - 1)%nat).

(** The occurrence of [hex] in [l] that starts after [pre] is the first
    one: no occurrence starts earlier. *)
Definition first_occurrence (l pre hex : list ascii) : Prop :=
  hex <> [] /\ forallb is_upper_hex hex = true /\
  (exists post, l = pre ++ arg1_prefix ++ hex ++ "'"%char :: post) /\
  forall pre' hex' post',
    hex' <> [] -> forallb is_upper_hex hex' = true ->
    l = pre' ++ arg1_prefix ++ hex' ++ "'"%char :: post' ->
    (length pre <= length pre')%nat.

(** ** The token, in the words of the specification

    The token is described without the loops of the function: the table
    rearranges the group, the result and the mask are read two
    hexadecimal digits at a time, and every byte of the one is XORed
    with the byte of the other at the same place and written as two
    lowercase hexadecimal digits. *)

(** The decoded mask. *)
Definition mask_text : list ascii :=
  chars "3000176000856006061501533003690027800375".

(** The table applied to the group: entry [j] of the table selects the
    character of the group at position [posList[j]], counted from 1; an
    entry beyond the end of the group selects nothing. *)
Definition permuted (arg1 : list ascii) : list ascii :=
  omap (fun p => arg1 !! (p - 1)%nat) posList.

(** A text cut into pairs of characters; a character left over at the
    end stands alone. *)
Fixpoint pairs (l : list ascii) : list (list ascii) :=
  match l with
  | a :: rest =>
      match rest with
      | b :: rest' => [a; b] :: pairs rest'
      | [] => [[a]]
      end
  | [] => []
  end.

(** The number that one or two hexadecimal digits write. *)
Definition pair_value (p : list ascii) : Z :=
  foldl (fun acc c => 16 * acc + default 0 (hex_value c))%Z 0%Z p.

(** A byte as two lowercase hexadecimal digits. *)
Definition byte_text (v : Z) : list ascii :=
  [hex_digit (v / 16); hex_digit (v mod 16)].

Definition spec_token (arg1 : list ascii) : string :=
  str (concat (zip_with
                 (fun p m => byte_text (Z.lxor (pair_value p) (pair_value m)))
                 (pairs (permuted arg1)) (pairs mask_text))).

End Solver.


(* ===================================================================== *)
(** * [hashlib.sha256]                                                    *)
(* ===================================================================== *)

Module Sha256.
Local Open Scope Z_scope.

Definition add32 (a b : Z) : Z := (a + b) mod 2 ^ 32.
Definition rotr (n x : Z) : Z :=
  Z.lor (Z.shiftr x n) ((Z.shiftl x (32 - n)) mod 2 ^ 32).
Definition Ch (x y z : Z) : Z :=
  Z.lxor (Z.land x y) (Z.land (Z.lxor x 0xffffffff) z).
Definition Maj (x y z : Z) : Z :=
  Z.lxor (Z.lxor (Z.land x y) (Z.land x z)) (Z.land y z).
Definition Sigma0 (x : Z) := Z.lxor (Z.lxor (rotr 2 x) (rotr 13 x)) (rotr 22 x).
Definition Sigma1 (x : Z) := Z.lxor (Z.lxor (rotr 6 x) (rotr 11 x)) (rotr 25 x).
Definition sigma0 (x : Z) := Z.lxor (Z.lxor (rotr 7 x) (rotr 18 x)) (Z.shiftr x 3).
Definition sigma1 (x : Z) := Z.lxor (Z.lxor (rotr 17 x) (rotr 19 x)) (Z.shiftr x 10).

(** The 64 round constants, eight hexadecimal digits each. *)
Definition K_digits : string :=
  "428a2f9871374491b5c0fbcfe9b5dba53956c25b59f111f1923f82a4ab1c5ed5"
  +:+ "d807aa9812835b01243185be550c7dc372be5d7480deb1fe9bdc06a7c19bf174"
  +:+ "e49b69c1efbe47860fc19dc6240ca1cc2de92c6f4a7484aa5cb0a9dc76f988da"
  +:+ "983e5152a831c66db00327c8bf597fc7c6e00bf3d5a7914706ca635114292967"
  +:+ "27b70a852e1b21384d2c6dfc53380d13650a7354766a0abb81c2c92e92722c85"
  +:+ "a2bfe8a1a81a664bc24b8b70c76c51a3d192e819d6990624f40e3585106aa070"
  +:+ "19a4c1161e376c082748774c34b0bcb5391c0cb34ed8aa4a5b9cca4f682e6ff3"
  +:+ "748f82ee78a5636f84c878148cc7020890befffaa4506cebbef9a3f7c67178f2".

Fixpoint words8 (n : nat) (l : list ascii) : list Z :=
  match n with
  | O => []
  | S n' =>
      match int16 (take 8 l) with
      | Ok w => w :: words8 n' (drop 8 l)
      | Raise _ => []
      end
  end.

Definition K : list Z := Eval vm_compute in words8 64 (chars K_digits).

(** The eight working words. *)
Record regs := Regs { ra : Z; rb : Z; rc : Z; rd : Z;
                      re : Z; rf : Z; rg : Z; rh : Z }.

Definition H0 : regs :=
  Regs 0x6a09e667 0xbb67ae85 0x3c6ef372 0xa54ff53a
       0x510e527f 0x9b05688c 0x1f83d9ab 0x5be0cd19.

(** Message padding: a one bit, zeros up to 56 modulo 64, the bit length
    on 8 bytes, big endian. *)
Definition be_bytes (n : nat) (x : Z) : list Z :=
  map (fun k => (x / 2 ^ (8 * Z.of_nat k)) mod 256) (rev (seq 0 n)).

Definition pad (msg : list Z) : list Z :=
  let len := Z.of_nat (length msg) in
  let zeros := Z.to_nat ((55 - len) mod 64) in
  msg ++ [0x80] ++ replicate zeros 0 ++ be_bytes 8 (8 * len).

Definition be_word (b : list Z) : Z :=
  foldl (fun acc x => acc * 256 + x) 0 b.

(** The 16 words of one 64 byte block. *)
Definition block_words (block : list Z) : list Z :=
  map (fun k => be_word (take 4 (drop (4 * k) block))) (seq 0 16).

(** The message schedule, most recent word first. *)
Fixpoint schedule (n : nat) (recent : list Z) : list Z :=
  match n with
  | O => recent
  | S n' =>
      let w := add32 (add32 (sigma1 (nth 1 recent 0)) (nth 6 recent 0))
                     (add32 (sigma0 (nth 14 recent 0)) (nth 15 recent 0)) in
      schedule n' (w :: recent)
  end.

Definition round (r : regs) (kw : Z * Z) : regs :=
  let '(k, w) := kw in
  let t1 := add32 (add32 (add32 (rh r) (Sigma1 (re r)))
                         (add32 (Ch (re r) (rf r) (rg r)) k)) w in
  let t2 := add32 (Sigma0 (ra r)) (Maj (ra r) (rb r) (rc r)) in
  Regs (add32 t1 t2) (ra r) (rb r) (rc r) (add32 (rd r) t1) (re r) (rf r) (rg r).

Definition compress (h : regs) (block : list Z) : regs :=
  let w := rev (schedule 48 (rev (block_words block))) in
  let r := foldl round h (zip K w) in
  Regs (add32 (ra h) (ra r)) (add32 (rb h) (rb r)) (add32 (rc h) (rc r))
       (add32 (rd h) (rd r)) (add32 (re h) (re r)) (add32 (rf h) (rf r))
       (add32 (rg h) (rg r)) (add32 (rh h) (rh r)).

Fixpoint blocks (n : nat) (bytes : list Z) : list (list Z) :=
  match n with
  | O => []
  | S n' => take 64 bytes :: blocks n' (drop 64 bytes)
  end.

Definition digest (msg : list Z) : regs :=
  let p := pad msg in
  foldl compress H0 (blocks (length p / 64) p).

(** Eight lowercase hexadecimal digits of a word. *)
Definition hex8 (x : Z) : list ascii :=
  map (fun k => hex_digit ((x / 16 ^ Z.of_nat k) mod 16)) (rev (seq 0 8)).

(** [hashlib.sha256(s.encode("utf-8")).hexdigest()] *)
Definition hexdigest (s : string) : string :=
  let r := digest (map (fun c => Z.of_N (N_of_ascii c)) (chars s)) in
  str (hex8 (ra r) ++ hex8 (rb r) ++ hex8 (rc r) ++ hex8 (rd r) ++
       hex8 (re r) ++ hex8 (rf r) ++ hex8 (rg r) ++ hex8 (rh r)).

End Sha256.

(* ===================================================================== *)
(** * JSON values                                                         *)
(* ===================================================================== *)

Module Json.

(** What [json.loads] produces.  An object keeps its members in insertion
    order, as a Python [dict] does.  A [float] is known by its value;
    NaN and the infinities are not represented. *)
#[warnings="-register-all"]
Inductive json : Type :=
| JNull
| JBool (b : bool)
| JInt (z : Z)
| JFloat (q : Q)
| JStr (s : string)
| JArr (items : list json)
| JObj (members : list (string * json)).

(** [d.get(k)] / [d[k]] on the members of an object. *)
Fixpoint dict_get (k : string) (members : list (string * json)) : option json :=
  match members with
  | [] => None
  | (k', v) :: rest => if String.eqb k k' then Some v else dict_get k rest
  end.

(** [d[k] = v]: an existing member keeps its place, a new one goes last. *)
Fixpoint dict_set (k : string) (v : json) (members : list (string * json))
  : list (string * json) :=
  match members with
  | [] => [(k, v)]
  | (k', v') :: rest =>
      if String.eqb k k' then (k', v) :: rest
      else (k', v') :: dict_set k v rest
  end.

(** Python truthiness of a decoded value ([if v], [v or w]). *)
Definition truthy (v : json) : bool :=
  match v with
  | JNull => false
  | JBool b => b
  | JInt z => negb (z =? 0)%Z
  | JFloat q => negb (Qeq_bool q 0)
  | JStr s => negb (String.eqb s "")
  | JArr l => match l with [] => false | _ => true end
  | JObj m => match m with [] => false | _ => true end
  end.

(** The numeric value of [int], [float] and [bool]; the other types do
    not compare with a number ([TypeError]). *)
Definition num_of (v : json) : option Q :=
  match v with
  | JInt z => Some (inject_Z z)
  | JFloat q => Some q
  | JBool b => Some (if b then 1%Q else 0%Q)
  | _ => None
  end.

(** [x >= v] and [v > x] for a float [x]. *)
Definition float_ge (x : Q) (v : json) : result bool :=
  match num_of v with
  | Some q => Ok (Qle_bool q x)
  | None => Raise TypeError
  end.

Definition gt_float (v : json) (x : Q) : result bool :=
  match num_of v with
  | Some q => Ok (negb (Qle_bool q x))
  | None => Raise TypeError
  end.

(** ** [json.dumps(v, ensure_ascii=False, separators=(',', ':'))] *)

Definition dquote : ascii := "034"%char.
Definition backslash : ascii := "092"%char.

(** One character of a JSON string, as [ESCAPE_DCT] writes it. *)
Definition escape_char (c : ascii) : list ascii :=
  let n := N_of_ascii c in
  if (n =? 34)%N then [backslash; dquote]
  else if (n =? 92)%N then [backslash; backslash]
  else if (n =? 8)%N then [backslash; "b"%char]
  else if (n =? 12)%N then [backslash; "f"%char]
  else if (n =? 10)%N then [backslash; "n"%char]
  else if (n =? 13)%N then [backslash; "r"%char]
  else if (n =? 9)%N then [backslash; "t"%char]
  else if (n <? 32)%N then
    [backslash; "u"%char; "0"%char; "0"%char;
     hex_digit (Z.of_N (n / 16)); hex_digit (Z.of_N (n mod 16))]
  else [c].

Definition quote (s : string) : string :=
  str (dquote :: concat (map escape_char (chars s)) ++ [dquote]).

Fixpoint join (sep : string) (l : list string) : string :=
  match l with
  | [] => ""
  | [x] => x
  | x :: rest => x +:+ sep +:+ join sep rest
  end.

Section Dumps.
(** [float.__repr__], which the program never computes with. *)
Variable float_repr : Q -> string.

Fixpoint dumps (v : json) : string :=
  match v with
  | JNull => "null"
  | JBool true => "true"
  | JBool false => "false"
  | JInt z => pretty z
  | JFloat q => float_repr q
  | JStr s => quote s
  | JArr items => "[" +:+ join "," (map dumps items) +:+ "]"
  | JObj members =>
      "{" +:+ join "," (map (fun kv : string * json =>
                             quote (fst kv) +:+ ":" +:+ dumps (snd kv))
                           members) +:+ "}"
  end.
End Dumps.

(** Writing JSON text in this file: every apostrophe stands for a double
    quote. *)
Definition jq (s : string) : string :=
  str (map (fun c => if Ascii.eqb c "'"%char then dquote else c) (chars s)).

End Json.

Import Json.

(* ===================================================================== *)
(** * The cooldown store, the pending buffer, the usage counter           *)
(* ===================================================================== *)

Module Cooldown.

Definition COOLDOWN_SCHEMA_VERSION : Z := 2.
Definition KEY_COOLDOWN_HOURS : Z := 72.
Definition URL_COOLDOWN_HOURS : Z := 72.

Definition _key_id (key : string) : string :=
  str (take 16 (chars (Sha256.hexdigest key))).

(** [re.fullmatch(r"[0-9a-f]{16}", k)] *)
Definition is_key_id (k : string) : bool :=
  (length (chars k) =? 16)%nat && forallb is_lower_hex (chars k).

(** The document [save_cooldowns] writes. *)
Record document := Document {
  schema_version : Z;
  keys : gmap string json;
  urls : gmap string Q
}.

(** The module level variables.  [key_cooldown_until] can hold whatever
    the cooldown file held; [url_cooldown_until] is emptied again after
    the file is loaded and only ever receives time stamps. *)
Record globals := Globals {
  key_cooldown_until : gmap string json;
  url_cooldown_until : gmap string Q;
  pending_cooldown_keys : gmap string (list string);
  key_usage_count : gmap string Z;
  nonessential_traffic_disabled : bool;
  (** the last document written to [COOLDOWN_FILE], if any *)
  cooldown_file : option document
}.

Definition set_key_cooldown_until m (g : globals) : globals :=
  Globals m (url_cooldown_until g) (pending_cooldown_keys g)
          (key_usage_count g) (nonessential_traffic_disabled g)
          (cooldown_file g).
Definition set_url_cooldown_until m (g : globals) : globals :=
  Globals (key_cooldown_until g) m (pending_cooldown_keys g)
          (key_usage_count g) (nonessential_traffic_disabled g)
          (cooldown_file g).
Definition set_pending_cooldown_keys m (g : globals) : globals :=
  Globals (key_cooldown_until g) (url_cooldown_until g) m
          (key_usage_count g) (nonessential_traffic_disabled g)
          (cooldown_file g).
Definition set_key_usage_count m (g : globals) : globals :=
  Globals (key_cooldown_until g) (url_cooldown_until g)
          (pending_cooldown_keys g) m (nonessential_traffic_disabled g)
          (cooldown_file g).
Definition set_nonessential_traffic_disabled b (g : globals) : globals :=
  Globals (key_cooldown_until g) (url_cooldown_until g)
          (pending_cooldown_keys g) (key_usage_count g) b
          (cooldown_file g).

Definition save_cooldowns (g : globals) : globals :=
  Globals (key_cooldown_until g) (url_cooldown_until g)
          (pending_cooldown_keys g) (key_usage_count g)
          (nonessential_traffic_disabled g)
          (Some (Document COOLDOWN_SCHEMA_VERSION (key_cooldown_until g)
                          (url_cooldown_until g))).

(** [time.time() + HOURS * 3600] *)
Definition cooldown_end (now : Q) (hours : Z) : Q :=
  (now + inject_Z (hours * 3600))%Q.

(** [min(l, key=f)]: the first element with the least key. *)
Definition py_min {A} (f : A -> Q) (l : list A) : option A :=
  match l with
  | [] => None
  | x :: rest =>
      Some (foldl (fun best y => if Qle_bool (f best) (f y) then best else y)
                  x rest)
  end.

Section Config.
Variable CANDIDATE_URLS : list string.
Variable CANDIDATE_API_KEYS : list string.

Definition KEY_ID_BY_KEY : gmap string string :=
  list_to_map (map (fun key => (key, _key_id key)) CANDIDATE_API_KEYS).

(** [KEY_ID_BY_KEY.get(key) or _key_id(key)] *)
Definition kid_of (key : string) : string :=
  match KEY_ID_BY_KEY !! key with
  | Some kid => if String.eqb kid "" then _key_id key else kid
  | None => _key_id key
  end.

(** ** [load_cooldowns] *)

(** The two variables [load_cooldowns] assigns; [url_cooldown_until]
    receives whatever the file has under ["urls"]. *)
Record loaded := Loaded { l_keys : gmap string json; l_urls : json }.

(** [schema_version >= 2] *)
Definition version_ge2 (schema_version : json) : result bool :=
  match num_of schema_version with
  | Some q => Ok (Qle_bool 2 q)
  | None => Raise TypeError
  end.

(** One round of the loop over [raw_keys.items()]. *)
Definition normalize_step (schema_version : json)
    (acc : result (gmap string json)) (kv : string * json)
  : result (gmap string json) :=
  normalized ← acc;
  new_format ← version_ge2 schema_version;
  if new_format && is_key_id (fst kv)
  then Ok (<[fst kv := snd kv]> normalized)
  else match KEY_ID_BY_KEY !! fst kv with
       | Some kid => Ok (<[kid := snd kv]> normalized)
       | None => Ok normalized
       end.

Definition normalize (schema_version : json) (raw : list (string * json))
  : result (gmap string json) :=
  foldl (normalize_step schema_version) (Ok ∅) raw.

Definition is_live (now : Q) (v : json) : bool :=
  match num_of v with
  | Some q => negb (Qle_bool q now)
  | None => false
  end.

(** [{k: v for k, v in m.items() if v > now}]: a value that is not a
    number raises. *)
Definition keep_live (now : Q) (m : gmap string json)
  : result (gmap string json) :=
  if decide (map_Forall (fun _ v => is_Some (num_of v)) m)
  then Ok (filter (fun kv => is_live now (snd kv) = true) m)
  else Raise TypeError.

Definition keep_live_members (now : Q) (m : list (string * json))
  : result (list (string * json)) :=
  if forallb (fun kv => bool_decide (is_Some (num_of (snd kv)))) m
  then Ok (List.filter (fun kv => is_live now (snd kv)) m)
  else Raise TypeError.

(** [data] is what [json.load] returned, [None] when the file does not
    exist or does not parse.  Every exception is caught at the end of
    the function, which leaves the assignments made so far. *)
Definition load_cooldowns (data : option json) (now : Q) (before : loaded)
  : loaded :=
  match data with
  | Some (JObj members) =>
      let raw_keys := default (JObj []) (dict_get "keys" members) in
      let file_urls := default (JObj []) (dict_get "urls" members) in
      let schema_version :=
        default (JInt 1) (dict_get "schema_version" members) in
      let assigned :=
        match raw_keys with
        | JObj raw => normalize schema_version raw
        | _ => Ok ∅
        end in
      match assigned with
      | Raise _ => Loaded (l_keys before) file_urls
      | Ok normalized =>
          match keep_live now normalized with
          | Raise _ => Loaded normalized file_urls
          | Ok live_keys =>
              match file_urls with
              | JObj url_members =>
                  match keep_live_members now url_members with
                  | Ok live_urls => Loaded live_keys (JObj live_urls)
                  | Raise _ => Loaded live_keys file_urls
                  end
              | _ => Loaded live_keys file_urls
              end
          end
      end
  | _ => before
  end.

(** The state once the module is imported: the dictionaries are
    created, the file is loaded, and [url_cooldown_until = {}] is
    executed a second time further down the module. *)
Definition module_init (data : option json) (now : Q) (env_disabled : bool)
  : globals :=
  let l := load_cooldowns data now (Loaded ∅ (JObj [])) in
  Globals (l_keys l) ∅ ∅
          (list_to_map (map (fun key => (key, 0%Z)) CANDIDATE_API_KEYS))
          env_disabled None.

(** ** The pending buffer *)

Definition add_pending_cooldown (url key : string) (g : globals) : globals :=
  let pending := default [] (pending_cooldown_keys g !! url) in
  let kid := kid_of key in
  set_pending_cooldown_keys
    (<[url := if bool_decide (kid ∈ pending) then pending
              else pending ++ [kid]]> (pending_cooldown_keys g)) g.

Definition confirm_cooldown_for_url (url : string) (now : Q) (g : globals)
  : globals :=
  match pending_cooldown_keys g !! url with
  | None | Some [] => g
  | Some pending =>
      let marked :=
        foldl (fun m kid =>
                 <[kid := JFloat (cooldown_end now KEY_COOLDOWN_HOURS)]> m)
              (key_cooldown_until g) pending in
      save_cooldowns
        (set_pending_cooldown_keys (<[url := []]> (pending_cooldown_keys g))
           (set_key_cooldown_until marked g))
  end.

Definition clear_pending_cooldown (url : string) (g : globals) : globals :=
  match pending_cooldown_keys g !! url with
  | Some _ =>
      set_pending_cooldown_keys (<[url := []]> (pending_cooldown_keys g)) g
  | None => g
  end.

(** ** Key cooldowns *)

Definition set_key_cooldown (key : string) (now : Q) (g : globals)
  : bool * globals :=
  let kid := kid_of key in
  (true,
   save_cooldowns
     (set_key_cooldown_until
        (<[kid := JFloat (cooldown_end now KEY_COOLDOWN_HOURS)]>
           (key_cooldown_until g)) g)).

Definition is_key_in_cooldown (key : string) (now : Q) (g : globals)
  : result (bool * globals) :=
  let kid := kid_of key in
  match key_cooldown_until g !! kid with
  | None => Ok (false, g)
  | Some until =>
      expired ← float_ge now until;
      if expired : bool
      then Ok (false,
               save_cooldowns
                 (set_key_cooldown_until (delete kid (key_cooldown_until g)) g))
      else Ok (true, g)
  end.

(** [[k for k in keys if not is_key_in_cooldown(k)]] *)
Fixpoint keys_not_in_cooldown (keys : list string) (now : Q) (g : globals)
  : result (list string * globals) :=
  match keys with
  | [] => Ok ([], g)
  | k :: rest =>
      '(cooling, g1) ← is_key_in_cooldown k now g;
      '(others, g2) ← keys_not_in_cooldown rest now g1;
      Ok (if cooling : bool then others else k :: others, g2)
  end.

Definition get_available_keys (now : Q) (g : globals)
  : result (list string * globals) :=
  keys_not_in_cooldown CANDIDATE_API_KEYS now g.

(** ** URL cooldowns *)

Definition set_url_cooldown (url : string) (now : Q) (g : globals) : globals :=
  save_cooldowns
    (set_url_cooldown_until
       (<[url := cooldown_end now URL_COOLDOWN_HOURS]> (url_cooldown_until g))
       g).

Definition is_url_in_cooldown (url : string) (now : Q) (g : globals)
  : bool * globals :=
  match url_cooldown_until g !! url with
  | None => (false, g)
  | Some until =>
      if Qle_bool until now
      then (false,
            set_url_cooldown_until (delete url (url_cooldown_until g)) g)
      else (true, g)
  end.

Fixpoint urls_not_in_cooldown (urls : list string) (now : Q) (g : globals)
  : list string * globals :=
  match urls with
  | [] => ([], g)
  | u :: rest =>
      let r := is_url_in_cooldown u now g in
      let r' := urls_not_in_cooldown rest now (snd r) in
      (if fst r then fst r' else u :: fst r', snd r')
  end.

Definition get_available_urls (now : Q) (g : globals)
  : list string * globals :=
  let '(available, g') := urls_not_in_cooldown CANDIDATE_URLS now g in
  match available, CANDIDATE_URLS with
  | [], _ :: _ =>
      (option_list
         (py_min (fun u => default 0%Q (url_cooldown_until g' !! u))
                 CANDIDATE_URLS), g')
  | [], [] => (CANDIDATE_URLS, g')
  | _ :: _, _ => (available, g')
  end.

(** ** The usage counter *)

(** The sort key [key_cooldown_until.get(kid, 0)] of the fallback. *)
Definition expiry_of (g : globals) (k : string) : Q :=
  default 0%Q (num_of (default (JInt 0) (key_cooldown_until g !! kid_of k))).

Definition usage_of (g : globals) (k : string) : Z :=
  default 0%Z (key_usage_count g !! k).

Definition get_least_used_key (now : Q) (g : globals)
  : result (option string * globals) :=
  '(available_keys, g') ← get_available_keys now g;
  match available_keys with
  | [] => Ok (py_min (expiry_of g') CANDIDATE_API_KEYS, g')
  | _ :: _ => Ok (head (sorted Z.leb (usage_of g') available_keys), g')
  end.

Definition get_keys_sorted_by_usage (now : Q) (g : globals)
  : result (list string * globals) :=
  '(available_keys, g') ← get_available_keys now g;
  match available_keys with
  | [] => Ok (sorted Qle_bool (expiry_of g') CANDIDATE_API_KEYS, g')
  | _ :: _ => Ok (sorted Z.leb (usage_of g') available_keys, g')
  end.

Definition increment_key_usage (key : string) (g : globals) : globals :=
  set_key_usage_count
    (<[key := match key_usage_count g !! key with
              | Some n => (n + 1)%Z
              | None => 1%Z
              end]> (key_usage_count g)) g.

(** ** Specification vocabulary *)

(** Key [k] has a cooldown record that ends after [now]. *)
Definition cooling (g : globals) (now : Q) (k : string) : bool :=
  match key_cooldown_until g !! kid_of k with
  | Some v => is_live now v
  | None => false
  end.

(** Every key cooldown is a number, as the program itself writes them. *)
Definition timestamps (g : globals) : Prop :=
  map_Forall (fun _ v => is_Some (num_of v)) (key_cooldown_until g).



(** The name under which [load_cooldowns] keeps the entry of the file
    named [k]: a name of the form of a KeyId stays as it is in a file of
    version 2 or more, the name of a configured key becomes the KeyId of
    the key, every other entry is dropped. *)
Definition kept_as (new_format : bool) (k : string) : option string :=
  if new_format && is_key_id k then Some k
  else if bool_decide (k ∈ CANDIDATE_API_KEYS) then Some (_key_id k)
  else None.

(** The value the last entry kept as [kid] has, if there is one. *)
Definition last_kept (new_format : bool) (raw : list (string * json))
    (kid : string) : option json :=
  snd <$> last (List.filter
                  (fun kv => bool_decide (kept_as new_format (fst kv) = Some kid))
                  raw).

(** The claim that no document on disk names a configured key in
    plaintext. *)
Definition no_plaintext_key (g : globals) : Prop :=
  forall doc key, cooldown_file g = Some doc -> key ∈ CANDIDATE_API_KEYS ->
                  keys doc !! key = None.

(** [g'] is [g] with some expired key cooldowns deleted (and saved). *)
Definition pruned (now : Q) (g g' : globals) : Prop :=
  key_cooldown_until g' ⊆ key_cooldown_until g /\
  (forall kid v, key_cooldown_until g !! kid = Some v ->
                 key_cooldown_until g' !! kid = None ->
                 is_live now v = false) /\
  url_cooldown_until g' = url_cooldown_until g /\
  pending_cooldown_keys g' = pending_cooldown_keys g /\
  key_usage_count g' = key_usage_count g /\
  nonessential_traffic_disabled g' = nonessential_traffic_disabled g.

End Config.

End Cooldown.

(* ===================================================================== *)
(** * The body rewriter ([process_request_body])                          *)
(* ===================================================================== *)

Module Rewriter.

Definition CLAUDE_CODE_KEYWORD : string := "Claude Code".

(** The element insert mode puts in front of the array. *)
Definition new_element (replacement : string) : json :=
  JObj [("type", JStr "text");
        ("text", JStr replacement);
        ("cache_control", JObj [("type", JStr "ephemeral")])].

(** ["system" in data], whatever [data] is: a key of an object, an
    element of an array, a part of a string; anything else is not a
    container. *)
Definition contains_system (data : json) : result bool :=
  match data with
  | JObj members => Ok (bool_decide (is_Some (dict_get "system" members)))
  | JArr items =>
      Ok (existsb (fun v => match v with
                            | JStr s => String.eqb s "system"
                            | _ => false
                            end) items)
  | JStr s => Ok (str_in "system" s)
  | _ => Raise TypeError
  end.

(** The line that prints [original_text]: it evaluates
    [len(original_text) > 100] and, when that holds,
    [original_text[:100]] (an object cannot be sliced; the exception is
    [KeyError] from Python 3.12 on). *)
Definition print_original (original_text : json) : result unit :=
  match original_text with
  | JStr _ | JArr _ => Ok tt
  | JObj members =>
      if (100 <? length members)%nat then Raise TypeError else Ok tt
  | _ => Raise TypeError
  end.

(** [original_text.lower()] *)
Definition text_lower (original_text : json) : result string :=
  match original_text with
  | JStr s => Ok (lower s)
  | _ => Raise AttributeError
  end.

(** [text.encode('utf-8')].  A Python [str] can hold a surrogate code
    point on its own: [json.loads] produces one for an escape such as
    [\ud800] that no second escape completes, and [os.getenv] one for
    every byte of the environment that is not UTF-8.  A text of this file
    holds such a code point as the three bytes [ED A0..BF 80..BF] of its
    generalised UTF-8 form, which no other code point starts with.
    [encode] raises [UnicodeEncodeError] on it. *)
Fixpoint has_surrogate (l : list ascii) : bool :=
  match l with
  | a :: rest =>
      match rest with
      | b :: _ =>
          ((N_of_ascii a =? 237)%N
           && (160 <=? N_of_ascii b)%N && (N_of_ascii b <=? 191)%N)
          || has_surrogate rest
      | [] => false
      end
  | [] => false
  end.

(** [None] stands for [UnicodeEncodeError]. *)
Definition encode_utf8 (text : string) : option string :=
  if has_surrogate (chars text) then None else Some text.

Section Rewriter.
(** [json.loads(body.decode('utf-8'))]; [None] stands for
    [JSONDecodeError] and [UnicodeDecodeError]. *)
Variable json_loads : string -> option json.
Variable float_repr : Q -> string.
Variable SYSTEM_PROMPT_REPLACEMENT : option string.
Variable SYSTEM_PROMPT_BLOCK_INSERT_IF_NOT_EXIST : bool.

(** The part of the function between parsing and serialising: [None]
    when the function returns [body] as it came, otherwise the value
    of [data] after the change. *)
Definition rewrite (replacement : string) (data : json)
  : result (option json) :=
  present ← contains_system data;
  if negb present then Ok None
  else match data with
       | JObj members =>
           match dict_get "system" members with
           | Some (JArr (JObj first_element :: rest)) =>
               match dict_get "text" first_element with
               | None => Ok None
               | Some original_text =>
                   _ ← print_original original_text;
                   let replaced :=
                     JObj (dict_set "system"
                             (JArr (JObj (dict_set "text" (JStr replacement)
                                            first_element) :: rest))
                             members) in
                   if SYSTEM_PROMPT_BLOCK_INSERT_IF_NOT_EXIST
                   then
                     lowered ← text_lower original_text;
                     if str_in (lower CLAUDE_CODE_KEYWORD) lowered
                     then Ok (Some replaced)
                     else Ok (Some
                                (JObj (dict_set "system"
                                         (JArr (new_element replacement
                                                  :: JObj first_element
                                                  :: rest))
                                         members)))
                   else Ok (Some replaced)
               end
           | Some _ => Ok None
           | None => Ok None
           end
       | _ => Raise TypeError
       end.

Definition process_request_body (body : string) : result string :=
  match SYSTEM_PROMPT_REPLACEMENT with
  | None => Ok body
  | Some replacement =>
      match json_loads body with
      | None => Ok body
      | Some data =>
          changed ← rewrite replacement data;
          match changed with
          | None => Ok body
          | Some data' =>
              (* the [try] around [json.dumps(..).encode('utf-8')] *)
              match encode_utf8 (dumps float_repr data') with
              | Some modified_body => Ok modified_body
              | None => Ok body
              end
          end
      end
  end.
End Rewriter.

(** ** Specification vocabulary *)

(** The number of elements of ["system"], when it is an array. *)
Definition system_length (data : json) : option nat :=
  match data with
  | JObj members =>
      match dict_get "system" members with
      | Some (JArr items) => Some (length items)
      | _ => None
      end
  | _ => None
  end.

(** The claim that insert mode leaves alone a body whose first system
    text is the replacement already. *)
Definition insert_is_idempotent (replacement : string) (data : json) : Prop :=
  forall members first rest,
    data = JObj members ->
    dict_get "system" members = Some (JArr (JObj first :: rest)) ->
    dict_get "text" first = Some (JStr replacement) ->
    rewrite true replacement data = Ok (Some data).

End Rewriter.

(* ===================================================================== *)
(** * The cache of WAF cookies                                            *)
(* ===================================================================== *)

Module WafCookies.
Import Solver.

(** [WAF_COOKIE_TTL], in seconds *)
Definition WAF_COOKIE_TTL : Q := 300.

(** One value of [waf_cookies_cache]: [{"cookies": {..}, "timestamp": t}]. *)
Record entry := Entry {
  cookies : gmap string string;
  timestamp : Q
}.

Definition get_waf_cookies (base_url : string) (cache : gmap string entry)
  : entry * gmap string entry :=
  match cache !! base_url with
  | Some e => (e, cache)
  | None => (Entry ∅ 0, <[base_url := Entry ∅ 0]> cache)
  end.

(** What [client.get(url)] gives: it raises, or it returns a response.
    Of the response the function reads the text and the pairs of
    [resp.cookies.items()]; the iteration over the jar raises when it
    reaches a name that two cookies of the jar share, which is recorded
    as [conflict], the pairs being those produced before. *)
Inductive fetched : Type :=
| Page (text : string) (resp_cookies : list (string * string)) (conflict : bool)
| GetFailed.

(** [for name, value in items: waf_cookies[name] = value] *)
Definition store_all (items : list (string * string)) (m : gmap string string)
  : gmap string string :=
  foldl (fun m kv => <[fst kv := snd kv]> m) m items.

Section Fetch.
Variable client_get : string -> fetched.

(** The result, the cache afterwards, and the URLs requested.  Every
    exception is caught at the end of the function and gives [False];
    what was stored in the dictionary before it stays. *)
Definition fetch_waf_cookie (base_url : string) (force : bool)
    (current_time : Q) (cache : gmap string entry)
  : bool * gmap string entry * list string :=
  let '(e, cache) := get_waf_cookies base_url cache in
  if negb force && negb (bool_decide (cookies e = ∅))
     && negb (Qle_bool WAF_COOKIE_TTL (current_time - timestamp e))
  then (true, cache, [])
  else
    let url := base_url +:+ "/" in
    let keep (stored : gmap string string) (conflict : bool) :=
      if conflict
      then (false, <[base_url := Entry stored (timestamp e)]> cache, [url])
      else (true, <[base_url := Entry stored current_time]> cache, [url]) in
    match client_get url with
    | GetFailed => (false, cache, [url])
    | Page text resp_cookies conflict =>
        if str_in "acw_sc__v2" text || str_in "var arg1=" text
        then match solve_acw_challenge text with
             | Ok (Some cookie_value) =>
                 if String.eqb cookie_value "" then (false, cache, [url])
                 else keep (store_all resp_cookies
                              (<["acw_sc__v2" := cookie_value]> (cookies e)))
                           conflict
             | Ok None => (false, cache, [url])
             | Raise _ => (false, cache, [url])
             end
        else keep (store_all resp_cookies (cookies e)) conflict
    end.
End Fetch.

(** The entry of [base_url] is served from the cache at [current_time]. *)
Definition fresh (e : entry) (current_time : Q) : Prop :=
  cookies e <> ∅ /\ (current_time - timestamp e < WAF_COOKIE_TTL)%Q.

End WafCookies.

(* ===================================================================== *)
(** * The retry context and the loops of [proxy]                          *)
(* ===================================================================== *)

Module Engine.
Import Cooldown WafCookies.

Definition MAX_RETRY_ATTEMPTS : nat := 2.
Definition DEFAULT_PROBE_MODEL : string := "claude-sonnet-4-5-20250929".

(** ** [RetryContext] *)

Record RetryContext := Ctx {
  original_body : string;
  user_model : json;
  (** [probe_body] before it is serialised *)
  probe_body : json;
  full_context_attempts : Z;
  probe_attempts : Z;
  probe_succeeded_but_full_failed : bool;
  last_working_url : option string;
  last_working_key : option string
}.

Definition create_probe_body (model : json) : json :=
  let probe_model := if truthy model then model else JStr DEFAULT_PROBE_MODEL in
  JObj [("model", probe_model);
        ("max_tokens", JInt 1);
        ("messages", JArr [JObj [("role", JStr "user");
                                 ("content", JStr "ping")]])].

Definition should_use_probe (c : RetryContext) : bool :=
  (2 <=? full_context_attempts c)%Z.

(** Which of the two bodies a request carries. *)
Inductive body_kind : Type := FullBody | ProbeBody.

Definition get_request_body (c : RetryContext) : body_kind :=
  if should_use_probe c then ProbeBody else FullBody.

Definition record_attempt (is_probe success : bool)
    (url key : option string) (c : RetryContext) : RetryContext :=
  if is_probe
  then Ctx (original_body c) (user_model c) (probe_body c)
           (full_context_attempts c) (probe_attempts c + 1)
           (probe_succeeded_but_full_failed c)
           (if success then url else last_working_url c)
           (if success then key else last_working_key c)
  else Ctx (original_body c) (user_model c) (probe_body c)
           (full_context_attempts c + 1) (probe_attempts c)
           (probe_succeeded_but_full_failed c)
           (last_working_url c) (last_working_key c).

Definition set_full_context_attempts (n : Z) (c : RetryContext) : RetryContext :=
  Ctx (original_body c) (user_model c) (probe_body c) n (probe_attempts c)
      (probe_succeeded_but_full_failed c)
      (last_working_url c) (last_working_key c).

Definition set_probe_succeeded_but_full_failed (c : RetryContext)
  : RetryContext :=
  Ctx (original_body c) (user_model c) (probe_body c)
      (full_context_attempts c) (probe_attempts c) true
      (last_working_url c) (last_working_key c).

(** ** The upstream *)

(** An upstream answer, once read: the status, the [content-type] header
    (empty when absent) and the decoded body. *)
Record response := Response {
  status_code : Z;
  content_type : string;
  resp_text : string
}.

(** What becomes of one request: [send] returns and the answer can be
    read to its end; or [send] returns the head of the answer and the
    reading of its body ([aread], or the stream handed to the client)
    raises [httpx.RequestError], [resp_text] being what arrived before;
    or [send] raises [httpx.RequestError]. *)
Inductive event : Type :=
| Answers (r : response)
| Truncated (r : response)
| RequestError.

(** One request that left the proxy. *)
Record request := Request {
  r_url : string;
  r_key : string;
  r_body : body_kind;
  (** the value of [attempt], of [is_probe] and of
      [full_context_attempts] when it was sent *)
  r_attempt : nat;
  r_is_probe : bool;
  r_full_before : Z;
  (** the request that repeats the original body after a probe succeeded *)
  r_resend : bool
}.

(** The entries of [all_errors]. *)
Inductive note : Type :=
| WafChallengeFailed (url : string)
| Overloaded (url : string)
| KeyInvalid (key : string)
| HttpStatus (url : string) (status : Z)
| AuthFailed (key : string) (status : Z)
| ProbeOkFullFailed (key : string) (status : Z)
| TransportFailed (url key : string).

(** What the client receives. *)
Inductive reply : Type :=
| Streamed (url key : string) (r : response)
| AsIs (status : Z) (text : string)
| ContentErrorAfterProbe (status : Z) (original_error : json)
| ProbeSuccessFullFailed (details : list note)
| FailoverExhausted (details : list note).

(** One call of [fetch_waf_cookie] made by [proxy]. *)
Record waf_call := WafCall {
  w_url : string;
  w_force : bool;
  (** how many requests of the run had been sent when it was made *)
  w_after : nat;
  (** the URLs it requested with [client.get]: none when the cache
      answered *)
  w_requested : list string
}.

(** What a run meets besides the answers to its requests: the cache of
    WAF cookies as the run finds it and, for the call of
    [fetch_waf_cookie] that is the [n]-th of the run (from 0), the clock
    and what [client.get] does. *)
Record waf_world := WafWorld {
  cached : gmap string entry;
  waf_clock : nat -> Q;
  client_get : nat -> string -> fetched
}.

(** The state of one run of [proxy]. *)
Record state := State {
  glob : globals;
  ctx : RetryContext;
  all_errors : list note;
  (** the requests sent so far, oldest first *)
  sent : list request;
  waf_cookies_cache : gmap string entry;
  (** the calls of [fetch_waf_cookie] so far, oldest first *)
  waf_calls : list waf_call
}.

Definition with_glob (f : globals -> globals) (s : state) : state :=
  State (f (glob s)) (ctx s) (all_errors s) (sent s)
        (waf_cookies_cache s) (waf_calls s).
Definition with_ctx (f : RetryContext -> RetryContext) (s : state) : state :=
  State (glob s) (f (ctx s)) (all_errors s) (sent s)
        (waf_cookies_cache s) (waf_calls s).
Definition add_error (n : note) (s : state) : state :=
  State (glob s) (ctx s) (all_errors s ++ [n]) (sent s)
        (waf_cookies_cache s) (waf_calls s).
Definition add_request (r : request) (s : state) : state :=
  State (glob s) (ctx s) (all_errors s) (sent s ++ [r])
        (waf_cookies_cache s) (waf_calls s).
Definition with_cache (f : gmap string entry -> gmap string entry) (s : state)
  : state :=
  State (glob s) (ctx s) (all_errors s) (sent s)
        (f (waf_cookies_cache s)) (waf_calls s).

(** How one round of [for attempt in ...] ends. *)
Inductive flow : Type :=
| Continue
| Break
| Return (r : reply).

(** The three kinds of error a failed answer is sorted into by the
    [try] blocks; [Plain] is every case that falls through them. *)
Inductive verdict : Type :=
| Overload
| AuthError
| Plain.

Definition auth_types : list string :=
  ["authentication_error"; "invalid_api_key"; "permission_error"].

Definition content_types : list string :=
  ["invalid_request_error"; "content_policy_violation"; "request_too_large"].

(** [v in (s1, s2, s3)] for a decoded value [v]. *)
Definition in_strings (v : json) (l : list string) : bool :=
  match v with
  | JStr s => bool_decide (s ∈ l)
  | _ => false
  end.

(** [error_data.get('error', {}).get(field, '')]; [None] when one of the
    two [get] raises. *)
Definition error_field (field : string) (error_data : json) : option json :=
  match error_data with
  | JObj members =>
      match default (JObj []) (dict_get "error" members) with
      | JObj error => Some (default (JStr "") (dict_get field error))
      | _ => None
      end
  | _ => None
  end.

(** The overload marker, two characters of three bytes each in UTF-8. *)
Definition overload_marker : string :=
  str ["232"; "180"; "159"; "232"; "189"; "189"]%char.

(** ['负载' in error_msg or 'overload' in error_msg.lower()], followed by
    the [print] of [error_msg[:100]] when it holds; [None] when either
    raises. *)
Definition overload_test (error_msg : json) : option bool :=
  match error_msg with
  | JStr s => Some (str_in overload_marker s || str_in "overload" (lower s))
  | JArr items =>
      if existsb (fun v => match v with
                           | JStr s => String.eqb s overload_marker
                           | _ => false
                           end) items
      then Some true else None
  | _ => None
  end.

(** The lines that handle a challenge page met in the attempt loop:
    [new_cookie = solve_acw_challenge(resp_text)] and, when that is not
    empty, [waf_cookies['acw_sc__v2'] = new_cookie].  [waf_cookies] is
    the dictionary held by the cache entry of the URL; the solver does
    not raise ([SolverFacts.solve_acw_challenge_total]). *)
Definition store_challenge_cookie (url resp_text : string)
    (cache : gmap string entry) : gmap string entry :=
  match Solver.solve_acw_challenge resp_text with
  | Ok (Some new_cookie) =>
      if String.eqb new_cookie "" then cache
      else
        let r := get_waf_cookies url cache in
        <[url := Entry (<["acw_sc__v2" := new_cookie]> (cookies (fst r)))
                       (timestamp (fst r))]> (snd r)
  | _ => cache
  end.

(** ['anyrouter' in url or 'cspok' in url] *)
Definition waf_host (url : string) : bool :=
  str_in "anyrouter" url || str_in "cspok" url.

Section Engine.
Variable json_loads : string -> option json.
Variable CANDIDATE_URLS : list string.
Variable CANDIDATE_API_KEYS : list string.
(** The answers, in the order the requests of this run are sent. *)
Variable upstream : nat -> event.
(** The clock when a success is confirmed. *)
Variable now : Q.
Variable world : waf_world.

(** [await fetch_waf_cookie(http_client, base_url, force)]; [proxy] does
    not look at the result. *)
Definition refresh_waf (base_url : string) (force : bool) (s : state) : state :=
  let n := length (waf_calls s) in
  let r := fetch_waf_cookie (client_get world n) base_url force
             (waf_clock world n) (waf_cookies_cache s) in
  State (glob s) (ctx s) (all_errors s) (sent s) (snd (fst r))
        (waf_calls s ++ [WafCall base_url force (length (sent s)) (snd r)]).

(** The top of the URL loop: the cache entry of the URL is looked up,
    which creates it, and for the hosts behind the WAF a cookie is
    fetched unless the cache has one. *)
Definition begin_url (url : string) (s : state) : state :=
  let s := with_cache (fun cache => snd (get_waf_cookies url cache)) s in
  if waf_host url then refresh_waf url false s else s.

(** The top of the [try] block: [if attempt > 1] the cookie is fetched
    again, whatever the host. *)
Definition before_attempt (url : string) (attempt : nat) (s : state) : state :=
  if (1 <? attempt)%nat then refresh_waf url true s else s.

Definition extract_model_from_body (body : string) : json :=
  match json_loads body with
  | Some (JObj members) =>
      default (JStr DEFAULT_PROBE_MODEL) (dict_get "model" members)
  | _ => JStr DEFAULT_PROBE_MODEL
  end.

Definition new_RetryContext (body : string) : RetryContext :=
  let model := extract_model_from_body body in
  Ctx body model (create_probe_body model) 0 0 false None None.

(** The [try] block of the [status_code >= 500] branch. *)
Definition classify_5xx (r : response) : verdict :=
  if str_in "application/json" (content_type r)
  then match json_loads (resp_text r) with
       | Some error_data =>
           match error_field "message" error_data,
                 error_field "type" error_data with
           | Some error_msg, Some error_type =>
               match overload_test error_msg with
               | Some true => Overload
               | Some false =>
                   if in_strings error_type auth_types then AuthError
                   else Plain
               | None => Plain
               end
           | _, _ => Plain
           end
       | None => Plain
       end
  else Plain.

(** The [try] block of the [status_code in (401, 403)] branch. *)
Definition classify_4xx (r : response) : verdict :=
  if bool_decide (status_code r = 401%Z \/ status_code r = 403%Z)
  then match json_loads (resp_text r) with
       | Some error_data =>
           match error_field "type" error_data with
           | Some error_type =>
               if in_strings error_type auth_types then AuthError else Plain
           | None => Plain
           end
       | None => Plain
       end
  else Plain.

(** The handling shared by the two places that see an auth error. *)
Definition on_auth_error (url key : string) (is_probe : bool)
    (failed : note) (s : state) : flow * state :=
  if negb (nonessential_traffic_disabled (glob s)) && negb is_probe
  then (Continue,
        with_ctx (fun c => set_full_context_attempts
                             (full_context_attempts c - 1) c)
          (with_glob (set_nonessential_traffic_disabled true) s))
  else (Break,
        add_error failed
          (with_glob (add_pending_cooldown CANDIDATE_API_KEYS url key) s)).

(** [if attempt < MAX_RETRY_ATTEMPTS: continue], else the note and
    [break]. *)
Definition retry_or (attempt : nat) (failed : note) (s : state)
  : flow * state :=
  if (attempt <? MAX_RETRY_ATTEMPTS)%nat then (Continue, s)
  else (Break, add_error failed s).

(** The answer to the full request that follows a successful probe,
    once it was read to its end.  With a status of 400 or more the flag
    is set first, then the body is read and looked at; when the reading
    raises, only the flag has been set ([on_success], the case
    [Truncated]). *)
Definition after_probe (url key : string) (attempt : nat)
    (full_resp : response) (s : state) : flow * state :=
  if (400 <=? status_code full_resp)%Z
  then
    let s1 := with_ctx set_probe_succeeded_but_full_failed s in
    let content_error :=
      match json_loads (resp_text full_resp) with
      | Some error_data =>
          match error_field "type" error_data with
          | Some error_type =>
              if in_strings error_type content_types
              then match error_data with
                   | JObj members =>
                       Some (default (JObj []) (dict_get "error" members))
                   | _ => None
                   end
              else None
          | None => None
          end
      | None => None
      end in
    match content_error with
    | Some original_error =>
        (Return (ContentErrorAfterProbe (status_code full_resp)
                   original_error), s1)
    | None =>
        (Break, add_error (ProbeOkFullFailed key (status_code full_resp)) s1)
    end
  else
    (Return (Streamed url key full_resp),
     with_glob (confirm_cooldown_for_url url now) s).

(** The handling of an answer with a status of 400 or more. *)
Definition on_failure (url key : string) (is_probe : bool) (attempt : nat)
    (r : response) (s : state) : flow * state :=
  let s := with_ctx (record_attempt is_probe false None None) s in
  if str_in "var arg1=" (resp_text r)
  then retry_or attempt (WafChallengeFailed url)
         (with_cache (store_challenge_cookie url (resp_text r)) s)
  else if (500 <=? status_code r)%Z
  then match classify_5xx r with
       | Overload => (Break, add_error (Overloaded url) s)
       | AuthError => on_auth_error url key is_probe (KeyInvalid key) s
       | Plain => retry_or attempt (HttpStatus url (status_code r)) s
       end
  else match classify_4xx r with
       | AuthError =>
           on_auth_error url key is_probe
             (AuthFailed key (status_code r)) s
       | _ => (Return (AsIs (status_code r) (resp_text r)), s)
       end.

(** The [except httpx.RequestError] block. *)
Definition on_request_error (url key : string) (is_probe : bool)
    (attempt : nat) (s : state) : flow * state :=
  retry_or attempt (TransportFailed url key)
    (with_ctx (record_attempt is_probe false None None) s).

(** The block [if resp.status_code < 400]; the body of [resp] is not
    read there.  After a probe the original body is sent; when the head
    of its answer has a status of 400 or more the flag is set before the
    body is read. *)
Definition on_success (url key : string) (is_probe : bool) (attempt : nat)
    (resp : response) (s : state) : flow * state :=
  let s := with_ctx (record_attempt is_probe true (Some url) (Some key)) s in
  if is_probe
  then
    let full_answer := upstream (length (sent s)) in
    let s := add_request
               (Request url key FullBody attempt is_probe
                  (full_context_attempts (ctx s)) true) s in
    match full_answer with
    | RequestError => on_request_error url key is_probe attempt s
    | Truncated full_resp =>
        if (400 <=? status_code full_resp)%Z
        then on_request_error url key is_probe attempt
               (with_ctx set_probe_succeeded_but_full_failed s)
        else (Return (Streamed url key full_resp),
              with_glob (confirm_cooldown_for_url url now) s)
    | Answers full_resp => after_probe url key attempt full_resp s
    end
  else (Return (Streamed url key resp),
        with_glob (confirm_cooldown_for_url url now) s).

(** The body of [for attempt in range(1, MAX_RETRY_ATTEMPTS + 1)]. *)
Definition attempt_body (url key : string) (is_probe : bool)
    (current_body : body_kind) (attempt : nat) (s : state) : flow * state :=
  let s := before_attempt url attempt s in
  let answer := upstream (length (sent s)) in
  let s := add_request
             (Request url key current_body attempt is_probe
                (full_context_attempts (ctx s)) false) s in
  match answer with
  | RequestError => on_request_error url key is_probe attempt s
  | Truncated r =>
      if (status_code r <? 400)%Z
      then on_success url key is_probe attempt r s
      else on_request_error url key is_probe attempt s
  | Answers r =>
      if (status_code r <? 400)%Z
      then on_success url key is_probe attempt r s
      else on_failure url key is_probe attempt r s
  end.

Fixpoint for_attempts (url key : string) (is_probe : bool)
    (current_body : body_kind) (attempts : list nat) (s : state)
  : option reply * state :=
  match attempts with
  | [] => (None, s)
  | attempt :: rest =>
      match attempt_body url key is_probe current_body attempt s with
      | (Continue, s') => for_attempts url key is_probe current_body rest s'
      | (Break, s') => (None, s')
      | (Return r, s') => (Some r, s')
      end
  end.

(** [range(1, MAX_RETRY_ATTEMPTS + 1)] *)
Definition attempt_range : list nat := seq 1 MAX_RETRY_ATTEMPTS.

(** The body of [for key_idx, current_api_key in enumerate(sorted_keys)]. *)
Definition key_body (url key : string) (s : state) : option reply * state :=
  let is_probe := should_use_probe (ctx s) in
  let current_body := get_request_body (ctx s) in
  let s := with_glob (increment_key_usage key) s in
  for_attempts url key is_probe current_body attempt_range s.

Fixpoint for_keys (url : string) (sorted_keys : list string) (s : state)
  : option reply * state :=
  match sorted_keys with
  | [] => (None, s)
  | key :: rest =>
      match key_body url key s with
      | (Some r, s') => (Some r, s')
      | (None, s') => for_keys url rest s'
      end
  end.

Fixpoint for_urls (available_urls sorted_keys : list string) (s : state)
  : option reply * state :=
  match available_urls with
  | [] => (None, s)
  | url :: rest =>
      match for_keys url sorted_keys (begin_url url s) with
      | (Some r, s') => (Some r, s')
      | (None, s') => for_urls rest sorted_keys s'
      end
  end.

(** [proxy] from the point where [body] has been rewritten; [start] is
    the clock when the keys and the URLs are selected. *)
Definition failover (body : string) (start : Q) (g : globals)
  : result (reply * state) :=
  let retry_ctx := new_RetryContext body in
  '(sorted_keys, g1) ←
      get_keys_sorted_by_usage CANDIDATE_API_KEYS start g;
  let '(available_urls, g2) := get_available_urls CANDIDATE_URLS start g1 in
  let s0 := State g2 retry_ctx [] [] (cached world) [] in
  match for_urls available_urls sorted_keys s0 with
  | (Some r, s) => Ok (r, s)
  | (None, s) =>
      if probe_succeeded_but_full_failed (ctx s)
      then Ok (ProbeSuccessFullFailed (all_errors s), s)
      else Ok (FailoverExhausted (all_errors s), s)
  end.

(** ** Specification vocabulary *)

(** An answer the loop treats as a WAF challenge page. *)
Definition is_challenge (r : response) : bool := str_in "var arg1=" (resp_text r).

(** An answer that reaches [break] through the overload test. *)
Definition overload_classified (r : response) : Prop :=
  is_challenge r = false /\ (500 <= status_code r)%Z /\
  classify_5xx r = Overload.

(** An answer that reaches the handling of an auth error. *)
Definition auth_classified (r : response) : Prop :=
  is_challenge r = false /\ (400 <= status_code r)%Z /\
  (if (500 <=? status_code r)%Z then classify_5xx r else classify_4xx r)
  = AuthError.

(** A request of probe mode: it carries the probe body, or it is the
    repetition of the original body after the probe succeeded. *)
Definition probe_request (rq : request) : Prop :=
  r_is_probe rq = true /\ (r_resend rq = false -> r_body rq = ProbeBody).

(** Along a trace, no request of a full-body iteration follows a request
    of a probe iteration. *)
Definition probe_flags_monotone (trace : list request) : Prop :=
  forall i j rq rq',
    (i <= j)%nat -> trace !! i = Some rq -> trace !! j = Some rq' ->
    r_is_probe rq = true -> r_is_probe rq' = true.

(** The requests one round of the attempt loop sends: all for the
    current URL and key, all with the flag [is_probe] of the iteration,
    the first with its body. *)
Definition round_request (url key : string) (is_probe : bool)
    (body : body_kind) (rq : request) : Prop :=
  r_url rq = url /\ r_key rq = key /\ r_is_probe rq = is_probe /\
  (r_resend rq = false -> r_body rq = body).

(** The state once a request was sent (after the cookie was fetched
    again, on a round that is not the first) and its answer, a failure,
    was recorded. *)
Definition after_failed_answer (url key : string) (is_probe : bool)
    (body : body_kind) (attempt : nat) (s : state) : state :=
  with_ctx (record_attempt is_probe false None None)
    (add_request (Request url key body attempt is_probe
                    (full_context_attempts (ctx s)) false)
       (before_attempt url attempt s)).

(** The URLs requested by the calls of [fetch_waf_cookie] of a run. *)
Definition waf_requests (s : state) : list string :=
  concat (map w_requested (waf_calls s)).

(** The answer whose head arrived, when one did. *)
Definition answer_head (e : event) : option response :=
  match e with
  | Answers r | Truncated r => Some r
  | RequestError => None
  end.

(** The status in the head of an answer, when there is an answer. *)
Definition head_status (e : event) : option Z :=
  match e with
  | Answers r | Truncated r => Some (status_code r)
  | RequestError => None
  end.

(** Some request of the trace repeats the original body after a probe
    and was answered with a status of 400 or more. *)
Definition resend_refused (trace : list request) : bool :=
  existsb (fun irq : nat * request =>
             r_resend (snd irq)
             && from_option (fun status => (400 <=? status)%Z) false
                  (head_status (upstream (fst irq))))
          (imap pair trace).

(** The claim that a request sent once the counter is at 2 or more
    carries the probe body. *)
Definition probe_body_from_two (trace : list request) : Prop :=
  forall rq, rq ∈ trace -> (2 <= r_full_before rq)%Z ->
             r_resend rq = false -> r_body rq = ProbeBody.


(** What holds at the boundaries of the key loop. *)
Definition flags_invariant (s : state) : Prop :=
  probe_flags_monotone (sent s) /\
  (should_use_probe (ctx s) = false ->
   Forall (fun rq => r_is_probe rq = false) (sent s)).

(** The note left by an auth error. *)
Definition auth_note (key : string) (r : response) : note :=
  if (500 <=? status_code r)%Z then KeyInvalid key
  else AuthFailed key (status_code r).

End Engine.

(** [proxy], with the rewrite of the body on the path [v1/messages]. *)
Definition proxy (json_loads : string -> option json) (float_repr : Q -> string)
    (SYSTEM_PROMPT_REPLACEMENT : option string)
    (SYSTEM_PROMPT_BLOCK_INSERT_IF_NOT_EXIST : bool)
    (CANDIDATE_URLS CANDIDATE_API_KEYS : list string)
    (upstream : nat -> event) (now : Q) (world : waf_world)
    (path body : string) (start : Q) (g : globals)
  : result (reply * state) :=
  body' ← (if String.eqb path "v1/messages" || String.eqb path "v1/messages/"
           then Rewriter.process_request_body json_loads float_repr
                  SYSTEM_PROMPT_REPLACEMENT
                  SYSTEM_PROMPT_BLOCK_INSERT_IF_NOT_EXIST body
           else Ok body);
  failover json_loads CANDIDATE_URLS CANDIDATE_API_KEYS upstream now world
    body' start g.

End Engine.

(* ===================================================================== *)
(** * The process: what can happen to the module level variables          *)
(* ===================================================================== *)

Module Process.
Import Cooldown Engine.

(** Every key of the map has the form of a KeyId. *)
Definition only_key_ids (m : gmap string json) : Prop :=
  map_Forall (fun kid _ => is_key_id kid = true) m.

(** KeyIds, and nothing else, name the key cooldowns in memory, the
    entries of the pending lists and the keys of the document on disk. *)
Definition store_invariant (g : globals) : Prop :=
  only_key_ids (key_cooldown_until g) /\
  map_Forall (fun _ l => Forall (fun kid => is_key_id kid = true) l)
             (pending_cooldown_keys g) /\
  forall doc, cooldown_file g = Some doc ->
              only_key_ids (keys doc) /\
              schema_version doc = COOLDOWN_SCHEMA_VERSION.

Section Process.
Variable json_loads : string -> option json.
Variable CANDIDATE_URLS : list string.
Variable CANDIDATE_API_KEYS : list string.

(** One call of a function of the module that touches the variables, or
    one request served. *)
Inductive step : globals -> globals -> Prop :=
| step_add_pending url key g :
    step g (add_pending_cooldown CANDIDATE_API_KEYS url key g)
| step_confirm url now g :
    step g (confirm_cooldown_for_url url now g)
| step_clear url g :
    step g (clear_pending_cooldown url g)
| step_set_key key now g :
    step g (snd (set_key_cooldown CANDIDATE_API_KEYS key now g))
| step_is_key key now g b g' :
    is_key_in_cooldown CANDIDATE_API_KEYS key now g = Ok (b, g') ->
    step g g'
| step_set_url url now g :
    step g (set_url_cooldown url now g)
| step_is_url url now g :
    step g (snd (is_url_in_cooldown url now g))
| step_usage key g :
    step g (increment_key_usage key g)
| step_save g :
    step g (save_cooldowns g)
| step_request upstream now world body start g r s :
    failover json_loads CANDIDATE_URLS CANDIDATE_API_KEYS upstream now world
      body start g = Ok (r, s) ->
    step g (glob s).

(** The states of a process that found [data] in the cooldown file when
    it started at time [now]. *)
Inductive reachable (data : option json) (now : Q) (env_disabled : bool)
  : globals -> Prop :=
| reach_init :
    reachable data now env_disabled
      (module_init CANDIDATE_API_KEYS data now env_disabled)
| reach_step g g' :
    reachable data now env_disabled g -> step g g' ->
    reachable data now env_disabled g'.

(** Where an entry of the loaded key cooldowns comes from: a member
    [(k, v)] of ["keys"] in the file whose name is a KeyId already (in a
    file of version 2 or more) or a configured key. *)
Definition from_file (data : option json) (kid : string) (v : json) : Prop :=
  exists members raw k,
    data = Some (JObj members) /\
    dict_get "keys" members = Some (JObj raw) /\
    (k, v) ∈ raw /\
    ((k = kid /\ is_key_id k = true /\
      version_ge2 (default (JInt 1) (dict_get "schema_version" members))
      = Ok true) \/
     (k ∈ CANDIDATE_API_KEYS /\ kid = _key_id k)).

End Process.

End Process.

(* ===================================================================== *)
(** * A reader for JSON texts                                             *)
(* ===================================================================== *)

(** The program takes [json.loads] from the standard library, and the
    definitions above take it as a parameter.  [Reader.loads] is a reader
    for the texts used in the examples of this file: objects, arrays,
    strings with the one-letter escapes, integers and the three
    literals; it gives up on [\u] escapes, fractions and exponents. *)
Module Reader.

Definition is_ws (c : ascii) : bool :=
  let n := N_of_ascii c in
  ((n =? 32) || (n =? 9) || (n =? 10) || (n =? 13))%N.

Fixpoint skip_ws (l : list ascii) : list ascii :=
  match l with
  | c :: r => if is_ws c then skip_ws r else l
  | [] => []
  end.

Definition unescape (c : ascii) : option ascii :=
  let n := N_of_ascii c in
  if (n =? 34)%N then Some dquote
  else if (n =? 92)%N then Some backslash
  else if (n =? 47)%N then Some "/"%char
  else if (n =? 98)%N then Some "008"%char
  else if (n =? 102)%N then Some "012"%char
  else if (n =? 110)%N then Some "010"%char
  else if (n =? 114)%N then Some "013"%char
  else if (n =? 116)%N then Some "009"%char
  else None.

(** The characters of a string, after its opening quote. *)
Fixpoint read_string (l acc : list ascii) : option (string * list ascii) :=
  match l with
  | [] => None
  | c :: r =>
      if Ascii.eqb c dquote then Some (str (rev acc), r)
      else if Ascii.eqb c backslash then
        match r with
        | e :: r' =>
            match unescape e with
            | Some x => read_string r' (x :: acc)
            | None => None
            end
        | [] => None
        end
      else if (N_of_ascii c <? 32)%N then None
      else read_string r (c :: acc)
  end.

Definition is_digit (c : ascii) : bool :=
  let n := N_of_ascii c in ((48 <=? n) && (n <=? 57))%N.

Fixpoint read_digits (l : list ascii) (acc : Z) : Z * list ascii :=
  match l with
  | c :: r =>
      if is_digit c
      then read_digits r (10 * acc + Z.of_N (N_of_ascii c) - 48)%Z
      else (acc, l)
  | [] => (acc, [])
  end.

(** [0] or a digit from 1 to 9 followed by digits; a fraction or an
    exponent is not read. *)
Definition read_natural (l : list ascii) : option (Z * list ascii) :=
  match l with
  | c :: r =>
      if is_digit c
      then let '(n, rest) :=
             if Ascii.eqb c "0"%char then (0%Z, r)
             else read_digits l 0%Z in
           match rest with
           | d :: _ =>
               if Ascii.eqb d "."%char || Ascii.eqb d "e"%char
                  || Ascii.eqb d "E"%char
               then None else Some (n, rest)
           | [] => Some (n, rest)
           end
      else None
  | [] => None
  end.

Fixpoint read_value (fuel : nat) (l : list ascii) : option (json * list ascii) :=
  match fuel with
  | O => None
  | S fuel' =>
      match skip_ws l with
      | "{"%char :: r =>
          match skip_ws r with
          | "}"%char :: r' => Some (JObj [], r')
          | r' => read_members fuel' r' []
          end
      | "["%char :: r =>
          match skip_ws r with
          | "]"%char :: r' => Some (JArr [], r')
          | r' => read_items fuel' r' []
          end
      | "t"%char :: "r"%char :: "u"%char :: "e"%char :: r => Some (JBool true, r)
      | "f"%char :: "a"%char :: "l"%char :: "s"%char :: "e"%char :: r =>
          Some (JBool false, r)
      | "n"%char :: "u"%char :: "l"%char :: "l"%char :: r => Some (JNull, r)
      | "-"%char :: r =>
          match read_natural r with
          | Some (n, rest) => Some (JInt (- n), rest)
          | None => None
          end
      | c :: r =>
          if Ascii.eqb c dquote
          then match read_string r [] with
               | Some (s, rest) => Some (JStr s, rest)
               | None => None
               end
          else match read_natural (c :: r) with
               | Some (n, rest) => Some (JInt n, rest)
               | None => None
               end
      | [] => None
      end
  end
with read_members (fuel : nat) (l : list ascii) (acc : list (string * json))
  : option (json * list ascii) :=
  match fuel with
  | O => None
  | S fuel' =>
      match l with
      | c :: r =>
          if Ascii.eqb c dquote
          then match read_string r [] with
               | Some (k, rest) =>
                   match skip_ws rest with
                   | ":"%char :: rest' =>
                       match read_value fuel' rest' with
                       | Some (v, rest'') =>
                           let acc' := dict_set k v acc in
                           match skip_ws rest'' with
                           | ","%char :: more =>
                               read_members fuel' (skip_ws more) acc'
                           | "}"%char :: after => Some (JObj acc', after)
                           | _ => None
                           end
                       | None => None
                       end
                   | _ => None
                   end
               | None => None
               end
          else None
      | [] => None
      end
  end
with read_items (fuel : nat) (l : list ascii) (acc : list json)
  : option (json * list ascii) :=
  match fuel with
  | O => None
  | S fuel' =>
      match read_value fuel' l with
      | Some (v, rest) =>
          match skip_ws rest with
          | ","%char :: more => read_items fuel' more (acc ++ [v])
          | "]"%char :: after => Some (JArr (acc ++ [v]), after)
          | _ => None
          end
      | None => None
      end
  end.

Definition loads (s : string) : option json :=
  let l := chars s in
  match read_value (S (length l)) l with
  | Some (v, rest) =>
      match skip_ws rest with
      | [] => Some v
      | _ :: _ => None
      end
  | None => None
  end.

(** A [float.__repr__] for runs without a float. *)
Definition no_float : Q -> string := fun _ => "nan".

End Reader.

(* ===================================================================== *)
(** * Sample configurations and upstream scripts                          *)
(* ===================================================================== *)

Module Samples.
Import Cooldown Engine.

Definition no_globals : globals := Globals ∅ ∅ ∅ ∅ false None.

(** Three keys; the first is the most used, the second is in cooldown. *)
Definition three_keys : list string := ["sk-1"; "sk-2"; "sk-3"].


(** A configured key that has the form of a KeyId, and a cooldown file
    of version 2 that names it; the record of ["sk-2"] in the file ends
    at 1500. *)
Definition hex_key : string := "0123456789abcdef".
Definition hex_keys : list string := [hex_key; "sk-2"].
Definition hex_key_entries : list (string * json) :=
  [(hex_key, JInt 5000); (_key_id "sk-2", JInt 1500)].
Definition hex_key_members : list (string * json) :=
  [("schema_version", JInt 2);
   ("keys", JObj hex_key_entries);
   ("urls", JObj [])].

Definition url_a : string := "https://a.example".
Definition url_b : string := "https://b.example".
Definition two_urls : list string := [url_a; url_b].
Definition two_keys : list string := ["sk-1"; "sk-2"].

Definition auth_401 : response :=
  Response 401 "application/json"
    (jq "{'error':{'type':'authentication_error'}}").
Definition overloaded_503 : response :=
  Response 503 "application/json"
    (jq "{'error':{'message':'Upstream Overloaded','type':'api_error'}}").
Definition plain_500 : response := Response 500 "text/html" "Internal error".
Definition ok_200 : response := Response 200 "application/json" "{}".

(** The upstream that gives the answers of [l] in turn and fails to
    connect afterwards. *)
Definition script (l : list event) (n : nat) : event := nth n l RequestError.

(** Nothing cached, the clock at 1000, and every [client.get] of
    [fetch_waf_cookie] answered by a page without challenge or cookie. *)
Definition plain_world : waf_world :=
  WafWorld ∅ (fun _ => 1000%Q)
           (fun _ _ => WafCookies.Page "<html>ok</html>" [] false).

(** The state in which a run starts, before the keys and the URLs are
    selected. *)
Definition start_state (g : globals) (c : RetryContext) : state :=
  State g c [] [] ∅ [].

(** What a run shows: the reply, the requests, the latch, the pending
    lists and the notes. *)
Definition observe (run : result (reply * state))
  : option (reply * list request * bool * list (string * list string)
            * list note) :=
  match run with
  | Ok (r, s) =>
      Some (r, sent s, nonessential_traffic_disabled (glob s),
            map_to_list (pending_cooldown_keys (glob s)), all_errors s)
  | Raise _ => None
  end.

(** A run of [proxy] on an empty store, with the body [{}]. *)
Definition run (urls keys : list string) (answers : list event)
  : result (reply * state) :=
  failover Reader.loads urls keys (script answers) 1000 plain_world "{}" 0
    no_globals.

(** A cooldown file of schema version 1, keyed by plaintext keys: one
    configured key in cooldown, one unknown key, one configured key whose
    cooldown is over at time 1000. *)
Definition legacy_file : option json :=
  Some (JObj [("keys", JObj [("sk-1", JInt 5000);
                             ("sk-retired", JInt 9000);
                             ("sk-2", JInt 10)]);
              ("urls", JObj [])]).

(** A process that loaded [legacy_file] and then saved. *)
Definition after_legacy_file : globals :=
  set_url_cooldown url_a 1000 (module_init two_keys legacy_file 1000 false).

(** Request bodies. *)
Definition body_claude : string :=
  jq "{'system':[{'type':'text','text':'You are Claude Code.'}],'model':'m'}".
Definition body_replaced : string :=
  jq "{'system':[{'type':'text','text':'X'}],'model':'m'}".
Definition body_hello : string :=
  jq "{'system':[{'type':'text','text':'Hello'}],'model':'m'}".
Definition body_number_text : string :=
  jq "{'system':[{'type':'text','text':5}],'model':'m'}".

(** The code point U+D800, a surrogate, as a text holds it; a body in
    which the model name is its escape; and a [json.loads] that reads
    this body ([Reader.loads] leaves [\u] escapes aside). *)
Definition lone_surrogate : string := str ["237"; "160"; "128"]%char.
Definition body_surrogate : string :=
  jq "{'system':[{'type':'text','text':'You are Claude Code.'}],'model':'\ud800'}".
Definition loads_surrogate (s : string) : option json :=
  if String.eqb s body_surrogate
  then Some (JObj [("system",
                    JArr [JObj [("type", JStr "text");
                                ("text", JStr "You are Claude Code.")]]);
                   ("model", JStr lone_surrogate)])
  else Reader.loads s.

End Samples.

(* ===================================================================== *)
(** * The cooldown file, read back                                        *)
(* ===================================================================== *)

Module Lifecycle.
Import Cooldown.

(** What [json.load] returns for the file [json.dump] wrote from [doc]:
    the three members in the order [save_cooldowns] lists them, the
    entries of the two dictionaries in whatever order the dictionaries
    had. *)
Definition read_back (doc : document) (data : json) : Prop :=
  exists raw_keys raw_urls : list (string * json),
    data = JObj [("schema_version", JInt (schema_version doc));
                 ("keys", JObj raw_keys);
                 ("urls", JObj raw_urls)] /\
    raw_keys ≡ₚ map_to_list (keys doc) /\
    raw_urls ≡ₚ map (fun uq => (fst uq, JFloat (snd uq)))
                    (map_to_list (urls doc)).

(** A URL that has a cooldown record ending after [now]. *)
Definition url_cooling (g : globals) (now : Q) (u : string) : bool :=
  match url_cooldown_until g !! u with
  | Some until => negb (Qle_bool until now)
  | None => false
  end.

(** No pending list names a KeyId twice. *)
Definition pending_distinct (g : globals) : Prop :=
  map_Forall (fun _ l => NoDup l) (pending_cooldown_keys g).

Section Served.
Variable json_loads : string -> option json.
Variable CANDIDATE_URLS : list string.
Variable CANDIDATE_API_KEYS : list string.

(** The states of a process that does nothing but serve requests: the
    module is imported, then [proxy] runs any number of times.  A request
    that raises while the keys are selected has done some of the
    cooldown lookups. *)
Inductive served (data : option json) (start : Q) (env_disabled : bool)
  : globals -> Prop :=
| served_init :
    served data start env_disabled
      (module_init CANDIDATE_API_KEYS data start env_disabled)
| served_request upstream now world body t g r s :
    served data start env_disabled g ->
    Engine.failover json_loads CANDIDATE_URLS CANDIDATE_API_KEYS upstream now
      world body t g = Ok (r, s) ->
    served data start env_disabled (Engine.glob s)
| served_lookup key now g b g' :
    served data start env_disabled g ->
    is_key_in_cooldown CANDIDATE_API_KEYS key now g = Ok (b, g') ->
    served data start env_disabled g'.

End Served.

End Lifecycle.

(* ===================================================================== *)
(** * Vocabulary for the runs of [proxy]                                  *)
(* ===================================================================== *)

Module Trace.
Import Cooldown Engine.

(** The request that opens an iteration of the key loop for [key]: the
    first round of the attempt loop, not the repetition after a probe. *)
Definition opens (key : string) (rq : request) : bool :=
  String.eqb (r_key rq) key && (r_attempt rq =? 1)%nat && negb (r_resend rq).

(** A reply that streams an upstream answer. *)
Definition is_streamed (r : reply) : bool :=
  match r with
  | Streamed _ _ _ => true
  | _ => false
  end.

(** A note left by a probe that succeeded while the original body failed. *)
Definition is_probe_note (n : note) : bool :=
  match n with
  | ProbeOkFullFailed _ _ => true
  | _ => false
  end.

(** An answer the 4xx branch hands to the client as it is. *)
Definition passed_through (json_loads : string -> option json) (r : response)
  : Prop :=
  (400 <= status_code r < 500)%Z /\ is_challenge r = false /\
  classify_4xx json_loads r <> AuthError.

(** The digits of the class [[A-F0-9]], in the order of their values. *)
Definition upper_digits : list ascii := chars "0123456789ABCDEF".

End Trace.

(* ===================================================================== *)
(** * The rotation indices                                                *)
(* ===================================================================== *)

Module Rotation.

(** The two exceptions the functions can raise. *)
Inductive error : Type :=
| NameError
| IndexError.

(** [current_url_index] and [current_key_index]; [None] for a name that
    has not been assigned.  The module assigns them nowhere but in
    [reset_indices]. *)
Record indices := Indices {
  current_url_index : option nat;
  current_key_index : option nat
}.

(** The state once the module is imported. *)
Definition unassigned : indices := Indices None None.

Section Config.
Variable CANDIDATE_URLS : list string.
Variable CANDIDATE_API_KEYS : list string.

Definition get_next_url (st : indices) : error + string * indices :=
  match current_url_index st with
  | None => inl NameError
  | Some i =>
      match CANDIDATE_URLS !! i with
      | None => inl IndexError
      | Some url =>
          inr (url, Indices (Some ((i + 1) mod length CANDIDATE_URLS)%nat)
                            (current_key_index st))
      end
  end.

Definition get_next_api_key (st : indices) : error + string * indices :=
  match current_key_index st with
  | None => inl NameError
  | Some i =>
      match CANDIDATE_API_KEYS !! i with
      | None => inl IndexError
      | Some key =>
          inr (key, Indices (current_url_index st)
                            (Some ((i + 1) mod length CANDIDATE_API_KEYS)%nat))
      end
  end.

Definition reset_indices (st : indices) : indices := Indices (Some 0%nat) (Some 0%nat).

(** [n] calls in a row of a function that returns a value and a state. *)
Fixpoint calls {A} (f : indices -> error + A * indices) (n : nat)
    (st : indices) : error + list A * indices :=
  match n with
  | O => inr ([], st)
  | S n' =>
      match f st with
      | inl e => inl e
      | inr (x, st') =>
          match calls f n' st' with
          | inl e => inl e
          | inr (xs, st'') => inr (x :: xs, st'')
          end
      end
  end.

End Config.

End Rotation.

(* ===================================================================== *)
(** * The header filters                                                  *)
(* ===================================================================== *)

Module Headers.



Section Lower.
(** [str.lower] *)
Variable str_lower : string -> string.




End Lower.


End Headers.

(* ===================================================================== *)
(** * More samples                                                        *)
(* ===================================================================== *)

Module MoreSamples.
Import Cooldown Engine WafCookies Samples.

Definition not_found_404 : response :=
  Response 404 "application/json"
    (jq "{'error':{'type':'not_found_error'}}").

(** A run that has not sent anything yet. *)
Definition fresh_state : state :=
  start_state no_globals (new_RetryContext Reader.loads "{}").

(** A run in probe mode, one request after its start. *)
Definition probing_state : state :=
  State no_globals
        (set_full_context_attempts 2 (new_RetryContext Reader.loads "{}"))
        [] [Request url_b "sk-2" FullBody 2 false 1 false] ∅ [].

(** A store in which ["sk-1"] is pending on [url_a] twice over. *)
Definition twice_pending : globals :=
  add_pending_cooldown ["sk-1"] url_a "sk-1"
    (add_pending_cooldown ["sk-1"] url_a "sk-1"
       (module_init ["sk-1"] None 0 false)).

(** The document [save_cooldowns] writes when ["sk-1"] is in cooldown
    until 5000, and the value [json.load] reads from it. *)
Definition saved_document : document :=
  Document 2 {[_key_id "sk-1" := JFloat 5000]} ∅.
Definition saved_file : json :=
  JObj [("schema_version", JInt 2);
        ("keys", JObj [(_key_id "sk-1", JFloat 5000)]);
        ("urls", JObj [])].

(** Challenge pages: the group of scenario S1, the same group with four
    more characters, and another group. *)
Definition challenge_page : string :=
  "<script>var arg1='3000176000856006061501533003690027800375';</script>".
Definition longer_page : string :=
  "<script>var arg1='3000176000856006061501533003690027800375ABCD';</script>".
Definition other_page : string :=
  "<script>var arg1='4000176000856006061501533003690027800375';</script>".

(** A site that answers with the challenge page and sets one cookie, a
    site that answers plainly, and a site that cannot be reached. *)
Definition waf_site (url : string) : fetched :=
  Page challenge_page [("cdn_sec_tc", "abc")] false.
Definition plain_site (url : string) : fetched :=
  Page "<html>ok</html>" [] false.
Definition dead_site (url : string) : fetched := GetFailed.

(** A URL whose host is behind the WAF, and a world in which that host
    answers every fetch with the challenge page. *)
Definition url_w : string := "https://anyrouter.top".
Definition waf_urls : list string := [url_w; url_b].
Definition challenge_world : waf_world :=
  WafWorld ∅ (fun _ => 1000%Q) (fun _ => waf_site).

(** What a run shows of its traffic: where the proxied requests went and
    the calls of [fetch_waf_cookie]. *)
Definition traffic (run : result (reply * state))
  : option (list (string * string) * list waf_call) :=
  match run with
  | Ok (_, s) => Some (map (fun rq => (r_url rq, r_key rq)) (sent s),
                       waf_calls s)
  | Raise _ => None
  end.

(** A cache that holds one cookie for [url_a], stored at time 100. *)
Definition one_cookie : gmap string entry :=
  {[url_a := Entry {["acw_sc__v2" := "0123"]} 100]}.

End MoreSamples.

(** * Properties *)

(** ** The challenge solver *)

Module SolverFacts.
Import Solver.

Lemma mask_value :
  b64decode (chars mask_b64)
  = Ok (chars "3000176000856006061501533003690027800375").
Proof. reflexivity. Qed.

Lemma prefix_strip_app (p r : list ascii) : prefix_strip p (p ++ r) = Some r.
Proof.
  induction p as [|a p IH]; simpl; [done|].
  by rewrite Ascii.eqb_refl.
Qed.

Lemma prefix_strip_Some (p l r : list ascii) :
  prefix_strip p l = Some r -> l = p ++ r.
Proof.
  revert l; induction p as [|a p IH]; intros [|b l]; simpl; try congruence.
  destruct (Ascii.eqb_spec a b) as [->|]; [|done].
  intros H. by rewrite (IH _ H).
Qed.

Lemma span_run (p : ascii -> bool) (run rest : list ascii) (q : ascii) :
  forallb p run = true -> p q = false ->
  span p (run ++ q :: rest) = (run, q :: rest).
Proof.
  intros Hrun Hq. induction run as [|c run IH]; simpl in *.
  - by rewrite Hq.
  - apply andb_true_iff in Hrun as [-> Hrun]. by rewrite IH.
Qed.

Lemma span_sound (p : ascii -> bool) (l a b : list ascii) :
  span p l = (a, b) -> l = a ++ b /\ forallb p a = true.
Proof.
  revert a b; induction l as [|c l IH]; simpl; intros a b.
  - by intros [= <- <-].
  - destruct (p c) eqn:Hc.
    + destruct (span p l) as [a' b'] eqn:Hs. intros [= <- <-].
      destruct (IH _ _ eq_refl) as [-> Ha]. simpl. by rewrite Hc.
    + by intros [= <- <-].
Qed.

Lemma match_here_hit (hex post : list ascii) :
  hex <> [] -> forallb is_upper_hex hex = true ->
  match_here (arg1_prefix ++ hex ++ "'"%char :: post) = Some hex.
Proof.
  intros Hne Hhex. unfold match_here.
  rewrite prefix_strip_app, (span_run _ _ _ _ Hhex) by done.
  by destruct hex.
Qed.

Lemma match_here_sound (l hex : list ascii) :
  match_here l = Some hex ->
  hex <> [] /\ forallb is_upper_hex hex = true /\
  exists post, l = arg1_prefix ++ hex ++ "'"%char :: post.
Proof.
  unfold match_here. destruct (prefix_strip _ l) as [rest|] eqn:Hp; [|done].
  apply prefix_strip_Some in Hp as ->.
  destruct (span _ rest) as [a b] eqn:Hs.
  apply span_sound in Hs as [-> Ha].
  destruct a as [|c a]; [done|].
  destruct b as [|q b]; [done|].
  destruct (Ascii.eqb_spec q "'"%char) as [->|Hq].
  - intros [= <-]. split; [done|]. split; [done|]. by exists b.
  - intros H. exfalso.
    destruct q as [[] [] [] [] [] [] [] []]; try discriminate H.
    by apply Hq.
Qed.

Lemma re_search_eq (l : list ascii) :
  re_search l =
  match match_here l with
  | Some hex => Some hex
  | None => match l with [] => None | _ :: l' => re_search l' end
  end.
Proof. by destruct l. Qed.

Lemma re_search_complete (l hex : list ascii) :
  occurs l hex -> exists arg1, re_search l = Some arg1.
Proof.
  intros (Hne & Hhex & pre & post & ->).
  induction pre as [|c pre IH]; rewrite re_search_eq.
  - rewrite app_nil_l, match_here_hit by done. eauto.
  - destruct (match_here _); eauto.
Qed.

Lemma re_search_sound (l arg1 : list ascii) :
  re_search l = Some arg1 -> occurs l arg1.
Proof.
  induction l as [|c l IH]; rewrite re_search_eq.
  - destruct (match_here []) eqn:Hm; [|done]. intros [= ->].
    apply match_here_sound in Hm as (? & ? & post & Hl).
    repeat split; [done..|]. by exists [], post.
  - destruct (match_here (c :: l)) eqn:Hm.
    + intros [= ->].
      apply match_here_sound in Hm as (? & ? & post & Hl).
      repeat split; [done..|]. by exists [], post.
    + intros H. destruct (IH H) as (? & ? & pre & post & ->).
      repeat split; [done..|]. by exists (c :: pre), post.
Qed.

Lemma re_search_None (l : list ascii) :
  re_search l = None <-> forall hex, ~ occurs l hex.
Proof.
  split.
  - intros Hn hex Ho. apply re_search_complete in Ho as [a Ha]. congruence.
  - intros Hno. destruct (re_search l) as [a|] eqn:Hs; [|done].
    apply re_search_sound in Hs. by destruct (Hno a).
Qed.

(** *** The two placement loops *)

Lemma posList_positive : Forall (fun p => (1 <= p)%nat) posList.
Proof. repeat constructor. Qed.

Lemma posList_perm : posList ≡ₚ seq 1 40.
Proof.
  apply NoDup_Permutation.
  - apply (bool_decide_unpack _); by vm_compute.
  - apply (bool_decide_unpack _); by vm_compute.
  - assert (Forall (fun x => x ∈ seq 1 40) posList) as H1
      by (apply (bool_decide_unpack _); by vm_compute).
    assert (Forall (fun x => x ∈ posList) (seq 1 40)) as H2
      by (apply (bool_decide_unpack _); by vm_compute).
    intros x. split; intros Hx.
    + by eapply (proj1 (Forall_forall _ _) H1).
    + by eapply (proj1 (Forall_forall _ _) H2).
Qed.

Lemma inner_loop_length i c n out : length (inner_loop i c n out) = length out.
Proof.
  unfold inner_loop. induction n as [|n IH]; [done|].
  rewrite seq_S, foldl_snoc. case_decide; [|done].
  by rewrite length_insert.
Qed.

Lemma inner_loop_lookup i c n out k :
  length out = length posList ->
  inner_loop i c n out !! k =
  if decide ((k < n)%nat /\ posList !! k = Some (i + 1)%nat)
  then Some [c] else out !! k.
Proof.
  intros Hlen. induction n as [|n IH].
  - unfold inner_loop. cbn [seq foldl]. case_decide as H; [lia|done].
  - unfold inner_loop in *. rewrite seq_S, foldl_snoc. cbn [Nat.add].
    fold (inner_loop i c n out) in *.
    destruct (decide (posList !! n = Some (i + 1)%nat)) as [Hn|Hn].
    + destruct (decide (n = k)) as [->|Hk].
      * rewrite list_lookup_insert_eq.
        -- by rewrite decide_True by (split; [lia|done]).
        -- rewrite inner_loop_length, Hlen. by eapply lookup_lt_Some.
      * rewrite list_lookup_insert_ne, IH by done.
        destruct (decide (k < n ∧ _)%nat) as [[? ?]|H1],
                 (decide (k < S n ∧ _)%nat) as [[? ?]|H2]; try done.
        -- exfalso. apply H2. split; [lia|done].
        -- exfalso. apply H1. split; [lia|done].
    + rewrite IH.
      destruct (decide (k < n ∧ _)%nat) as [[? ?]|H1],
               (decide (k < S n ∧ _)%nat) as [[? ?]|H2]; try done.
      * exfalso. apply H2. split; [lia|done].
      * exfalso. destruct (decide (k = n)) as [->|]; [done|].
        apply H1. split; [lia|done].
Qed.

Lemma place_lookup i c out k :
  length out = length posList ->
  place i c out !! k =
  if decide (posList !! k = Some (i + 1)%nat) then Some [c] else out !! k.
Proof.
  intros Hlen. unfold place. rewrite inner_loop_lookup by exact Hlen.
  destruct (decide (_ ∧ _)) as [[? ?]|H1], (decide (posList !! k = _)) as [|H2];
    [reflexivity|contradiction| |reflexivity].
  exfalso. apply H1. split; [|assumption]. eapply lookup_lt_Some. eassumption.
Qed.

Lemma place_length i c out : length (place i c out) = length out.
Proof. apply inner_loop_length. Qed.

Lemma outPutList_snoc arg1 c :
  outPutList (arg1 ++ [c]) = place (length arg1) c (outPutList arg1).
Proof.
  unfold outPutList. rewrite imap_app, foldl_app. cbn [imap foldl fst snd].
  by rewrite Nat.add_0_r.
Qed.

Lemma outPutList_length arg1 : length (outPutList arg1) = length posList.
Proof.
  induction arg1 as [|c arg1 IH] using rev_ind; [done|].
  by rewrite outPutList_snoc, place_length.
Qed.

Lemma outPutList_lookup arg1 k :
  outPutList arg1 !! k = slot arg1 <$> posList !! k.
Proof.
  induction arg1 as [|c arg1 IH] using rev_ind.
  - unfold outPutList. cbn [imap foldl].
    destruct (posList !! k) as [p|] eqn:Hk; cbn [fmap option_fmap option_map].
    + replace (slot [] p) with (@nil ascii) by (unfold slot; by destruct (p - 1)%nat).
      apply lookup_replicate_2. by eapply lookup_lt_Some.
    + apply lookup_replicate_None. by apply lookup_ge_None.
  - rewrite outPutList_snoc, place_lookup by apply outPutList_length.
    rewrite IH.
    destruct (posList !! k) as [p|] eqn:Hk; cbn [fmap option_fmap option_map].
    + assert (1 <= p)%nat as Hp.
      { eapply (proj1 (Forall_lookup _ _) posList_positive); eauto. }
      case_decide as Heq.
      * injection Heq as ->. unfold slot.
        replace (length arg1 + 1 - 1)%nat with (length arg1)%nat by lia.
        by rewrite list_lookup_middle.
      * f_equal. unfold slot.
        destruct (decide (p - 1 < length arg1)%nat).
        -- by rewrite lookup_app_l.
        -- assert (p <> length arg1 + 1)%nat by congruence.
           rewrite (proj2 (lookup_ge_None arg1 _)) by lia.
           rewrite (proj2 (lookup_ge_None (arg1 ++ [c]) _)); [done|].
           rewrite length_app. simpl. lia.
    + by case_decide.
Qed.

Lemma outPutList_eq arg1 : outPutList arg1 = slot arg1 <$> posList.
Proof.
  apply list_eq. intros k. by rewrite outPutList_lookup, list_lookup_fmap.
Qed.

Lemma slots_in_order arg1 n :
  concat (slot arg1 <$> seq 1 n) = take n arg1.
Proof.
  induction n as [|n IH]; [done|].
  rewrite seq_S, fmap_app, concat_app, IH.
  cbn [fmap list_fmap concat]. unfold slot.
  replace (1 + n - 1)%nat with n by lia. rewrite app_nil_r.
  destruct (arg1 !! n) as [c|] eqn:Hn; cbn [option_list].
  - by rewrite (take_S_r _ _ c).
  - apply lookup_ge_None in Hn. rewrite app_nil_r, !take_ge; [done|lia..].
Qed.

(** [arg2] rearranges the first 40 characters of [arg1]. *)
Lemma arg2_perm arg1 : arg2 arg1 ≡ₚ take 40 arg1.
Proof.
  unfold arg2. rewrite outPutList_eq, <- (slots_in_order arg1 40).
  change (concat (?f <$> ?l)) with (l ≫= f).
  by rewrite posList_perm.
Qed.

Lemma arg2_length arg1 : length (arg2 arg1) = Nat.min 40 (length arg1).
Proof. rewrite (Permutation_length (arg2_perm arg1)). apply length_take. Qed.

Lemma arg2_upper_hex arg1 :
  forallb is_upper_hex arg1 = true -> forallb is_upper_hex (arg2 arg1) = true.
Proof.
  rewrite !forallb_forall. intros H c Hc. apply H.
  apply (Permutation_in _ (arg2_perm arg1)) in Hc.
  apply list_elem_of_In in Hc. apply list_elem_of_In.
  apply elem_of_take in Hc as (i & Hi & _).
  by eapply list_elem_of_lookup_2.
Qed.

(** *** The XOR loop *)

Lemma hex_value_upper (c : ascii) :
  is_upper_hex c = true -> exists d, hex_value c = Some d /\ (0 <= d < 16)%Z.
Proof.
  intros Hc.
  assert (from_option (fun d => (0 <=? d)%Z && (d <? 16)%Z) false
            (hex_value c) = true) as H.
  { revert Hc. destruct c as [[] [] [] [] [] [] [] []]; by vm_compute. }
  destruct (hex_value c) as [d|]; [|done]. exists d. split; [done|].
  simpl in H. apply andb_true_iff in H as [?%Z.leb_le ?%Z.ltb_lt]. lia.
Qed.

Lemma int16_slice (l : list ascii) (i : nat) :
  forallb is_upper_hex l = true -> (i < length l)%nat ->
  exists x, int16 (slice2 i l) = Ok x /\ (0 <= x < 256)%Z.
Proof.
  intros Hl Hi. unfold slice2.
  assert (forallb is_upper_hex (drop i l) = true) as Hd.
  { rewrite forallb_forall in *. intros c Hc. apply Hl.
    apply list_elem_of_In. apply list_elem_of_In in Hc.
    apply list_elem_of_lookup in Hc as [k Hk]. rewrite lookup_drop in Hk.
    by eapply list_elem_of_lookup_2. }
  assert (0 < length (drop i l))%nat as Hn by (rewrite length_drop; lia).
  destruct (drop i l) as [|a [|b rest]]; simpl in *; [lia| |].
  - apply andb_true_iff in Hd as [Ha _].
    destruct (hex_value_upper a Ha) as (d & -> & ?). exists d. split; [done|lia].
  - apply andb_true_iff in Hd as [Ha Hd]. apply andb_true_iff in Hd as [Hb _].
    destruct (hex_value_upper a Ha) as (d & -> & ?).
    destruct (hex_value_upper b Hb) as (e & -> & ?).
    exists (16 * (16 * 0 + d) + e)%Z. split; [done|lia].
Qed.

Lemma lxor_byte (x y : Z) :
  (0 <= x < 256)%Z -> (0 <= y < 256)%Z -> (0 <= Z.lxor x y < 256)%Z.
Proof.
  intros Hx Hy.
  assert (0 <= Z.lxor x y)%Z as H0 by (apply Z.lxor_nonneg; lia).
  split; [done|].
  destruct (decide (Z.lxor x y = 0%Z)) as [->|Hz]; [lia|].
  change 256%Z with (2 ^ 8)%Z. apply Z.log2_lt_pow2; [lia|].
  assert (forall v, (0 <= v < 256)%Z -> (Z.log2 v < 8)%Z) as Hlog.
  { intros v Hv. destruct (decide (v = 0%Z)) as [->|]; [done|].
    apply Z.log2_lt_pow2; lia. }
  pose proof (Z.log2_lxor x y). pose proof (Hlog x Hx). pose proof (Hlog y Hy).
  lia.
Qed.

Lemma two_digits_byte (z : Z) :
  (0 <= z < 256)%Z ->
  length (two_digits z) = 2%nat /\ forallb is_lower_hex (two_digits z) = true.
Proof.
  intros Hz.
  assert (Forall (fun n => length (two_digits (Z.of_nat n)) = 2%nat /\
                           forallb is_lower_hex (two_digits (Z.of_nat n)) = true)
                 (seq 0 256)) as Hall.
  { apply (bool_decide_unpack _). by vm_compute. }
  rewrite Forall_forall in Hall.
  rewrite <- (Z2Nat.id z) by lia. apply Hall.
  apply elem_of_seq. lia.
Qed.

Lemma xor_chars_ok (a2 mask : list ascii) (i : nat) :
  forallb is_upper_hex a2 = true -> forallb is_upper_hex mask = true ->
  (i < length a2)%nat -> (i < length mask)%nat ->
  exists t, xor_chars a2 mask i = Ok t /\ length t = 2%nat /\
            forallb is_lower_hex t = true.
Proof.
  intros Ha Hm Hia Him. unfold xor_chars.
  destruct (int16_slice a2 i Ha Hia) as (x & -> & Hx).
  destruct (int16_slice mask i Hm Him) as (y & -> & Hy).
  cbn [mbind result_bind bind].
  exists (two_digits (Z.lxor x y)). split; [done|].
  apply two_digits_byte. by apply lxor_byte.
Qed.

Lemma xor_loop_ok (a2 mask : list ascii) (idx : list nat) (acc : list ascii) :
  forallb is_upper_hex a2 = true -> forallb is_upper_hex mask = true ->
  Forall (fun i => (i < length a2)%nat /\ (i < length mask)%nat) idx ->
  exists t,
    foldl (fun acc i => a ← acc; x ← xor_chars a2 mask i; Ok (a ++ x))
          (Ok acc) idx = Ok (acc ++ t) /\
    length t = (2 * length idx)%nat /\ forallb is_lower_hex t = true.
Proof.
  intros Ha Hm Hidx. revert acc.
  induction Hidx as [|i idx [Hia Him] _ IH]; intros acc.
  - exists []. by rewrite app_nil_r.
  - destruct (xor_chars_ok a2 mask i Ha Hm Hia Him) as (x & Hx & Hlen & Hlow).
    cbn [foldl]. rewrite Hx. cbn [mbind result_bind bind].
    destruct (IH (acc ++ x)) as (t & -> & Ht & Hl).
    exists (x ++ t). rewrite app_assoc. split; [done|]. split.
    + rewrite length_app. simpl. lia.
    + by rewrite forallb_app, Hlow, Hl.
Qed.

Lemma range_step2_bound (m i : nat) : i ∈ range_step2 m -> (i < m)%nat.
Proof.
  unfold range_step2. intros Hi.
  apply list_elem_of_fmap in Hi as (k & -> & Hk).
  apply elem_of_seq in Hk. rewrite Nat.div2_div in Hk.
  pose proof (Nat.div_mod_eq (S m) 2).
  pose proof (Nat.mod_upper_bound (S m) 2). lia.
Qed.

Lemma range_step2_length (m : nat) :
  length (range_step2 m) = ((m + 1) / 2)%nat.
Proof.
  unfold range_step2. rewrite length_map, length_seq, Nat.div2_div.
  by rewrite Nat.add_1_r.
Qed.

Lemma arg3_ok (a2 mask : list ascii) :
  forallb is_upper_hex a2 = true -> forallb is_upper_hex mask = true ->
  exists t, arg3 a2 mask = Ok t /\
    length t = (2 * ((Nat.min (length a2) (length mask) + 1) / 2))%nat /\
    forallb is_lower_hex t = true.
Proof.
  intros Ha Hm. unfold arg3.
  destruct (xor_loop_ok a2 mask
              (range_step2 (Nat.min (length a2) (length mask))) [] Ha Hm)
    as (t & Ht & Hlen & Hlow).
  - apply Forall_forall. intros i Hi%range_step2_bound. lia.
  - exists t. rewrite Ht, Hlen, range_step2_length. done.
Qed.

Lemma chars_str (l : list ascii) : chars (str l) = l.
Proof. apply list_ascii_of_string_of_list_ascii. Qed.

Lemma length_str (l : list ascii) : String.length (str l) = length l.
Proof. induction l as [|c l IH]; simpl; [done|by rewrite IH]. Qed.

(** The token of a captured group: always produced, two lowercase
    hexadecimal digits for every pair of characters of [arg2]. *)
Lemma token_of_ok (arg1 : list ascii) :
  forallb is_upper_hex arg1 = true ->
  exists token, token_of arg1 = Ok token /\
    String.length token = (2 * ((Nat.min 40 (length arg1) + 1) / 2))%nat /\
    forallb is_lower_hex (chars token) = true.
Proof.
  intros Hhex. unfold token_of. rewrite mask_value.
  cbn [mbind result_bind bind].
  destruct (arg3_ok (arg2 arg1)
              (chars "3000176000856006061501533003690027800375"))
    as (t & -> & Hlen & Hlow); [by apply arg2_upper_hex|done|].
  cbn [mbind result_bind bind]. exists (str t). split; [done|].
  rewrite length_str, chars_str, Hlen, arg2_length. split; [|done].
  change (length (chars "3000176000856006061501533003690027800375")) with 40%nat.
  by replace (Nat.min (Nat.min 40 (length arg1)) 40) with
    (Nat.min 40 (length arg1)) by lia.
Qed.

(** The solver does not raise. *)
Lemma solve_acw_challenge_total (html : string) :
  exists o, solve_acw_challenge html = Ok o.
Proof.
  unfold solve_acw_challenge.
  destruct (re_search (chars html)) as [arg1|] eqn:Hs; [|by eexists].
  apply re_search_sound in Hs as (_ & Hhex & _).
  destruct (token_of_ok arg1 Hhex) as (token & -> & _). by eexists.
Qed.

(** *** The first occurrence *)

Lemma re_search_first (l arg1 : list ascii) :
  re_search l = Some arg1 -> exists pre, first_occurrence l pre arg1.
Proof.
  induction l as [|c l IH]; rewrite re_search_eq.
  - destruct (match_here []) eqn:Hm; [|done]. intros [= ->].
    apply match_here_sound in Hm as (? & ? & post & Hl).
    exists []. repeat split; [done..|by exists post|].
    intros. cbn. lia.
  - destruct (match_here (c :: l)) eqn:Hm.
    + intros [= ->].
      apply match_here_sound in Hm as (? & ? & post & Hl).
      exists []. repeat split; [done..|by exists post|].
      intros. cbn. lia.
    + intros H. destruct (IH H) as (pre & Hne & Hhex & [post ->] & Hmin).
      exists (c :: pre). repeat split; [done..|by exists post|].
      intros pre' hex' post' Hne' Hhex' Hl.
      destruct pre' as [|c' pre'].
      * rewrite app_nil_l in Hl. rewrite Hl, match_here_hit in Hm by done.
        discriminate Hm.
      * injection Hl as _ Hl. specialize (Hmin _ _ _ Hne' Hhex' Hl).
        cbn [length]. lia.
Qed.

(** *** The token in the words of the specification *)

Lemma arg2_permuted (arg1 : list ascii) : arg2 arg1 = permuted arg1.
Proof.
  unfold arg2, permuted. rewrite outPutList_eq.
  induction posList as [|p l IH]; [done|].
  cbn [fmap list_fmap concat omap list_omap]. rewrite IH. unfold slot.
  by destruct (arg1 !! (p - 1)%nat).
Qed.

Lemma pairs_length (l : list ascii) :
  length (pairs l) = Nat.div2 (S (length l)).
Proof.
  assert (forall n l, (length l <= n)%nat ->
            length (pairs l) = Nat.div2 (S (length l))) as H.
  { clear l. induction n as [|n IH]; intros l Hl.
    - destruct l; [done|cbn in Hl; lia].
    - destruct l as [|a [|b r]]; [done..|].
      cbn [pairs length]. rewrite IH by (cbn in Hl; lia). done. }
  by apply (H (length l)).
Qed.

Lemma pairs_lookup (l : list ascii) (k : nat) :
  pairs l !! k
  = if decide (2 * k < length l)%nat then Some (slice2 (2 * k) l) else None.
Proof.
  revert l. induction k as [|k IH]; intros l.
  - destruct l as [|a [|b r]]; cbn; try done.
  - destruct l as [|a [|b r]]; [done..|].
    cbn [pairs lookup list_lookup]. rewrite IH.
    replace (2 * S k)%nat with (S (S (2 * k))) by lia.
    cbn [length]. unfold slice2. cbn [drop].
    repeat case_decide; try done; lia.
Qed.

Lemma int16_pair_value (p : list ascii) :
  p <> [] -> forallb is_upper_hex p = true -> int16 p = Ok (pair_value p).
Proof.
  intros Hne Hp. unfold int16, pair_value.
  assert (forall acc,
            foldl (fun acc c =>
                     a ← acc;
                     match hex_value c with
                     | Some d => Ok (16 * a + d)%Z
                     | None => Raise ValueError
                     end) (Ok acc) p
            = Ok (foldl (fun acc c => 16 * acc + default 0 (hex_value c))%Z
                        acc p)) as H.
  { clear Hne. induction p as [|c p IH]; intros acc; [done|].
    cbn [forallb] in Hp. apply andb_true_iff in Hp as [Hc Hp].
    destruct (hex_value_upper c Hc) as (d & Hd & _).
    cbn [foldl mbind result_bind bind]. rewrite Hd.
    cbn [default from_option id]. by apply IH. }
  destruct p; [done|]. apply H.
Qed.

Lemma pair_value_byte (p : list ascii) :
  forallb is_upper_hex p = true -> (length p <= 2)%nat ->
  (0 <= pair_value p < 256)%Z.
Proof.
  intros Hp Hlen. unfold pair_value.
  destruct p as [|a [|b [|c r]]]; cbn in Hlen; [cbn; lia| | |lia].
  - cbn [forallb] in Hp. rewrite andb_true_r in Hp.
    destruct (hex_value_upper a Hp) as (d & Hd & ?).
    cbn [foldl]. rewrite Hd. cbn [default from_option id]. lia.
  - cbn [forallb] in Hp. rewrite andb_true_r in Hp.
    apply andb_true_iff in Hp as [Ha Hb].
    destruct (hex_value_upper a Ha) as (d & Hd & ?).
    destruct (hex_value_upper b Hb) as (e & He & ?).
    cbn [foldl]. rewrite Hd, He. cbn [default from_option id]. lia.
Qed.

Lemma two_digits_byte_text (z : Z) :
  (0 <= z < 256)%Z -> two_digits z = byte_text z.
Proof.
  intros Hz.
  assert (Forall (fun n => two_digits (Z.of_nat n) = byte_text (Z.of_nat n))
                 (seq 0 256)) as Hall.
  { apply (bool_decide_unpack _). by vm_compute. }
  rewrite Forall_forall in Hall.
  rewrite <- (Z2Nat.id z) by lia. apply Hall.
  apply elem_of_seq. lia.
Qed.

Lemma slice2_upper_hex (l : list ascii) (i : nat) :
  forallb is_upper_hex l = true -> (i < length l)%nat ->
  slice2 i l <> [] /\ forallb is_upper_hex (slice2 i l) = true /\
  (length (slice2 i l) <= 2)%nat.
Proof.
  intros Hl Hi. unfold slice2. split; [|split].
  - destruct (drop i l) eqn:E; [|done].
    apply (f_equal length) in E. rewrite length_drop in E. cbn in E. lia.
  - rewrite forallb_forall in *. intros c Hc. apply Hl.
    apply list_elem_of_In. apply list_elem_of_In in Hc.
    apply elem_of_take in Hc as (j & Hj & _). rewrite lookup_drop in Hj.
    by eapply list_elem_of_lookup_2.
  - rewrite length_take. lia.
Qed.

(** One round of the XOR loop. *)
Lemma xor_chars_value (a2 mask : list ascii) (i : nat) :
  forallb is_upper_hex a2 = true -> forallb is_upper_hex mask = true ->
  (i < length a2)%nat -> (i < length mask)%nat ->
  xor_chars a2 mask i
  = Ok (byte_text (Z.lxor (pair_value (slice2 i a2))
                          (pair_value (slice2 i mask)))).
Proof.
  intros Ha Hm Hia Him. unfold xor_chars.
  destruct (slice2_upper_hex a2 i Ha Hia) as (Hne & Hhex & Hlen).
  destruct (slice2_upper_hex mask i Hm Him) as (Hne' & Hhex' & Hlen').
  rewrite !int16_pair_value by done. cbn [mbind result_bind bind].
  rewrite two_digits_byte_text; [done|].
  apply lxor_byte; by apply pair_value_byte.
Qed.

Lemma xor_loop_value (a2 mask : list ascii) (idx : list nat) (acc : list ascii) :
  forallb is_upper_hex a2 = true -> forallb is_upper_hex mask = true ->
  Forall (fun i => (i < length a2)%nat /\ (i < length mask)%nat) idx ->
  foldl (fun acc i => a ← acc; x ← xor_chars a2 mask i; Ok (a ++ x))
        (Ok acc) idx
  = Ok (acc ++ concat (map (fun i => byte_text
                                       (Z.lxor (pair_value (slice2 i a2))
                                               (pair_value (slice2 i mask))))
                           idx)).
Proof.
  intros Ha Hm Hidx. revert acc.
  induction Hidx as [|i idx [Hia Him] _ IH]; intros acc.
  - cbn. by rewrite app_nil_r.
  - cbn [foldl map concat mbind result_bind bind].
    rewrite (xor_chars_value a2 mask i Ha Hm Hia Him).
    cbn [mbind result_bind bind]. rewrite IH. by rewrite <- app_assoc.
Qed.

(** The XOR loop takes the two texts pair by pair. *)
Lemma arg3_pairs (a2 mask : list ascii) :
  forallb is_upper_hex a2 = true -> forallb is_upper_hex mask = true ->
  arg3 a2 mask
  = Ok (concat (zip_with
                  (fun p m => byte_text (Z.lxor (pair_value p) (pair_value m)))
                  (pairs a2) (pairs mask))).
Proof.
  intros Ha Hm. unfold arg3.
  rewrite (xor_loop_value a2 mask _ [] Ha Hm).
  2:{ apply Forall_forall. intros i Hi%range_step2_bound. lia. }
  cbn [app]. do 2 f_equal. apply list_eq. intros k.
  unfold range_step2. rewrite list_lookup_fmap, list_lookup_fmap.
  rewrite lookup_zip_with, !pairs_lookup.
  set (m := Nat.min (length a2) (length mask)).
  pose proof (Nat.div_mod_eq (S m) 2) as Hdiv.
  pose proof (Nat.mod_upper_bound (S m) 2) as Hmod.
  destruct (decide (k < Nat.div2 (S m))%nat) as [Hk|Hk];
    rewrite Nat.div2_div in Hk.
  - rewrite lookup_seq_lt by (rewrite Nat.div2_div; exact Hk).
    cbn [fmap option_fmap option_map Nat.add].
    rewrite !decide_True by (subst m; lia). done.
  - rewrite lookup_seq_ge by (rewrite Nat.div2_div; lia).
    cbn [fmap option_fmap option_map].
    destruct (decide (2 * k < length a2)%nat); [|done].
    cbn [mbind option_bind]. rewrite decide_False by (subst m; lia). done.
Qed.

Lemma token_of_spec (arg1 : list ascii) :
  forallb is_upper_hex arg1 = true -> token_of arg1 = Ok (spec_token arg1).
Proof.
  intros Hhex. unfold token_of, spec_token. rewrite mask_value.
  cbn [mbind result_bind bind].
  rewrite arg3_pairs; [|by apply arg2_upper_hex|done].
  cbn [mbind result_bind bind]. by rewrite arg2_permuted.
Qed.

(** C1.  For an HTML text containing [var arg1='<HEX>'] the solver returns
    a token computed from the group captured at the first occurrence and
    nothing else of the page: the 40 entries of the table, a permutation
    of 1..40, rearrange the group; the result and the base64-decoded
    mask are read pair by pair, and every pair of the one XORed with the
    pair of the other is written as two lowercase hexadecimal digits
    ([spec_token]).  The token is made of lowercase hexadecimal digits,
    two for every pair of characters of the rearranged group, hence 40
    of them for a group of 40.  For a text with no such occurrence the
    solver returns [None].  The solver never raises. *)
Theorem solve_acw_challenge_spec (html : string) :
  (forall hex, occurs (chars html) hex ->
     exists pre arg1,
       first_occurrence (chars html) pre arg1 /\
       re_search (chars html) = Some arg1 /\
       token_of arg1 = Ok (spec_token arg1) /\
       solve_acw_challenge html = Ok (Some (spec_token arg1)) /\
       forallb is_lower_hex (chars (spec_token arg1)) = true /\
       String.length (spec_token arg1)
       = (2 * ((Nat.min 40 (length arg1) + 1) / 2))%nat /\
       (length arg1 = 40%nat -> String.length (spec_token arg1) = 40%nat)) /\
  ((forall hex, ~ occurs (chars html) hex) ->
     solve_acw_challenge html = Ok None) /\
  posList ≡ₚ seq 1 40 /\
  b64decode (chars mask_b64) = Ok mask_text.
Proof.
  split; [|split; [|split; [apply posList_perm|apply mask_value]]].
  - intros hex Hocc.
    destruct (re_search_complete _ _ Hocc) as [arg1 Hs].
    destruct (re_search_first _ _ Hs) as [pre Hfirst].
    pose proof Hfirst as (_ & Hhex & _).
    destruct (token_of_ok arg1 Hhex) as (token & Htok & Hlen & Hlow).
    pose proof (token_of_spec arg1 Hhex) as Hspec.
    assert (token = spec_token arg1) as -> by congruence.
    exists pre, arg1. unfold solve_acw_challenge. rewrite Hs, Htok.
    repeat split; try done; try apply Hfirst.
    intros H40. rewrite Hlen, H40. reflexivity.
  - intros Hno. unfold solve_acw_challenge.
    by rewrite (proj2 (re_search_None _) Hno).
Qed.

(** The vector of scenario S1; the same group followed by four more
    characters, which the table does not reach; a group of three
    characters, whose last character is read alone; and a page without
    the pattern. *)
Lemma solve_acw_challenge_spec_witness :
  solve_acw_challenge
    "<script>var arg1='3000176000856006061501533003690027800375';</script>"
  = Ok (Some "3863315300953013306d77033003606026837325") /\
  solve_acw_challenge
    "<script>var arg1='3000176000856006061501533003690027800375ABCD';</script>"
  = Ok (Some "3863315300953013306d77033003606026837325") /\
  solve_acw_challenge "<p>var arg1='ABC';</p>" = Ok (Some "9b0c") /\
  solve_acw_challenge "<html>var arg1='';</html>" = Ok None.
Proof.
  assert (forall html pre hex post token,
            chars html = pre ++ arg1_prefix ++ hex ++ "'"%char :: post ->
            hex <> [] -> forallb is_upper_hex hex = true ->
            (forall arg1, re_search (chars html) = Some arg1 ->
                          spec_token arg1 = token) ->
            solve_acw_challenge html = Ok (Some token)) as Hvector.
  { intros html pre hex post token Hl Hne Hhex Htoken.
    destruct (solve_acw_challenge_spec html) as [Hsome _].
    destruct (Hsome hex) as (pre' & arg1 & _ & Hs & _ & -> & _).
    - split; [done|]. split; [done|]. by exists pre, post.
    - by rewrite (Htoken _ Hs). }
  split; [|split; [|split]].
  - apply (Hvector _ (chars "<script>")
             (chars "3000176000856006061501533003690027800375")
             (chars ";</script>")); [reflexivity|done|reflexivity|].
    intros arg1 Hs. vm_compute in Hs. injection Hs as <-. by vm_compute.
  - apply (Hvector _ (chars "<script>")
             (chars "3000176000856006061501533003690027800375ABCD")
             (chars ";</script>")); [reflexivity|done|reflexivity|].
    intros arg1 Hs. vm_compute in Hs. injection Hs as <-. by vm_compute.
  - apply (Hvector _ (chars "<p>") (chars "ABC") (chars ";</p>"));
      [reflexivity|done|reflexivity|].
    intros arg1 Hs. vm_compute in Hs. injection Hs as <-. by vm_compute.
  - destruct (solve_acw_challenge_spec "<html>var arg1='';</html>")
      as (_ & Hnone & _).
    apply Hnone. apply re_search_None. reflexivity.
Defined.

End SolverFacts.

(** ** [sorted] *)

Module SortedFacts.


Section Sorted.
Context {A K : Type} (leb : K -> K -> bool) (f : A -> K).
Hypothesis leb_total : forall a b, leb a b = true \/ leb b a = true.
Hypothesis leb_trans :
  forall a b c, leb a b = true -> leb b c = true -> leb a c = true.

Abbreviation le_key := (fun x y : A => leb (f x) (f y) = true).

Lemma insert_sorted_perm (x : A) (l : list A) :
  insert_sorted leb f x l ≡ₚ x :: l.
Proof.
  induction l as [|y l IH]; cbn [insert_sorted]; [done|].
  destruct (leb (f x) (f y)); [done|].
  rewrite IH. apply Permutation_swap.
Qed.

Lemma sorted_perm (l : list A) : sorted leb f l ≡ₚ l.
Proof.
  induction l as [|x l IH]; [done|].
  cbn [sorted foldr]. fold (sorted leb f l).
  by rewrite insert_sorted_perm, IH.
Qed.




End Sorted.


End SortedFacts.

(** ** Key fingerprints *)

Module KeyIdFacts.
Import Cooldown.

Example sha256_abc :
  Sha256.hexdigest "abc"
  = "ba7816bf8f01cfea414140de5dae2223b00361a396177a9cb410ff61f20015ad".
Proof. by vm_compute. Qed.

Example sha256_empty :
  Sha256.hexdigest ""
  = "e3b0c44298fc1c149afbf4c8996fb92427ae41e4649b934ca495991b7852b855".
Proof. by vm_compute. Qed.

Example sha256_two_blocks :
  Sha256.hexdigest "abcdbcdecdefdefgefghfghighijhijkijkljklmklmnlmnomnopnopq"
  = "248d6a61d20638b8e5c026930c3e6039a33ce45964ff2167f6ecedd419db06c1".
Proof. by vm_compute. Qed.

Lemma hex_digit_lower (d : Z) :
  (0 <= d < 16)%Z -> is_lower_hex (hex_digit d) = true.
Proof.
  intros Hd.
  assert (Forall (fun n => is_lower_hex (hex_digit (Z.of_nat n)) = true)
                 (seq 0 16)) as Hall.
  { apply (bool_decide_unpack _). by vm_compute. }
  rewrite Forall_forall in Hall. rewrite <- (Z2Nat.id d) by lia.
  apply Hall, elem_of_seq. lia.
Qed.

Lemma hex8_length (x : Z) : length (Sha256.hex8 x) = 8%nat.
Proof. reflexivity. Qed.

Lemma hex8_lower (x : Z) : forallb is_lower_hex (Sha256.hex8 x) = true.
Proof.
  unfold Sha256.hex8. apply forallb_forall. intros c Hc.
  apply in_map_iff in Hc as (k & <- & _).
  apply hex_digit_lower, Z.mod_pos_bound. lia.
Qed.

Lemma hexdigest_chars (s : string) :
  length (chars (Sha256.hexdigest s)) = 64%nat /\
  forallb is_lower_hex (chars (Sha256.hexdigest s)) = true.
Proof.
  unfold Sha256.hexdigest. rewrite SolverFacts.chars_str. split.
  - rewrite !length_app, !hex8_length. reflexivity.
  - rewrite !forallb_app, !hex8_lower. reflexivity.
Qed.

(** [_key_id(key)] always has the form [[0-9a-f]{16}]. *)
Lemma key_id_form (key : string) : is_key_id (_key_id key) = true.
Proof.
  destruct (hexdigest_chars key) as [Hlen Hlow].
  unfold is_key_id, _key_id. rewrite SolverFacts.chars_str.
  apply andb_true_iff. split.
  - apply Nat.eqb_eq. rewrite length_take. lia.
  - rewrite forallb_forall in *. intros c Hc. apply Hlow.
    apply list_elem_of_In. apply list_elem_of_In in Hc.
    apply elem_of_take in Hc as (i & Hi & _).
    by eapply list_elem_of_lookup_2.
Qed.

Lemma key_id_not_empty (key : string) : _key_id key <> "".
Proof.
  intros H. pose proof (key_id_form key) as Hf. rewrite H in Hf. done.
Qed.

Section Config.
Variable CANDIDATE_API_KEYS : list string.

Lemma KEY_ID_BY_KEY_lookup (key kid : string) :
  KEY_ID_BY_KEY CANDIDATE_API_KEYS !! key = Some kid -> kid = _key_id key.
Proof.
  unfold KEY_ID_BY_KEY. intros H.
  apply elem_of_list_to_map_2 in H.
  apply list_elem_of_fmap in H as (k & [= -> ->] & _). done.
Qed.

(** [KEY_ID_BY_KEY.get(key) or _key_id(key)] is [_key_id(key)]. *)
Lemma kid_of_eq (key : string) :
  kid_of CANDIDATE_API_KEYS key = _key_id key.
Proof.
  unfold kid_of.
  destruct (KEY_ID_BY_KEY _ !! key) as [kid|] eqn:Hk; [|done].
  apply KEY_ID_BY_KEY_lookup in Hk as ->.
  destruct (String.eqb_spec (_key_id key) ""); [|done].
  by destruct (key_id_not_empty key).
Qed.

Lemma kid_of_form (key : string) :
  is_key_id (kid_of CANDIDATE_API_KEYS key) = true.
Proof. rewrite kid_of_eq. apply key_id_form. Qed.
End Config.

End KeyIdFacts.

(** ** The cooldown store and the pending buffer *)

Module CooldownFacts.
Import Cooldown KeyIdFacts Samples.

Lemma Qle_bool_false (x y : Q) : (y < x)%Q -> Qle_bool x y = false.
Proof.
  intros H. destruct (Qle_bool x y) eqn:E; [|done].
  apply Qle_bool_iff in E. by apply Qlt_not_le in H.
Qed.

Lemma Qle_bool_true (x y : Q) : (x <= y)%Q -> Qle_bool x y = true.
Proof. apply Qle_bool_iff. Qed.

Lemma mark_lookup (v : json) (l : list string) (m : gmap string json)
    (kid : string) :
  foldl (fun m kid => <[kid := v]> m) m l !! kid =
  if bool_decide (kid ∈ l) then Some v else m !! kid.
Proof.
  revert m. induction l as [|x l IH]; intros m; [done|].
  cbn [foldl]. rewrite IH.
  destruct (decide (kid = x)) as [->|Hne].
  - rewrite lookup_insert_eq, (bool_decide_true (x ∈ x :: l)) by left.
    by case_bool_decide.
  - rewrite lookup_insert_ne by done.
    destruct (bool_decide (kid ∈ l)) eqn:E.
    + apply bool_decide_eq_true in E.
      by rewrite bool_decide_true by (by right).
    + apply bool_decide_eq_false in E.
      rewrite bool_decide_false; [done|].
      intros [?|?]%elem_of_cons; done.
Qed.

Section Config.
Variable CANDIDATE_API_KEYS : list string.
Abbreviation kid_of := (kid_of CANDIDATE_API_KEYS).
Abbreviation is_key_in_cooldown := (is_key_in_cooldown CANDIDATE_API_KEYS).
Abbreviation add_pending_cooldown := (add_pending_cooldown CANDIDATE_API_KEYS).

(** C9.  A cooldown record whose expiry is not after the current time
    is treated as absent and removed by the access: for a URL and for a
    key alike the test answers [False] and the entry is deleted from the
    map (for a key the deletion is also saved), so that the map has no
    record of it any more. *)
Theorem expired_record_is_removed (now : Q) (g : globals) :
  (forall url until,
      url_cooldown_until g !! url = Some until -> (until <= now)%Q ->
      let g' := set_url_cooldown_until (delete url (url_cooldown_until g)) g in
      is_url_in_cooldown url now g = (false, g') /\
      url_cooldown_until g' !! url = None /\
      is_url_in_cooldown url now g' = (false, g')) /\
  (forall key v until,
      key_cooldown_until g !! kid_of key = Some v ->
      num_of v = Some until -> (until <= now)%Q ->
      let g' := save_cooldowns
                  (set_key_cooldown_until
                     (delete (kid_of key) (key_cooldown_until g)) g) in
      is_key_in_cooldown key now g = Ok (false, g') /\
      key_cooldown_until g' !! kid_of key = None /\
      is_key_in_cooldown key now g' = Ok (false, g')).
Proof.
  split.
  - intros url until Hu Hle g'. unfold is_url_in_cooldown.
    rewrite Hu, (Qle_bool_true _ _ Hle). subst g'. cbn.
    by rewrite lookup_delete_eq.
  - intros key v until Hk Hv Hle g'. unfold is_key_in_cooldown.
    rewrite Hk. unfold float_ge. rewrite Hv, (Qle_bool_true _ _ Hle).
    subst g'. cbn. by rewrite lookup_delete_eq.
Qed.

(** C4.  After [add_pending_cooldown(u, k)], [confirm_cooldown_for_url(u)]
    gives every KeyId pending on [u] a cooldown that ends 72 hours
    later, empties the list of [u] and saves; [is_key_in_cooldown(k)]
    is then true for as long as the 72 hours last.
    [clear_pending_cooldown(u)] instead empties the list and touches
    neither the key cooldowns nor the file, so a key that was not in
    cooldown is still not. *)
Theorem confirm_sets_cooldown_clear_does_not
    (url key : string) (g : globals) (now later : Q) :
  let pending := add_pending_cooldown url key g in
  let confirmed := confirm_cooldown_for_url url now pending in
  let cleared := clear_pending_cooldown url pending in
  ((later < cooldown_end now KEY_COOLDOWN_HOURS)%Q ->
     is_key_in_cooldown key later confirmed = Ok (true, confirmed)) /\
  (forall kid, kid ∈ default [] (pending_cooldown_keys pending !! url) ->
     key_cooldown_until confirmed !! kid
     = Some (JFloat (cooldown_end now KEY_COOLDOWN_HOURS))) /\
  kid_of key ∈ default [] (pending_cooldown_keys pending !! url) /\
  pending_cooldown_keys confirmed !! url = Some [] /\
  cooldown_file confirmed
  = Some (Document COOLDOWN_SCHEMA_VERSION (key_cooldown_until confirmed)
            (url_cooldown_until confirmed)) /\
  key_cooldown_until cleared = key_cooldown_until g /\
  cooldown_file cleared = cooldown_file g /\
  pending_cooldown_keys cleared !! url = Some [] /\
  (forall g', is_key_in_cooldown key later g = Ok (false, g') ->
     exists g'', is_key_in_cooldown key later cleared = Ok (false, g'')).
Proof.
  intros pending confirmed cleared.
  set (old := default [] (pending_cooldown_keys g !! url)).
  set (new := if bool_decide (kid_of key ∈ old) then old
              else old ++ [kid_of key]).
  assert (pending_cooldown_keys pending !! url = Some new) as Hp.
  { subst pending. unfold add_pending_cooldown. cbn. by rewrite lookup_insert_eq. }
  assert (kid_of key ∈ new) as Hin.
  { subst new. case_bool_decide; [done|]. apply elem_of_app. right. by left. }
  assert (exists x l, new = x :: l) as (x & l & Hnew).
  { destruct new; [by apply elem_of_nil in Hin|eauto]. }
  assert (forall kid, kid ∈ new ->
            key_cooldown_until confirmed !! kid
            = Some (JFloat (cooldown_end now KEY_COOLDOWN_HOURS))) as Hmark.
  { intros kid Hkid. subst confirmed. unfold confirm_cooldown_for_url.
    rewrite Hp, Hnew. cbn -[foldl]. rewrite <- Hnew.
    change (key_cooldown_until pending) with (key_cooldown_until g).
    by rewrite mark_lookup, bool_decide_true. }
  split; [|split; [|split; [|split; [|split; [|split; [|split; [|split]]]]]]].
  - intros Hlater. unfold is_key_in_cooldown at 1.
    rewrite (Hmark _ Hin). unfold float_ge. cbn [num_of].
    by rewrite (Qle_bool_false _ _ Hlater).
  - intros kid. rewrite Hp. apply Hmark.
  - by rewrite Hp.
  - subst confirmed. unfold confirm_cooldown_for_url. rewrite Hp, Hnew.
    cbn. by rewrite lookup_insert_eq.
  - subst confirmed. unfold confirm_cooldown_for_url. by rewrite Hp, Hnew.
  - subst cleared. unfold clear_pending_cooldown. by rewrite Hp.
  - subst cleared. unfold clear_pending_cooldown. by rewrite Hp.
  - subst cleared. unfold clear_pending_cooldown. rewrite Hp. cbn.
    by rewrite lookup_insert_eq.
  - intros g' Hg. unfold is_key_in_cooldown in *.
    assert (key_cooldown_until cleared = key_cooldown_until g) as ->.
    { subst cleared. unfold clear_pending_cooldown. by rewrite Hp. }
    destruct (key_cooldown_until g !! kid_of key) as [v|]; [|eauto].
    destruct (float_ge later v) as [[]|]; cbn in *; [eauto|done..].
Qed.
End Config.

Lemma expired_record_is_removed_witness :
  is_url_in_cooldown "https://a.example" 10
    (set_url_cooldown_until {["https://a.example" := 10%Q]} no_globals)
  = (false, no_globals) /\
  is_key_in_cooldown ["sk-1"] "sk-1" 10
    (set_key_cooldown_until {[_key_id "sk-1" := JFloat 7]} no_globals)
  = Ok (false, save_cooldowns no_globals).
Proof.
  split.
  - destruct (expired_record_is_removed ["sk-1"] 10
                (set_url_cooldown_until {["https://a.example" := 10%Q]}
                   no_globals)) as [Hu _].
    destruct (Hu "https://a.example" 10%Q) as (Heq & _).
    + apply lookup_singleton_eq.
    + apply Qle_refl.
    + rewrite Heq. unfold no_globals, set_url_cooldown_until.
      cbn [key_cooldown_until url_cooldown_until pending_cooldown_keys
           key_usage_count nonessential_traffic_disabled cooldown_file].
      rewrite delete_singleton_eq. reflexivity.
  - destruct (expired_record_is_removed ["sk-1"] 10
                (set_key_cooldown_until {[_key_id "sk-1" := JFloat 7]}
                   no_globals)) as [_ Hk].
    destruct (Hk "sk-1" (JFloat 7) 7%Q) as (Heq & _).
    + rewrite kid_of_eq. apply lookup_singleton_eq.
    + reflexivity.
    + by apply Qle_bool_iff.
    + rewrite Heq, kid_of_eq. generalize (_key_id "sk-1"). intros kid.
      unfold no_globals, set_key_cooldown_until, save_cooldowns.
      cbn [key_cooldown_until url_cooldown_until pending_cooldown_keys
           key_usage_count nonessential_traffic_disabled cooldown_file].
      rewrite delete_singleton_eq. reflexivity.
Defined.

Lemma confirm_sets_cooldown_clear_does_not_witness :
  let pending := add_pending_cooldown ["sk-1"] "https://a.example" "sk-1" no_globals in
  is_key_in_cooldown ["sk-1"] "sk-1" 3600
    (confirm_cooldown_for_url "https://a.example" 0 pending)
  = Ok (true, confirm_cooldown_for_url "https://a.example" 0 pending) /\
  is_key_in_cooldown ["sk-1"] "sk-1" 3600
    (clear_pending_cooldown "https://a.example" pending)
  = Ok (false, clear_pending_cooldown "https://a.example" pending).
Proof.
  intros pending.
  destruct (confirm_sets_cooldown_clear_does_not ["sk-1"] "https://a.example"
              "sk-1" no_globals 0 3600)
    as (Hconfirm & _ & _ & _ & _ & Hkeys & _ & _ & Hclear).
  split.
  - apply Hconfirm. reflexivity.
  - destruct (Hclear no_globals) as [g'' Hg]; [reflexivity|].
    fold pending in Hg, Hkeys. unfold is_key_in_cooldown in *.
    rewrite Hkeys in *. cbn in *. by rewrite lookup_empty in *.
Defined.

End CooldownFacts.
(** ** The order of the keys *)

Module KeyOrderFacts.
Import Cooldown KeyIdFacts CooldownFacts SortedFacts Samples.



Lemma Qleb_total (a b : Q) : Qle_bool a b = true \/ Qle_bool b a = true.
Proof.
  rewrite !Qle_bool_iff. destruct (Qlt_le_dec a b) as [H|H]; [left|by right].
  by apply Qlt_le_weak.
Qed.

Lemma Qleb_trans (a b c : Q) :
  Qle_bool a b = true -> Qle_bool b c = true -> Qle_bool a c = true.
Proof. rewrite !Qle_bool_iff. apply Qle_trans. Qed.



Section Config.
Variable CANDIDATE_API_KEYS : list string.
Abbreviation kid_of := (kid_of CANDIDATE_API_KEYS).
Abbreviation cooling := (cooling CANDIDATE_API_KEYS).
Abbreviation is_key_in_cooldown := (is_key_in_cooldown CANDIDATE_API_KEYS).
Abbreviation keys_not_in_cooldown := (keys_not_in_cooldown CANDIDATE_API_KEYS).
Abbreviation expiry_of := (expiry_of CANDIDATE_API_KEYS).

Lemma pruned_refl (now : Q) (g : globals) : pruned now g g.
Proof. repeat split; try done. intros kid v H1 H2. congruence. Qed.

Lemma is_key_in_cooldown_numeric (now : Q) (g g' : globals) (k : string) :
  (forall v, key_cooldown_until g !! kid_of k = Some v -> is_Some (num_of v)) ->
  pruned now g g' ->
  exists g'', is_key_in_cooldown k now g' = Ok (cooling g now k, g'') /\
              pruned now g g''.
Proof.
  intros Hts (Hsub & Hdel & Hu & Hp & Hc & Hn).
  unfold is_key_in_cooldown, Cooldown.cooling.
  destruct (key_cooldown_until g' !! kid_of k) as [v|] eqn:Hk'.
  - pose proof (lookup_weaken _ _ _ _ Hk' Hsub) as Hk. rewrite Hk.
    destruct (Hts _ Hk) as [q Hq]. unfold float_ge, is_live. rewrite Hq.
    cbn [mbind result_bind bind].
    destruct (Qle_bool q now) eqn:Hexp; cbn [negb].
    + eexists. split; [done|]. repeat split; cbn; try done.
      * etrans; [apply delete_subseteq|done].
      * intros kid w Hw Hnone.
        destruct (decide (kid = kid_of k)) as [->|Hne].
        -- assert (w = v) as -> by congruence.
           unfold is_live. by rewrite Hq, Hexp.
        -- rewrite lookup_delete_ne in Hnone by done. by eapply Hdel.
    + exists g'. by repeat split.
  - destruct (key_cooldown_until g !! kid_of k) as [v|] eqn:Hk.
    + rewrite (Hdel _ _ Hk Hk'). exists g'. by repeat split.
    + exists g'. by repeat split.
Qed.

Lemma is_key_in_cooldown_pruned (now : Q) (g g' : globals) (k : string) :
  timestamps g -> pruned now g g' ->
  exists g'', is_key_in_cooldown k now g' = Ok (cooling g now k, g'') /\
              pruned now g g''.
Proof.
  intros Hts. apply is_key_in_cooldown_numeric. intros v Hv. exact (Hts _ _ Hv).
Qed.

Lemma keys_not_in_cooldown_numeric (now : Q) (g : globals) (keys : list string) :
  (forall k v, k ∈ keys -> key_cooldown_until g !! kid_of k = Some v ->
               is_Some (num_of v)) ->
  forall g', pruned now g g' ->
  exists g'',
    keys_not_in_cooldown keys now g'
    = Ok (List.filter (fun k => negb (cooling g now k)) keys, g'') /\
    pruned now g g''.
Proof.
  induction keys as [|k keys IH]; intros Hts g' Hpr.
  - exists g'. by split.
  - cbn [Cooldown.keys_not_in_cooldown List.filter].
    destruct (is_key_in_cooldown_numeric now g g' k) as (g1 & -> & Hpr1);
      [intros v; apply Hts; by left|done|].
    cbn [mbind result_bind bind].
    destruct (IH (fun k0 v Hk0 => Hts k0 v (list_elem_of_further _ _ _ Hk0))
                 g1 Hpr1) as (g2 & -> & Hpr2).
    cbn [mbind result_bind bind]. exists g2. split; [|done].
    by destruct (cooling g now k).
Qed.

Lemma keys_not_in_cooldown_spec (now : Q) (g : globals) (keys : list string) :
  timestamps g -> forall g', pruned now g g' ->
  exists g'',
    keys_not_in_cooldown keys now g'
    = Ok (List.filter (fun k => negb (cooling g now k)) keys, g'') /\
    pruned now g g''.
Proof.
  intros Hts. apply keys_not_in_cooldown_numeric.
  intros k v _ Hv. exact (Hts _ _ Hv).
Qed.


End Config.



Example all_keys_cooling_are_ordered_by_expiry :
  exists g',
    get_keys_sorted_by_usage ["sk-1"; "sk-2"] 50
      (Globals (<[_key_id "sk-1" := JFloat 300]> {[_key_id "sk-2" := JInt 200]})
               ∅ ∅ ∅ false None)
    = Ok (["sk-2"; "sk-1"], g').
Proof. eexists. vm_compute. reflexivity. Qed.

End KeyOrderFacts.

(** ** The retry loops *)

Module EngineFacts.
Import Cooldown Engine.

Section Engine.
Variable json_loads : string -> option json.
Variable CANDIDATE_URLS : list string.
Variable CANDIDATE_API_KEYS : list string.
Variable upstream : nat -> event.
Variable now : Q.
Variable world : waf_world.

Abbreviation attempt_body :=
  (attempt_body json_loads CANDIDATE_API_KEYS upstream now world).
Abbreviation for_attempts :=
  (for_attempts json_loads CANDIDATE_API_KEYS upstream now world).
Abbreviation key_body :=
  (key_body json_loads CANDIDATE_API_KEYS upstream now world).
Abbreviation for_keys :=
  (for_keys json_loads CANDIDATE_API_KEYS upstream now world).
Abbreviation for_urls :=
  (for_urls json_loads CANDIDATE_API_KEYS upstream now world).
Abbreviation failover :=
  (failover json_loads CANDIDATE_URLS CANDIDATE_API_KEYS upstream now world).
Abbreviation on_failure := (on_failure json_loads CANDIDATE_API_KEYS).
Abbreviation on_auth_error := (on_auth_error CANDIDATE_API_KEYS).
Abbreviation after_probe := (after_probe json_loads now).
Abbreviation before_attempt := (before_attempt world).
Abbreviation begin_url := (begin_url world).
Abbreviation after_failed_answer := (after_failed_answer world).

Ltac unfold_attempt :=
  unfold Engine.attempt_body, Engine.on_success, Engine.on_request_error,
    Engine.on_failure, Engine.after_probe, Engine.on_auth_error, retry_or,
    with_glob, with_ctx, with_cache, add_error, add_request.

(** *** The calls of [fetch_waf_cookie] touch the cache only *)

Lemma before_attempt_glob url attempt s :
  glob (before_attempt url attempt s) = glob s.
Proof. unfold Engine.before_attempt. by destruct (1 <? attempt)%nat. Qed.

Lemma before_attempt_ctx url attempt s :
  ctx (before_attempt url attempt s) = ctx s.
Proof. unfold Engine.before_attempt. by destruct (1 <? attempt)%nat. Qed.

Lemma before_attempt_errors url attempt s :
  all_errors (before_attempt url attempt s) = all_errors s.
Proof. unfold Engine.before_attempt. by destruct (1 <? attempt)%nat. Qed.

Lemma before_attempt_sent url attempt s :
  sent (before_attempt url attempt s) = sent s.
Proof. unfold Engine.before_attempt. by destruct (1 <? attempt)%nat. Qed.

Lemma begin_url_glob url s : glob (begin_url url s) = glob s.
Proof. unfold Engine.begin_url. by destruct (waf_host url). Qed.

Lemma begin_url_ctx url s : ctx (begin_url url s) = ctx s.
Proof. unfold Engine.begin_url. by destruct (waf_host url). Qed.

Lemma begin_url_errors url s : all_errors (begin_url url s) = all_errors s.
Proof. unfold Engine.begin_url. by destruct (waf_host url). Qed.

Lemma begin_url_sent url s : sent (begin_url url s) = sent s.
Proof. unfold Engine.begin_url. by destruct (waf_host url). Qed.

Ltac frame :=
  rewrite ?before_attempt_glob, ?before_attempt_ctx, ?before_attempt_errors,
    ?before_attempt_sent, ?begin_url_glob, ?begin_url_ctx, ?begin_url_errors,
    ?begin_url_sent.

(** *** The globals change only through four operations *)

Section Globals.
Variable P : globals -> Prop.
Hypothesis P_pending :
  forall url key g, P g -> P (add_pending_cooldown CANDIDATE_API_KEYS url key g).
Hypothesis P_confirm : forall url g, P g -> P (confirm_cooldown_for_url url now g).
Hypothesis P_usage : forall key g, P g -> P (increment_key_usage key g).
Hypothesis P_latch : forall g, P g -> P (set_nonessential_traffic_disabled true g).

Lemma on_request_error_globals url key is_probe attempt s :
  P (glob s) ->
  P (glob (snd (on_request_error url key is_probe attempt s))).
Proof.
  intros HP. unfold Engine.on_request_error, retry_or.
  by case_match.
Qed.

Lemma on_failure_globals url key is_probe attempt r s :
  P (glob s) -> P (glob (snd (on_failure url key is_probe attempt r s))).
Proof.
  intros HP.
  unfold Engine.on_failure, Engine.on_auth_error, retry_or, with_glob,
    with_ctx, with_cache, add_error.
  repeat (case_match; cbn [glob snd fst]); auto.
Qed.

Lemma on_success_globals url key is_probe attempt r s :
  P (glob s) ->
  P (glob (snd (on_success json_loads upstream now url key is_probe attempt
                  r s))).
Proof.
  intros HP.
  unfold Engine.on_success, Engine.on_request_error, Engine.after_probe,
    retry_or, with_glob, with_ctx, add_error, add_request.
  repeat (case_match; cbn [glob snd fst]); auto.
Qed.

Lemma attempt_body_globals url key is_probe body attempt s :
  P (glob s) -> P (glob (snd (attempt_body url key is_probe body attempt s))).
Proof.
  intros HP. unfold Engine.attempt_body. cbn zeta.
  set (s1 := add_request _ _).
  assert (P (glob s1)) as H1 by (subst s1; cbn [glob add_request]; by frame).
  repeat case_match;
    auto using on_request_error_globals, on_failure_globals,
      on_success_globals.
Qed.

Lemma for_attempts_globals url key is_probe body attempts s :
  P (glob s) -> P (glob (snd (for_attempts url key is_probe body attempts s))).
Proof.
  revert s. induction attempts as [|a rest IH]; intros s HP; [done|].
  cbn [Engine.for_attempts].
  pose proof (attempt_body_globals url key is_probe body a s HP) as H.
  destruct (attempt_body url key is_probe body a s) as [[| |r] s']; cbn in *;
    auto.
Qed.

Lemma for_keys_globals k0 keys s :
  P (glob s) -> P (glob (snd (for_keys k0 keys s))).
Proof.
  revert s. induction keys as [|k rest IH]; intros s HP; [done|].
  cbn [Engine.for_keys]. unfold Engine.key_body.
  set (s1 := with_glob (increment_key_usage k) s).
  assert (P (glob s1)) as H1 by (apply P_usage, HP).
  pose proof (for_attempts_globals k0 k (should_use_probe (ctx s))
                (get_request_body (ctx s)) attempt_range s1 H1) as H.
  destruct (for_attempts k0 k _ _ attempt_range s1) as [[r|] s']; cbn in *;
    auto.
Qed.

Lemma for_urls_globals urls keys s :
  P (glob s) -> P (glob (snd (for_urls urls keys s))).
Proof.
  revert s. induction urls as [|u rest IH]; intros s HP; [done|].
  cbn [Engine.for_urls].
  assert (P (glob (begin_url u s))) as HP' by (by frame).
  pose proof (for_keys_globals u keys (begin_url u s) HP') as H.
  destruct (for_keys u keys (begin_url u s)) as [[r|] s']; cbn in *; auto.
Qed.
End Globals.

(** *** The trace *)

Lemma on_request_error_sent url key is_probe attempt s :
  sent (snd (on_request_error url key is_probe attempt s)) = sent s.
Proof. unfold Engine.on_request_error, retry_or. by case_match. Qed.

Lemma on_failure_sent url key is_probe attempt r s :
  sent (snd (on_failure url key is_probe attempt r s)) = sent s.
Proof.
  unfold Engine.on_failure, Engine.on_auth_error, retry_or, with_glob,
    with_ctx, with_cache, add_error.
  by repeat (case_match; cbn [sent snd fst]).
Qed.

(** What follows the first request of a round: nothing, or the request
    that repeats the original body. *)
Lemma on_success_sent url key is_probe attempt r s :
  exists tail,
    sent (snd (on_success json_loads upstream now url key is_probe attempt
                 r s))
    = sent s ++ tail /\
    Forall (fun rq => r_url rq = url /\ r_key rq = key /\
                      r_is_probe rq = is_probe /\ r_attempt rq = attempt /\
                      r_resend rq = true) tail /\
    (length tail <= 1)%nat.
Proof.
  unfold Engine.on_success, Engine.on_request_error, Engine.after_probe,
    retry_or, with_glob, with_ctx, add_error, add_request.
  repeat (case_match; cbn [sent snd fst]); subst;
    first [ by (exists []; rewrite app_nil_r; split; [reflexivity|];
                split; [constructor|cbn; lia])
          | eexists [_]; split; [reflexivity|];
            split; [by repeat constructor|cbn; lia] ].
Qed.

Lemma attempt_body_trace url key is_probe body attempt s :
  exists tail,
    sent (snd (attempt_body url key is_probe body attempt s))
    = sent s ++ Request url key body attempt is_probe
                  (full_context_attempts (ctx s)) false :: tail /\
    Forall (fun rq => r_url rq = url /\ r_key rq = key /\
                      r_is_probe rq = is_probe /\ r_attempt rq = attempt /\
                      r_resend rq = true) tail /\
    (length tail <= 1)%nat.
Proof.
  unfold Engine.attempt_body. cbn zeta. frame.
  set (s1 := add_request _ _).
  assert (sent s1 = sent s ++ [Request url key body attempt is_probe
                                 (full_context_attempts (ctx s)) false])
    as Hs1 by (subst s1; cbn [sent add_request]; by frame).
  assert (forall s2, sent s2 = sent s1 ->
            exists tail,
              sent s2 = sent s ++ Request url key body attempt is_probe
                          (full_context_attempts (ctx s)) false :: tail /\
              Forall (fun rq => r_url rq = url /\ r_key rq = key /\
                                r_is_probe rq = is_probe /\
                                r_attempt rq = attempt /\
                                r_resend rq = true) tail /\
              (length tail <= 1)%nat) as Hsame.
  { intros s2 ->. exists []. rewrite Hs1. split; [done|].
    split; [constructor|cbn; lia]. }
  assert (forall r,
            exists tail,
              sent (snd (on_success json_loads upstream now url key is_probe
                           attempt r s1))
              = sent s ++ Request url key body attempt is_probe
                          (full_context_attempts (ctx s)) false :: tail /\
              Forall (fun rq => r_url rq = url /\ r_key rq = key /\
                                r_is_probe rq = is_probe /\
                                r_attempt rq = attempt /\
                                r_resend rq = true) tail /\
              (length tail <= 1)%nat) as Hsucc.
  { intros r.
    destruct (on_success_sent url key is_probe attempt r s1)
      as (tail & -> & Htail & Hlen).
    exists tail. rewrite Hs1, <- app_assoc. done. }
  repeat case_match;
    auto using on_request_error_sent, on_failure_sent.
Qed.

Lemma attempt_body_sent url key is_probe body attempt s :
  exists rq new,
    sent (snd (attempt_body url key is_probe body attempt s))
    = sent s ++ rq :: new /\
    rq = Request url key body attempt is_probe
           (full_context_attempts (ctx s)) false /\
    Forall (round_request url key is_probe body) new.
Proof.
  destruct (attempt_body_trace url key is_probe body attempt s)
    as (tail & -> & Htail & _).
  eexists _, tail. split; [done|]. split; [done|].
  eapply Forall_impl; [exact Htail|].
  intros rq (? & ? & ? & _ & Hre). repeat split; try done.
  intros Hno. congruence.
Qed.

Lemma for_attempts_sent url key is_probe body attempts s :
  exists new,
    sent (snd (for_attempts url key is_probe body attempts s)) = sent s ++ new /\
    Forall (round_request url key is_probe body) new.
Proof.
  revert s. induction attempts as [|a rest IH]; intros s.
  - exists []. by rewrite app_nil_r.
  - cbn [Engine.for_attempts].
    destruct (attempt_body_sent url key is_probe body a s)
      as (rq & new & Hs & -> & Hnew).
    assert (Forall (round_request url key is_probe body)
              (Request url key body a is_probe
                 (full_context_attempts (ctx s)) false :: new)) as Hall.
    { constructor; [by repeat split|done]. }
    destruct (attempt_body url key is_probe body a s) as [[| |r] s'];
      cbn [snd] in *; try by eauto.
    destruct (IH s') as (new' & -> & Hnew'). rewrite Hs.
    eexists. rewrite <- app_assoc. split; [reflexivity|].
    by apply Forall_app.
Qed.

(** *** Probe iterations leave [full_context_attempts] alone *)

Lemma on_request_error_probe_counter url key attempt s :
  full_context_attempts
    (ctx (snd (on_request_error url key true attempt s)))
  = full_context_attempts (ctx s).
Proof. unfold Engine.on_request_error, retry_or. by case_match. Qed.

Lemma on_failure_probe_counter url key attempt r s :
  full_context_attempts (ctx (snd (on_failure url key true attempt r s)))
  = full_context_attempts (ctx s).
Proof.
  unfold Engine.on_failure, Engine.on_auth_error, retry_or, with_glob,
    with_ctx, with_cache, add_error, record_attempt.
  cbn [negb]. rewrite !andb_false_r.
  by repeat (case_match; cbn [ctx snd fst full_context_attempts]).
Qed.

Lemma on_success_probe_counter url key attempt r s :
  full_context_attempts
    (ctx (snd (on_success json_loads upstream now url key true attempt r s)))
  = full_context_attempts (ctx s).
Proof.
  unfold Engine.on_success, Engine.on_request_error, Engine.after_probe,
    retry_or, with_glob, with_ctx, add_error, add_request, record_attempt,
    set_probe_succeeded_but_full_failed.
  by repeat (case_match; cbn [ctx snd fst full_context_attempts]).
Qed.

Lemma attempt_body_probe_counter url key body attempt s :
  full_context_attempts (ctx (snd (attempt_body url key true body attempt s)))
  = full_context_attempts (ctx s).
Proof.
  unfold Engine.attempt_body. cbn zeta.
  set (s1 := add_request _ _).
  assert (full_context_attempts (ctx s1) = full_context_attempts (ctx s))
    as <- by (subst s1; cbn [ctx add_request]; by frame).
  repeat case_match;
    auto using on_request_error_probe_counter, on_failure_probe_counter,
      on_success_probe_counter.
Qed.

Lemma for_attempts_probe_counter url key body attempts s :
  full_context_attempts (ctx (snd (for_attempts url key true body attempts s)))
  = full_context_attempts (ctx s).
Proof.
  revert s. induction attempts as [|a rest IH]; intros s; [done|].
  cbn [Engine.for_attempts].
  pose proof (attempt_body_probe_counter url key body a s) as H.
  destruct (attempt_body url key true body a s) as [[| |r] s'];
    cbn [snd] in *; try done.
  by rewrite IH.
Qed.

(** One iteration of the key loop that starts in probe mode. *)
Lemma key_body_probe url key s :
  should_use_probe (ctx s) = true ->
  full_context_attempts (ctx (snd (key_body url key s)))
  = full_context_attempts (ctx s) /\
  exists new, sent (snd (key_body url key s)) = sent s ++ new /\
              Forall probe_request new.
Proof.
  intros Hp. unfold Engine.key_body, get_request_body. rewrite Hp. split.
  - by rewrite for_attempts_probe_counter.
  - destruct (for_attempts_sent url key true ProbeBody attempt_range
                (with_glob (increment_key_usage key) s)) as (new & -> & Hnew).
    exists new. split; [done|].
    eapply Forall_impl; [exact Hnew|]. by intros rq (_ & _ & ? & ?).
Qed.

(** One iteration of the key loop that starts with the full body. *)
Lemma key_body_full url key s :
  should_use_probe (ctx s) = false ->
  exists new, sent (snd (key_body url key s)) = sent s ++ new /\
              Forall (fun rq => r_is_probe rq = false) new.
Proof.
  intros Hp. unfold Engine.key_body. rewrite Hp.
  destruct (for_attempts_sent url key false (get_request_body (ctx s))
              attempt_range (with_glob (increment_key_usage key) s))
    as (new & -> & Hnew).
  exists new. split; [done|].
  eapply Forall_impl; [exact Hnew|]. by intros rq (_ & _ & ? & _).
Qed.

Lemma for_keys_probe url keys s :
  should_use_probe (ctx s) = true ->
  full_context_attempts (ctx (snd (for_keys url keys s)))
  = full_context_attempts (ctx s) /\
  exists new, sent (snd (for_keys url keys s)) = sent s ++ new /\
              Forall probe_request new.
Proof.
  revert s. induction keys as [|k rest IH]; intros s Hp.
  - split; [done|]. exists []. by rewrite app_nil_r.
  - cbn [Engine.for_keys].
    destruct (key_body_probe url k s Hp) as (Hfull & new & Hsent & Hnew).
    destruct (key_body url k s) as [[r|] s']; cbn [snd] in *; [eauto|].
    destruct (IH s') as (Hfull' & new' & Hsent' & Hnew').
    { unfold should_use_probe in *. by rewrite Hfull. }
    split; [congruence|]. exists (new ++ new').
    rewrite Hsent', Hsent, <- app_assoc. split; [done|]. by apply Forall_app.
Qed.

Lemma for_urls_probe urls keys s :
  should_use_probe (ctx s) = true ->
  full_context_attempts (ctx (snd (for_urls urls keys s)))
  = full_context_attempts (ctx s) /\
  exists new, sent (snd (for_urls urls keys s)) = sent s ++ new /\
              Forall probe_request new.
Proof.
  revert s. induction urls as [|u rest IH]; intros s Hp.
  - split; [done|]. exists []. by rewrite app_nil_r.
  - cbn [Engine.for_urls].
    destruct (for_keys_probe u keys (begin_url u s))
      as (Hfull & new & Hsent & Hnew); [by frame|].
    revert Hfull Hsent. frame. intros Hfull Hsent.
    destruct (for_keys u keys (begin_url u s)) as [[r|] s']; cbn [snd] in *;
      [eauto|].
    destruct (IH s') as (Hfull' & new' & Hsent' & Hnew').
    { unfold should_use_probe in *. by rewrite Hfull. }
    split; [congruence|]. exists (new ++ new').
    rewrite Hsent', Hsent, <- app_assoc. split; [done|]. by apply Forall_app.
Qed.

(** *** The flags along the trace *)

Lemma monotone_no_probe (l : list request) :
  Forall (fun rq => r_is_probe rq = false) l -> probe_flags_monotone l.
Proof.
  intros Hall i j rq rq' _ Hi _ Hp.
  rewrite Forall_lookup in Hall. specialize (Hall _ _ Hi). congruence.
Qed.

Lemma monotone_app_probe (l new : list request) :
  probe_flags_monotone l -> Forall (fun rq => r_is_probe rq = true) new ->
  probe_flags_monotone (l ++ new).
Proof.
  intros Hl Hnew i j rq rq' Hij Hi Hj Hp.
  destruct (decide (j < length l)%nat) as [Hlt|Hge].
  - rewrite lookup_app_l in Hi, Hj by lia. by eapply (Hl i j).
  - rewrite lookup_app_r in Hj by lia.
    rewrite Forall_lookup in Hnew. by eapply Hnew.
Qed.

Lemma key_body_flags url key s :
  flags_invariant s -> flags_invariant (snd (key_body url key s)).
Proof.
  intros [Hmono Hfull]. unfold flags_invariant.
  destruct (should_use_probe (ctx s)) eqn:Hp.
  - destruct (key_body_probe url key s Hp) as (Hc & new & -> & Hnew).
    split.
    + apply monotone_app_probe; [done|].
      eapply Forall_impl; [exact Hnew|]. by intros rq [? _].
    + unfold should_use_probe in *. rewrite Hc. congruence.
  - destruct (key_body_full url key s Hp) as (new & -> & Hnew).
    assert (Forall (fun rq => r_is_probe rq = false) (sent s ++ new)) as Hall.
    { apply Forall_app. auto. }
    split; [by apply monotone_no_probe|done].
Qed.

Lemma for_keys_flags url keys s :
  flags_invariant s -> flags_invariant (snd (for_keys url keys s)).
Proof.
  revert s. induction keys as [|k rest IH]; intros s Hs; [done|].
  cbn [Engine.for_keys]. pose proof (key_body_flags url k s Hs) as H.
  destruct (key_body url k s) as [[r|] s']; cbn [snd] in *; auto.
Qed.

Lemma for_urls_flags urls keys s :
  flags_invariant s -> flags_invariant (snd (for_urls urls keys s)).
Proof.
  revert s. induction urls as [|u rest IH]; intros s Hs; [done|].
  cbn [Engine.for_urls].
  assert (flags_invariant (begin_url u s)) as Hs'.
  { unfold flags_invariant in *. by frame. }
  pose proof (for_keys_flags u keys (begin_url u s) Hs') as H.
  destruct (for_keys u keys (begin_url u s)) as [[r|] s']; cbn [snd] in *; auto.
Qed.

Lemma failover_trace body start g r s :
  failover body start g = Ok (r, s) ->
  exists sorted_keys g1 available_urls g2,
    get_keys_sorted_by_usage CANDIDATE_API_KEYS start g = Ok (sorted_keys, g1) /\
    get_available_urls CANDIDATE_URLS start g1 = (available_urls, g2) /\
    s = snd (for_urls available_urls sorted_keys
               (State g2 (new_RetryContext json_loads body) [] []
                  (cached world) [])).
Proof.
  unfold Engine.failover. intros H.
  destruct (get_keys_sorted_by_usage _ _ _) as [[sorted_keys g1]|] eqn:Hk;
    cbn [mbind result_bind bind] in H; [|done].
  destruct (get_available_urls _ _ _) as [available_urls g2] eqn:Hu.
  exists sorted_keys, g1, available_urls, g2.
  split; [reflexivity|]. split; [exact Hu|].
  destruct (for_urls _ _ _) as [[r'|] s']; cbn [snd].
  - by injection H as _ <-.
  - destruct (probe_succeeded_but_full_failed _); by injection H as _ <-.
Qed.

(** C10 (as amended).  Probe mode is absorbing from one key iteration to
    the next: when [should_use_probe()] is true at the start of an
    iteration of the key loop, every request of the rest of the run is a
    probe request (the probe body, or the original body repeated after a
    successful probe), [full_context_attempts] keeps its value, and
    [should_use_probe()] is still true afterwards; in the trace of a
    whole run no full-body iteration follows a probe iteration. *)
Theorem probe_mode_is_absorbing :
  (forall s, should_use_probe (ctx s) = true ->
     forall url key urls keys,
       let stays s' :=
         full_context_attempts (ctx s') = full_context_attempts (ctx s) /\
         should_use_probe (ctx s') = true /\
         exists new, sent s' = sent s ++ new /\ Forall probe_request new in
       stays (snd (key_body url key s)) /\
       stays (snd (for_keys url keys s)) /\
       stays (snd (for_urls urls keys s))) /\
  (forall body start g r s,
     failover body start g = Ok (r, s) ->
     probe_flags_monotone (sent s)).
Proof.
  split.
  - intros s Hp url key urls keys stays.
    assert (forall s', full_context_attempts (ctx s')
                       = full_context_attempts (ctx s) ->
                       should_use_probe (ctx s') = true) as Hkeep.
    { intros s' Hs'. unfold should_use_probe in *. by rewrite Hs'. }
    subst stays. cbv beta.
    destruct (key_body_probe url key s Hp) as (H1 & H1').
    destruct (for_keys_probe url keys s Hp) as (H2 & H2').
    destruct (for_urls_probe urls keys s Hp) as (H3 & H3').
    auto 10.
  - intros body start g r s Hrun.
    destruct (failover_trace _ _ _ _ _ Hrun) as (ks & g1 & us & g2 & _ & _ & ->).
    apply for_urls_flags. split.
    + by apply monotone_no_probe.
    + by intros _.
Qed.

(** *** Overload and auth answers *)


Lemma attempt_body_auth url key is_probe body attempt s r :
  upstream (length (sent s)) = Answers r ->
  auth_classified json_loads r ->
  attempt_body url key is_probe body attempt s
  = on_auth_error url key is_probe (auth_note key r)
      (after_failed_answer url key is_probe body attempt s).
Proof.
  intros Hup (Hwaf & Hst & Hcls). unfold Engine.attempt_body, Engine.on_failure.
  unfold is_challenge in Hwaf. frame. rewrite Hup. cbn [sent add_request].
  rewrite (proj2 (Z.ltb_ge _ _)) by lia. rewrite Hwaf. unfold auth_note.
  destruct (500 <=? status_code r)%Z; by rewrite Hcls.
Qed.

Lemma for_attempts_cons url key is_probe body attempt rest s :
  for_attempts url key is_probe body (attempt :: rest) s
  = match attempt_body url key is_probe body attempt s with
    | (Continue, s') => for_attempts url key is_probe body rest s'
    | (Break, s') => (None, s')
    | (Return r, s') => (Some r, s')
    end.
Proof. reflexivity. Qed.


(** What the overload test needs to pass: the header, the decoded object
    and the text of [error.message]. *)
Lemma overload_classified_intro r members error msg :
  (500 <= status_code r)%Z ->
  str_in "application/json" (content_type r) = true ->
  is_challenge r = false ->
  json_loads (resp_text r) = Some (JObj members) ->
  dict_get "error" members = Some (JObj error) ->
  dict_get "message" error = Some (JStr msg) ->
  str_in overload_marker msg || str_in "overload" (lower msg) = true ->
  overload_classified json_loads r.
Proof.
  intros Hst Hct Hwaf Hj He Hm Hov. split; [done|]. split; [done|].
  unfold classify_5xx, error_field. rewrite Hct, Hj, He. cbn [default from_option id].
  rewrite Hm. cbn [default from_option id overload_test]. by rewrite Hov.
Qed.

(** What the auth classification needs: a 401 or a 403, or a status of
    500 or more with the JSON header and a message that passes for no
    overload; and [error.type] one of the three auth types. *)
Lemma auth_classified_intro r members error type :
  is_challenge r = false ->
  json_loads (resp_text r) = Some (JObj members) ->
  dict_get "error" members = Some (JObj error) ->
  dict_get "type" error = Some (JStr type) ->
  type ∈ auth_types ->
  status_code r = 401%Z \/ status_code r = 403%Z \/
  ((500 <= status_code r)%Z /\
   str_in "application/json" (content_type r) = true /\
   exists msg, default (JStr "") (dict_get "message" error) = JStr msg /\
               str_in overload_marker msg || str_in "overload" (lower msg)
               = false) ->
  auth_classified json_loads r.
Proof.
  intros Hwaf Hj He Ht Hin Hst. split; [done|].
  assert (in_strings (JStr type) auth_types = true) as Hty.
  { unfold in_strings. by apply bool_decide_eq_true. }
  destruct Hst as [Hst|[Hst|(Hst & Hct & msg & Hm & Hov)]].
  - rewrite Hst. split; [done|].
    change (500 <=? 401)%Z with false. unfold classify_4xx, error_field.
    rewrite Hst, Hj, He. cbn. rewrite Ht. cbn [default from_option id]. by rewrite Hty.
  - rewrite Hst. split; [done|].
    change (500 <=? 403)%Z with false. unfold classify_4xx, error_field.
    rewrite Hst, Hj, He. cbn. rewrite Ht. cbn [default from_option id]. by rewrite Hty.
  - split; [lia|]. rewrite (proj2 (Z.leb_le _ _) Hst).
    unfold classify_5xx, error_field. rewrite Hct, Hj, He. cbn [default from_option id].
    rewrite Hm, Ht. cbn [default from_option id overload_test]. by rewrite Hov, Hty.
Qed.




(** C3, where the code departs from it.  On the last round of the
    attempt loop an auth error met with the latch off sets the latch and
    gives the counter its unit back, and then the loop is over: no
    request follows for this key on this URL, the key is not added to the
    pending list and no note is left. *)
Theorem auth_retry_is_lost_on_last_attempt url key body s r :
  nonessential_traffic_disabled (glob s) = false ->
  upstream (length (sent s)) = Answers r ->
  auth_classified json_loads r ->
  let s' := snd (for_attempts url key false body [MAX_RETRY_ATTEMPTS] s) in
  fst (for_attempts url key false body [MAX_RETRY_ATTEMPTS] s) = None /\
  sent s' = sent s ++ [Request url key body MAX_RETRY_ATTEMPTS false
                         (full_context_attempts (ctx s)) false] /\
  nonessential_traffic_disabled (glob s') = true /\
  full_context_attempts (ctx s') = full_context_attempts (ctx s) /\
  pending_cooldown_keys (glob s') = pending_cooldown_keys (glob s) /\
  all_errors s' = all_errors s.
Proof.
  intros Hlatch Hup Hauth. cbn [Engine.for_attempts].
  rewrite (attempt_body_auth _ _ _ _ _ _ r) by done.
  unfold Engine.on_auth_error.
  cbn [glob Engine.after_failed_answer with_ctx add_request]. frame.
  rewrite Hlatch.
  cbn. frame. repeat split; try done. lia.
Qed.

(** A success on [url] confirms the keys pending on [url]: a reply that
    streams an upstream answer is returned with
    [confirm_cooldown_for_url(url)] applied. *)
Lemma success_confirms_pending url key is_probe body attempt s r s' :
  attempt_body url key is_probe body attempt s
  = (Return (Streamed url key r), s') ->
  glob s' = confirm_cooldown_for_url url now (glob s).
Proof.
  assert (forall s1 a,
            on_success json_loads upstream now url key is_probe attempt a s1
            = (Return (Streamed url key r), s') ->
            glob s' = confirm_cooldown_for_url url now (glob s1)) as Hsucc.
  { intros s1 a.
    unfold Engine.on_success, Engine.on_request_error, Engine.after_probe,
      retry_or, with_glob, with_ctx, add_error, add_request.
    repeat (case_match; try discriminate); intros Hret; by simplify_eq. }
  assert (forall s1,
            fst (on_request_error url key is_probe attempt s1)
            <> Return (Streamed url key r)) as Herr.
  { intros s1. unfold Engine.on_request_error, retry_or. by case_match. }
  assert (forall s1 a,
            fst (on_failure url key is_probe attempt a s1)
            <> Return (Streamed url key r)) as Hfail.
  { intros s1 a.
    unfold Engine.on_failure, Engine.on_auth_error, retry_or.
    by repeat (case_match; cbn [fst]). }
  unfold Engine.attempt_body. cbn zeta.
  set (s1 := add_request _ _).
  assert (glob s1 = glob s) as <-
    by (subst s1; cbn [glob add_request]; by frame).
  repeat case_match; intros Hret;
    first [ by eapply Hsucc
          | exfalso; eapply Herr; by rewrite Hret
          | exfalso; eapply Hfail; by rewrite Hret ].
Qed.

(** The latch is never cleared. *)
Lemma latch_is_monotone urls keys s :
  nonessential_traffic_disabled (glob s) = true ->
  nonessential_traffic_disabled (glob (snd (for_urls urls keys s))) = true.
Proof.
  apply (for_urls_globals (fun g => nonessential_traffic_disabled g = true));
    try done.
  - intros url g Hg. unfold confirm_cooldown_for_url.
    by repeat case_match.
Qed.

End Engine.

End EngineFacts.

(** ** Runs of the engine on sample upstreams *)

Module RunFacts.
Import Cooldown Engine EngineFacts Samples.

(** Scenario S4: two URLs, one key, every answer a 401 auth error.  The
    first URL sees the key twice (the second time once the latch is set),
    then the key is pending on it; the second URL sees it once. *)
Example auth_one_shot_retry :
  observe (run two_urls ["sk-1"]
             [Answers auth_401; Answers auth_401; Answers auth_401])
  = Some (FailoverExhausted [AuthFailed "sk-1" 401; AuthFailed "sk-1" 401],
          [Request url_a "sk-1" FullBody 1 false 0 false;
           Request url_a "sk-1" FullBody 2 false 0 false;
           Request url_b "sk-1" FullBody 1 false 1 false],
          true,
          [(url_a, [_key_id "sk-1"]); (url_b, [_key_id "sk-1"])],
          [AuthFailed "sk-1" 401; AuthFailed "sk-1" 401]).
Proof. by vm_compute. Qed.

Lemma auth_401_classified : auth_classified Reader.loads auth_401.
Proof. repeat split; by vm_compute. Qed.


(** The retry is lost when the auth error is the answer to the second
    attempt: one URL, one key, a connection failure and then a 401.  The
    second attempt is preceded by the forced fetch of the cookie. *)
Lemma auth_retry_is_lost_on_last_attempt_witness :
  let s1 := after_failed_answer plain_world url_a "sk-1" false FullBody 1
              (start_state no_globals (new_RetryContext Reader.loads "{}")) in
  for_attempts Reader.loads ["sk-1"]
    (script [RequestError; Answers auth_401; Answers ok_200]) 1000 plain_world
    url_a "sk-1" false FullBody [2%nat] s1
  = (None,
     State (set_nonessential_traffic_disabled true no_globals)
           (ctx s1) []
           [Request url_a "sk-1" FullBody 1 false 0 false;
            Request url_a "sk-1" FullBody 2 false 1 false]
           {[url_a := WafCookies.Entry ∅ 1000]}
           [WafCall url_a true 1 [url_a +:+ "/"]]).
Proof.
  intros s1.
  destruct (auth_retry_is_lost_on_last_attempt Reader.loads ["sk-1"]
              (script [RequestError; Answers auth_401; Answers ok_200]) 1000
              plain_world url_a "sk-1" FullBody s1 auth_401)
    as (_ & _ & _ & _ & _ & _).
  - reflexivity.
  - reflexivity.
  - exact auth_401_classified.
  - by vm_compute.
Defined.

Example auth_retry_is_lost_run :
  observe (run [url_a] ["sk-1"]
             [RequestError; Answers auth_401; Answers ok_200])
  = Some (FailoverExhausted [],
          [Request url_a "sk-1" FullBody 1 false 0 false;
           Request url_a "sk-1" FullBody 2 false 1 false],
          true, [], []).
Proof. by vm_compute. Qed.



(** C10 as stated fails: one URL, two keys; an overload on the first key
    and a plain 500 on the second bring the counter to 2, and the second
    attempt of the second key still carries the full body. *)
Lemma full_body_after_counter_reaches_two :
  exists r s,
    run [url_a] two_keys
      [Answers overloaded_503; Answers plain_500; Answers ok_200] = Ok (r, s) /\
    ~ probe_body_from_two (sent s).
Proof.
  eexists _, _. split; [by vm_compute|].
  intros Hclaim.
  specialize (Hclaim (Request url_a "sk-2" FullBody 2 false 2 false)).
  discriminate Hclaim; [|done..].
  do 2 right. left.
Qed.

Lemma probe_mode_is_absorbing_witness :
  (exists r s,
      run [url_a] three_keys
        [Answers plain_500; Answers plain_500; Answers plain_500;
         Answers ok_200; Answers ok_200] = Ok (r, s) /\
      probe_flags_monotone (sent s)) /\
  should_use_probe
    (ctx (snd (for_keys Reader.loads three_keys
                 (script [Answers plain_500]) 1000 plain_world url_a three_keys
                 (start_state no_globals
                    (set_full_context_attempts 2
                       (new_RetryContext Reader.loads "{}")))))) = true.
Proof.
  split.
  - destruct (run [url_a] three_keys
                [Answers plain_500; Answers plain_500; Answers plain_500;
                 Answers ok_200; Answers ok_200]) as [[r s]|e] eqn:Hrun.
    + exists r, s. split; [done|].
      eapply (proj2 (probe_mode_is_absorbing Reader.loads [url_a] three_keys
                       _ 1000 plain_world)). exact Hrun.
    + by vm_compute in Hrun.
  - destruct (proj1 (probe_mode_is_absorbing Reader.loads [url_a] three_keys
                       (script [Answers plain_500]) 1000 plain_world)
                (start_state no_globals
                   (set_full_context_attempts 2
                      (new_RetryContext Reader.loads "{}")))
                eq_refl url_a "sk-1" [] three_keys)
      as (_ & (_ & Hkeys & _) & _).
    exact Hkeys.
Defined.

End RunFacts.

(** ** No plaintext key reaches the disk *)

Module ProcessFacts.
Import Cooldown Engine Process KeyIdFacts EngineFacts.

Section Process.
Variable json_loads : string -> option json.
Variable CANDIDATE_URLS : list string.
Variable CANDIDATE_API_KEYS : list string.

Abbreviation kid_of := (kid_of CANDIDATE_API_KEYS).
Abbreviation normalize := (normalize CANDIDATE_API_KEYS).
Abbreviation load_cooldowns := (load_cooldowns CANDIDATE_API_KEYS).
Abbreviation step := (step json_loads CANDIDATE_URLS CANDIDATE_API_KEYS).
Abbreviation reachable :=
  (reachable json_loads CANDIDATE_URLS CANDIDATE_API_KEYS).

(** *** [load_cooldowns] *)

Lemma normalize_step_raise schema_version e (todo : list (string * json)) :
  foldl (normalize_step CANDIDATE_API_KEYS schema_version) (Raise e) todo
  = Raise e.
Proof. induction todo as [|x todo IH]; [done|]. exact IH. Qed.

Lemma normalize_entries schema_version (raw : list (string * json)) :
  forall (done todo : list (string * json)) (acc m : gmap string json),
    raw = done ++ todo ->
    (forall kid v, acc !! kid = Some v ->
       is_key_id kid = true /\
       exists k, (k, v) ∈ raw /\
         ((k = kid /\ is_key_id k = true /\
           version_ge2 schema_version = Ok true) \/
          (k ∈ CANDIDATE_API_KEYS /\ kid = _key_id k))) ->
    foldl (normalize_step CANDIDATE_API_KEYS schema_version) (Ok acc) todo
    = Ok m ->
    forall kid v, m !! kid = Some v ->
      is_key_id kid = true /\
      exists k, (k, v) ∈ raw /\
        ((k = kid /\ is_key_id k = true /\
          version_ge2 schema_version = Ok true) \/
         (k ∈ CANDIDATE_API_KEYS /\ kid = _key_id k)).
Proof.
  intros done todo. revert done.
  induction todo as [|[k v] todo IH]; intros done acc m Hraw Hacc Hm.
  - cbn in Hm. injection Hm as <-. exact Hacc.
  - cbn [foldl] in Hm. unfold normalize_step at 2 in Hm.
    cbn [mbind result_bind bind fst snd] in Hm.
    assert ((k, v) ∈ raw) as Hin.
    { rewrite Hraw. apply elem_of_app. right. by left. }
    destruct (version_ge2 schema_version) as [new_format|e] eqn:Hv.
    2:{ cbn [mbind result_bind bind] in Hm.
        by rewrite normalize_step_raise in Hm. }
    cbn [mbind result_bind bind] in Hm.
    destruct (new_format && is_key_id k) eqn:Hnew.
    + apply andb_true_iff in Hnew as [-> Hk].
      eapply (IH (done ++ [(k, v)])); [by rewrite <- app_assoc| |exact Hm].
      intros kid w Hw. destruct (decide (kid = k)) as [->|Hne].
      * rewrite lookup_insert_eq in Hw. injection Hw as <-. eauto 10.
      * rewrite lookup_insert_ne in Hw by done. by apply Hacc.
    + destruct (KEY_ID_BY_KEY CANDIDATE_API_KEYS !! k) as [kid'|] eqn:Hk.
      * pose proof (KEY_ID_BY_KEY_lookup _ _ _ Hk) as ->.
        assert (k ∈ CANDIDATE_API_KEYS) as Hcfg.
        { unfold KEY_ID_BY_KEY in Hk. apply elem_of_list_to_map_2 in Hk.
          apply list_elem_of_fmap in Hk as (k' & [= -> _] & ?). done. }
        eapply (IH (done ++ [(k, v)])); [by rewrite <- app_assoc| |exact Hm].
        intros kid w Hw. destruct (decide (kid = _key_id k)) as [->|Hne].
        -- rewrite lookup_insert_eq in Hw. injection Hw as <-.
           split; [apply key_id_form|]. eauto 10.
        -- rewrite lookup_insert_ne in Hw by done. by apply Hacc.
      * eapply (IH (done ++ [(k, v)])); [by rewrite <- app_assoc| |exact Hm].
        exact Hacc.
Qed.

Lemma normalize_from_empty schema_version raw m :
  normalize schema_version raw = Ok m ->
  forall kid v, m !! kid = Some v ->
    is_key_id kid = true /\
    exists k, (k, v) ∈ raw /\
      ((k = kid /\ is_key_id k = true /\
        version_ge2 schema_version = Ok true) \/
       (k ∈ CANDIDATE_API_KEYS /\ kid = _key_id k)).
Proof.
  intros Hm. eapply (normalize_entries schema_version raw [] raw ∅ m);
    [done| |exact Hm].
  intros kid v H. by rewrite lookup_empty in H.
Qed.

Lemma keep_live_entries now m m' :
  keep_live now m = Ok m' ->
  forall kid v, m' !! kid = Some v -> m !! kid = Some v /\ is_live now v = true.
Proof.
  unfold keep_live. case_decide; [|done]. intros [= <-] kid v Hv.
  by apply map_lookup_filter_Some in Hv as [? ?].
Qed.

(** What [load_cooldowns] leaves in [key_cooldown_until], starting from
    the empty dictionary. *)
Lemma load_cooldowns_entries data now kid v :
  l_keys (load_cooldowns data now (Loaded ∅ (JObj []))) !! kid = Some v ->
  is_key_id kid = true /\ from_file CANDIDATE_API_KEYS data kid v.
Proof.
  unfold Cooldown.load_cooldowns, from_file.
  destruct data as [[| | | | | |members]|]; cbn [l_keys]; try done.
  destruct (dict_get "keys" members) as [raw_keys|] eqn:Hkeys;
    cbn [default from_option id].
  2:{ cbn. destruct (keep_live now ∅) as [m|] eqn:Hl; [|done].
      assert (forall kid v, m !! kid = Some v -> False) as Hm.
      { intros k' v' H'. by apply (keep_live_entries _ _ _ Hl) in H' as [? _]. }
      intros H. exfalso. repeat case_match; cbn [l_keys] in H; eauto. }
  set (schema := from_option id (JInt 1) (dict_get "schema_version" members)).
  set (assigned := match raw_keys with
                   | JObj raw => normalize schema raw
                   | _ => Ok ∅
                   end).
  assert (forall m, assigned = Ok m ->
            forall kid v, m !! kid = Some v ->
              is_key_id kid = true /\
              exists raw k, raw_keys = JObj raw /\ (k, v) ∈ raw /\
                ((k = kid /\ is_key_id k = true /\
                  version_ge2 schema = Ok true) \/
                 (k ∈ CANDIDATE_API_KEYS /\ kid = _key_id k))) as Hassigned.
  { intros m Hm kid' v' Hv'. subst assigned.
    destruct raw_keys as [| | | | | |raw]; try (injection Hm as <-; done).
    destruct (normalize_from_empty schema raw m Hm kid' v' Hv')
      as (? & k & ? & ?).
    eauto 10. }
  assert (forall m, assigned = Ok m ->
            forall kid v, m !! kid = Some v ->
              is_key_id kid = true /\
              exists members0 raw k,
                Some (JObj members) = Some (JObj members0) /\
                dict_get "keys" members0 = Some (JObj raw) /\ (k, v) ∈ raw /\
                ((k = kid /\ is_key_id k = true /\
                  version_ge2
                    (default (JInt 1) (dict_get "schema_version" members0))
                  = Ok true) \/
                 (k ∈ CANDIDATE_API_KEYS /\ kid = _key_id k))) as Hfile.
  { intros m Hm kid' v' Hv'.
    destruct (Hassigned m Hm kid' v' Hv') as (? & raw & k & -> & ? & ?).
    split; [done|]. exists members, raw, k. eauto. }
  clear Hassigned. destruct assigned as [normalized|e].
  2:{ cbn [l_keys]. by rewrite lookup_empty. }
  destruct (keep_live now normalized) as [live|e] eqn:Hlive.
  - intros H.
    assert (live !! kid = Some v) as Hv.
    { repeat case_match; exact H. }
    apply (keep_live_entries _ _ _ Hlive) in Hv as [Hv _]. by eapply Hfile.
  - cbn [l_keys]. by eapply Hfile.
Qed.

(** When the values of the file are numbers, the expired entries are
    gone after the load. *)
Lemma load_cooldowns_live now members raw kid v :
  dict_get "keys" members = Some (JObj raw) ->
  Forall (fun kv => is_Some (num_of (snd kv))) raw ->
  l_keys (load_cooldowns (Some (JObj members)) now (Loaded ∅ (JObj []))) !! kid
  = Some v ->
  is_live now v = true.
Proof.
  intros Hkeys Hnum. unfold Cooldown.load_cooldowns. rewrite Hkeys.
  cbn [default from_option id].
  set (schema := from_option id (JInt 1) (dict_get "schema_version" members)).
  destruct (normalize schema raw) as [normalized|e] eqn:Hn.
  2:{ cbn [l_keys]. by rewrite lookup_empty. }
  assert (map_Forall (fun _ w => is_Some (num_of w)) normalized) as Hall.
  { intros k w Hw.
    destruct (normalize_from_empty schema raw normalized Hn k w Hw)
      as (_ & k' & Hin & _).
    rewrite Forall_forall in Hnum. exact (Hnum _ Hin). }
  unfold keep_live. rewrite decide_True by done.
  intros H.
  assert (filter (fun kv => is_live now (snd kv) = true) normalized !! kid
          = Some v) as Hv.
  { repeat case_match; exact H. }
  by apply map_lookup_filter_Some in Hv as [_ ?].
Qed.

(** *** What [load_cooldowns] keeps, entry by entry *)

Lemma KEY_ID_BY_KEY_configured (k : string) :
  KEY_ID_BY_KEY CANDIDATE_API_KEYS !! k
  = if bool_decide (k ∈ CANDIDATE_API_KEYS) then Some (_key_id k) else None.
Proof.
  unfold KEY_ID_BY_KEY. case_bool_decide as Hk.
  - apply elem_of_list_to_map_1'.
    + intros y Hy. apply list_elem_of_fmap in Hy as (k' & [= -> ->] & _). done.
    + apply list_elem_of_fmap. by exists k.
  - apply not_elem_of_list_to_map_1. intros Hin. apply Hk.
    apply list_elem_of_fmap in Hin as ([k' y] & -> & Hin). cbn.
    apply list_elem_of_fmap in Hin as (k'' & [= -> _] & ?). done.
Qed.

Lemma normalize_step_kept schema new_format acc k v :
  version_ge2 schema = Ok new_format ->
  normalize_step CANDIDATE_API_KEYS schema (Ok acc) (k, v)
  = Ok (match kept_as CANDIDATE_API_KEYS new_format k with
        | Some kid => <[kid := v]> acc
        | None => acc
        end).
Proof.
  intros Hv. unfold normalize_step, kept_as.
  cbn [mbind result_bind bind fst snd]. rewrite Hv.
  cbn [mbind result_bind bind].
  destruct (new_format && is_key_id k); [done|].
  rewrite KEY_ID_BY_KEY_configured. by case_bool_decide.
Qed.

Lemma last_kept_cons new_format k v raw kid :
  last_kept CANDIDATE_API_KEYS new_format ((k, v) :: raw) kid
  = match last_kept CANDIDATE_API_KEYS new_format raw kid with
    | Some w => Some w
    | None =>
        if bool_decide (kept_as CANDIDATE_API_KEYS new_format k = Some kid)
        then Some v else None
    end.
Proof.
  unfold last_kept. cbn [List.filter fst].
  destruct (bool_decide (kept_as CANDIDATE_API_KEYS new_format k = Some kid)).
  - rewrite last_cons. by destruct (last _) as [[]|].
  - by destruct (last _) as [[]|].
Qed.

(** The dictionary [normalized] holds, under every name, the value of
    the last entry of the file kept under that name. *)
Lemma normalize_lookup schema new_format raw m kid :
  version_ge2 schema = Ok new_format ->
  normalize schema raw = Ok m ->
  m !! kid = last_kept CANDIDATE_API_KEYS new_format raw kid.
Proof.
  intros Hv. unfold Cooldown.normalize.
  assert (forall acc,
            foldl (normalize_step CANDIDATE_API_KEYS schema) (Ok acc) raw = Ok m ->
            m !! kid
            = match last_kept CANDIDATE_API_KEYS new_format raw kid with
              | Some w => Some w
              | None => acc !! kid
              end) as H.
  { induction raw as [|[k v] raw IH]; intros acc Hm.
    - cbn in Hm. by injection Hm as <-.
    - cbn [foldl] in Hm. rewrite (normalize_step_kept _ _ _ _ _ Hv) in Hm.
      rewrite (IH _ Hm), last_kept_cons.
      destruct (last_kept CANDIDATE_API_KEYS new_format raw kid); [done|].
      destruct (kept_as CANDIDATE_API_KEYS new_format k) as [kid'|] eqn:Hk.
      + case_bool_decide as E.
        * injection E as ->. by rewrite lookup_insert_eq.
        * rewrite lookup_insert_ne; [done|congruence].
      + by rewrite bool_decide_false. }
  intros Hm. by rewrite (H ∅ Hm), lookup_empty; destruct (last_kept _ _ _ _).
Qed.

(** The state after the import, entry by entry, for a file whose values
    are numbers: under a name is the value of the last entry kept under
    it, when it has not expired. *)
Lemma load_cooldowns_exact members raw new_format now env_disabled kid :
  dict_get "keys" members = Some (JObj raw) ->
  version_ge2 (default (JInt 1) (dict_get "schema_version" members))
  = Ok new_format ->
  Forall (fun kv => is_Some (num_of (snd kv))) raw ->
  key_cooldown_until
    (module_init CANDIDATE_API_KEYS (Some (JObj members)) now env_disabled)
    !! kid
  = match last_kept CANDIDATE_API_KEYS new_format raw kid with
    | Some v => if is_live now v then Some v else None
    | None => None
    end.
Proof.
  intros Hkeys Hv Hnum. cbn [key_cooldown_until module_init].
  unfold Cooldown.load_cooldowns. rewrite Hkeys.
  cbn [default from_option id] in *.
  set (schema := from_option id (JInt 1) (dict_get "schema_version" members))
    in *.
  assert (forall raw0 acc, exists m,
            foldl (normalize_step CANDIDATE_API_KEYS schema) (Ok acc) raw0
            = Ok m) as Htotal.
  { induction raw0 as [|[k v] raw0 IH]; intros acc; [by eexists|].
    cbn [foldl]. rewrite (normalize_step_kept _ _ _ _ _ Hv). apply IH. }
  destruct (normalize schema raw) as [normalized|e] eqn:Hn.
  2:{ exfalso. unfold Cooldown.normalize in Hn.
      destruct (Htotal raw ∅) as [m Hm]. congruence. }
  assert (map_Forall (fun _ w => is_Some (num_of w)) normalized) as Hall.
  { intros k w Hw.
    destruct (normalize_from_empty schema raw normalized Hn k w Hw)
      as (_ & k' & Hin & _).
    rewrite Forall_forall in Hnum. exact (Hnum _ Hin). }
  unfold keep_live. rewrite decide_True by done.
  assert (forall l,
            l_keys l = filter (fun kv => is_live now (snd kv) = true) normalized ->
            l_keys l !! kid
            = match last_kept CANDIDATE_API_KEYS new_format raw kid with
              | Some v => if is_live now v then Some v else None
              | None => None
              end) as Hl.
  { intros l ->. rewrite <- (normalize_lookup schema new_format raw normalized
                               kid Hv Hn).
    destruct (normalized !! kid) as [v|] eqn:Hk.
    - destruct (is_live now v) eqn:Hlive.
      + by apply map_lookup_filter_Some.
      + apply map_lookup_filter_None. right. intros w Hw. cbn.
        assert (w = v) as -> by congruence. by rewrite Hlive.
    - apply map_lookup_filter_None. by left. }
  apply Hl. by repeat case_match.
Qed.

(** *** The invariant *)

Lemma mark_only_key_ids (v : json) (l : list string) (m : gmap string json) :
  Forall (fun kid => is_key_id kid = true) l -> only_key_ids m ->
  only_key_ids (foldl (fun m kid => <[kid := v]> m) m l).
Proof.
  intros Hl. revert m. induction Hl as [|kid l Hkid _ IH]; intros m Hm; [done|].
  cbn [foldl]. apply IH. by apply map_Forall_insert_2.
Qed.

Lemma invariant_save g :
  store_invariant g -> store_invariant (save_cooldowns g).
Proof.
  intros (Hk & Hp & Hf). split; [done|]. split; [done|].
  intros doc [= <-]. by split.
Qed.

Lemma invariant_add_pending url key g :
  store_invariant g ->
  store_invariant (add_pending_cooldown CANDIDATE_API_KEYS url key g).
Proof.
  intros (Hk & Hp & Hf). split; [done|]. split; [|done].
  unfold add_pending_cooldown. cbn [pending_cooldown_keys set_pending_cooldown_keys].
  apply map_Forall_insert_2; [|done].
  assert (Forall (fun kid => is_key_id kid = true)
            (default [] (pending_cooldown_keys g !! url))) as Hold.
  { destruct (pending_cooldown_keys g !! url) as [l|] eqn:Hl; [|constructor].
    exact (Hp _ _ Hl). }
  case_bool_decide; [done|]. apply Forall_app. split; [done|].
  repeat constructor. apply kid_of_form.
Qed.

Lemma invariant_confirm url now g :
  store_invariant g -> store_invariant (confirm_cooldown_for_url url now g).
Proof.
  intros Hg. pose proof Hg as (Hk & Hp & Hf). unfold confirm_cooldown_for_url.
  destruct (pending_cooldown_keys g !! url) as [[|kid l]|] eqn:Hl; try done.
  apply invariant_save. split; [|split; [|done]].
  - cbn [key_cooldown_until set_pending_cooldown_keys set_key_cooldown_until].
    apply mark_only_key_ids; [|done]. exact (Hp _ _ Hl).
  - cbn [pending_cooldown_keys set_pending_cooldown_keys set_key_cooldown_until].
    by apply map_Forall_insert_2.
Qed.

Lemma invariant_clear url g :
  store_invariant g -> store_invariant (clear_pending_cooldown url g).
Proof.
  intros Hg. pose proof Hg as (Hk & Hp & Hf). unfold clear_pending_cooldown.
  destruct (pending_cooldown_keys g !! url); [|done].
  split; [done|]. split; [|done]. by apply map_Forall_insert_2.
Qed.

Lemma invariant_set_key key now g :
  store_invariant g ->
  store_invariant (snd (set_key_cooldown CANDIDATE_API_KEYS key now g)).
Proof.
  intros (Hk & Hp & Hf). cbn [snd set_key_cooldown]. apply invariant_save.
  split; [|done]. apply map_Forall_insert_2; [apply kid_of_form|done].
Qed.

Lemma invariant_is_key key now g b g' :
  is_key_in_cooldown CANDIDATE_API_KEYS key now g = Ok (b, g') ->
  store_invariant g -> store_invariant g'.
Proof.
  unfold is_key_in_cooldown. intros H Hg. pose proof Hg as (Hk & Hp & Hf).
  destruct (key_cooldown_until g !! kid_of key) as [v|]; [|by injection H as _ <-].
  destruct (float_ge now v) as [[]|]; cbn [mbind result_bind bind] in H;
    [|by injection H as _ <-|done].
  injection H as _ <-. apply invariant_save. split; [|done].
  by apply map_Forall_delete.
Qed.

Lemma invariant_set_url url now g :
  store_invariant g -> store_invariant (set_url_cooldown url now g).
Proof. intros (Hk & Hp & Hf). by apply invariant_save. Qed.

Lemma invariant_is_url url now g :
  store_invariant g -> store_invariant (snd (is_url_in_cooldown url now g)).
Proof.
  intros Hg. unfold is_url_in_cooldown.
  destruct (url_cooldown_until g !! url); [|done]. by destruct (Qle_bool _ _).
Qed.

Lemma invariant_usage key g :
  store_invariant g -> store_invariant (increment_key_usage key g).
Proof. by intros (Hk & Hp & Hf). Qed.

Lemma invariant_latch g :
  store_invariant g ->
  store_invariant (set_nonessential_traffic_disabled true g).
Proof. by intros (Hk & Hp & Hf). Qed.

Lemma invariant_keys_not_in_cooldown keys now g l g' :
  keys_not_in_cooldown CANDIDATE_API_KEYS keys now g = Ok (l, g') ->
  store_invariant g -> store_invariant g'.
Proof.
  revert g l g'. induction keys as [|k keys IH]; intros g l g' H Hg.
  - by injection H as _ <-.
  - cbn [keys_not_in_cooldown] in H.
    destruct (is_key_in_cooldown CANDIDATE_API_KEYS k now g)
      as [[b g1]|] eqn:Hk; cbn [mbind result_bind bind] in H; [|done].
    destruct (keys_not_in_cooldown CANDIDATE_API_KEYS keys now g1)
      as [[l2 g2]|] eqn:Hrest; cbn [mbind result_bind bind] in H; [|done].
    injection H as _ <-. eapply IH; [exact Hrest|].
    by eapply invariant_is_key.
Qed.

Lemma invariant_urls_not_in_cooldown urls now g :
  store_invariant g ->
  store_invariant (snd (urls_not_in_cooldown urls now g)).
Proof.
  revert g. induction urls as [|u urls IH]; intros g Hg; [done|].
  cbn [urls_not_in_cooldown snd]. apply IH. by apply invariant_is_url.
Qed.

Lemma invariant_failover upstream now world body start g r s :
  failover json_loads CANDIDATE_URLS CANDIDATE_API_KEYS upstream now world
    body start g = Ok (r, s) ->
  store_invariant g -> store_invariant (glob s).
Proof.
  intros Hrun Hg.
  destruct (failover_trace _ _ _ _ _ _ _ _ _ _ _ Hrun)
    as (ks & g1 & us & g2 & Hkeys & Hurls & ->).
  assert (store_invariant g1) as Hg1.
  { unfold get_keys_sorted_by_usage, get_available_keys in Hkeys.
    destruct (keys_not_in_cooldown _ _ _ _) as [[available g1']|] eqn:Hk;
      cbn [mbind result_bind bind] in Hkeys; [|done].
    pose proof (invariant_keys_not_in_cooldown _ _ _ _ _ Hk Hg) as Hg1.
    destruct available; by injection Hkeys as _ <-. }
  assert (store_invariant g2) as Hg2.
  { unfold get_available_urls in Hurls.
    pose proof (invariant_urls_not_in_cooldown CANDIDATE_URLS start g1 Hg1) as H.
    destruct (urls_not_in_cooldown CANDIDATE_URLS start g1) as [available g2'].
    cbn [snd] in H. destruct available, CANDIDATE_URLS; by injection Hurls as _ <-. }
  apply (for_urls_globals json_loads CANDIDATE_API_KEYS upstream now world
           store_invariant);
    auto using invariant_add_pending, invariant_confirm, invariant_usage,
      invariant_latch.
Qed.

Lemma invariant_step g g' : step g g' -> store_invariant g -> store_invariant g'.
Proof.
  destruct 1; eauto using invariant_add_pending, invariant_confirm,
    invariant_clear, invariant_set_key, invariant_is_key, invariant_set_url,
    invariant_is_url, invariant_usage, invariant_save, invariant_failover.
Qed.

Lemma invariant_init data now env_disabled :
  store_invariant (module_init CANDIDATE_API_KEYS data now env_disabled).
Proof.
  split; [|split; [done|done]].
  intros kid v Hv. cbn [key_cooldown_until module_init] in Hv.
  by apply load_cooldowns_entries in Hv as [? _].
Qed.

(** The form of the names.  In every state a process can reach, whatever
    the cooldown file held at start, the key cooldowns in memory and the
    document last written by [save_cooldowns] are keyed by names of the
    form [[0-9a-f]{16}], the document being the map in memory under
    schema version 2.  An entry read from the file is kept under its own
    name only if that has the form of a KeyId in a file of version 2 or
    more, and under the KeyId of a configured key if its name is that
    key; every other entry is dropped, and when the values of the file
    are numbers the entries already expired are dropped as well
    ([load_cooldowns_exact] gives the state entry by entry). *)
Theorem cooldown_file_holds_key_ids_only :
  (forall data now env_disabled g,
     reachable data now env_disabled g ->
     only_key_ids (key_cooldown_until g) /\
     forall doc, cooldown_file g = Some doc ->
       only_key_ids (keys doc) /\
       schema_version doc = COOLDOWN_SCHEMA_VERSION) /\
  (forall g,
     cooldown_file (save_cooldowns g)
     = Some (Document COOLDOWN_SCHEMA_VERSION (key_cooldown_until g)
               (url_cooldown_until g))) /\
  (forall kid, is_key_id kid = true <->
     length (chars kid) = 16%nat /\ Forall (fun c => is_lower_hex c = true) (chars kid)) /\
  (forall key, is_key_id (_key_id key) = true) /\
  (forall data now env_disabled kid v,
     key_cooldown_until (module_init CANDIDATE_API_KEYS data now env_disabled)
       !! kid = Some v ->
     from_file CANDIDATE_API_KEYS data kid v) /\
  (forall now env_disabled members raw kid v,
     dict_get "keys" members = Some (JObj raw) ->
     Forall (fun kv => is_Some (num_of (snd kv))) raw ->
     key_cooldown_until
       (module_init CANDIDATE_API_KEYS (Some (JObj members)) now env_disabled)
       !! kid = Some v ->
     is_live now v = true).
Proof.
  split; [|split; [|split; [|split; [|split]]]].
  - intros data now env g Hreach.
    assert (store_invariant g) as (Hk & _ & Hf).
    { induction Hreach; [apply invariant_init|by eapply invariant_step]. }
    by split.
  - done.
  - intros kid. unfold is_key_id. rewrite andb_true_iff, Nat.eqb_eq.
    by rewrite forallb_forall, List.Forall_forall.
  - apply key_id_form.
  - intros data now env kid v Hv. cbn [key_cooldown_until module_init] in Hv.
    by apply load_cooldowns_entries in Hv as [_ ?].
  - intros now env members raw kid v Hkeys Hnum Hv.
    cbn [key_cooldown_until module_init] in Hv.
    by eapply load_cooldowns_live.
Qed.

End Process.

(** A file of version 1 whose entries are numbers: a configured key in
    cooldown is found again under its KeyId, provided no later entry of
    the file is kept under the same KeyId; the entries named otherwise
    are dropped. *)
Lemma legacy_file_is_migrated (CANDIDATE_API_KEYS : list string)
    (members raw : list (string * json)) (now : Q) (env_disabled : bool) :
  dict_get "keys" members = Some (JObj raw) ->
  dict_get "schema_version" members = None ->
  Forall (fun kv => is_Some (num_of (snd kv))) raw ->
  let g := module_init CANDIDATE_API_KEYS (Some (JObj members)) now
             env_disabled in
  (forall earlier later key v,
     raw = earlier ++ (key, v) :: later ->
     Forall (fun kv => kept_as CANDIDATE_API_KEYS false (fst kv)
                       <> Some (_key_id key)) later ->
     key ∈ CANDIDATE_API_KEYS -> is_live now v = true ->
     key_cooldown_until g !! _key_id key = Some v) /\
  (forall kid v,
     key_cooldown_until g !! kid = Some v ->
     is_live now v = true /\
     exists key, key ∈ CANDIDATE_API_KEYS /\ kid = _key_id key /\
                 (key, v) ∈ raw).
Proof.
  intros Hkeys Hschema Hnum g.
  assert (forall kid,
            key_cooldown_until g !! kid
            = match last_kept CANDIDATE_API_KEYS false raw kid with
              | Some v => if is_live now v then Some v else None
              | None => None
              end) as Hexact.
  { intros kid. apply load_cooldowns_exact; [done| |done].
    by rewrite Hschema. }
  split.
  - intros earlier later key v -> Hlater Hcfg Hlive. rewrite Hexact.
    assert (kept_as CANDIDATE_API_KEYS false key = Some (_key_id key)) as Hk.
    { unfold kept_as. cbn [andb]. by case_bool_decide. }
    assert (List.filter
              (fun kv => bool_decide (kept_as CANDIDATE_API_KEYS false (fst kv)
                                      = Some (_key_id key))) later = [])
      as Hnone.
    { clear -Hlater. induction Hlater as [|kv later Hkv _ IH]; [done|].
      cbn [List.filter]. rewrite bool_decide_false by done. exact IH. }
    unfold last_kept. rewrite List.filter_app. cbn [List.filter fst].
    rewrite (bool_decide_true _ Hk), Hnone, last_snoc. cbn. by rewrite Hlive.
  - intros kid v Hv. rewrite Hexact in Hv.
    destruct (last_kept CANDIDATE_API_KEYS false raw kid) as [w|] eqn:Hlast;
      [|done].
    destruct (is_live now w) eqn:Hlive; [|done]. injection Hv as ->.
    split; [done|]. unfold last_kept in Hlast.
    destruct (last _) as [[k w]|] eqn:Hl; [|done]. injection Hlast as ->.
    apply last_Some_elem_of, list_elem_of_In, filter_In in Hl as [Hin Hk].
    apply bool_decide_eq_true in Hk. cbn in Hk. unfold kept_as in Hk.
    cbn [andb] in Hk. case_bool_decide; [|done]. injection Hk as <-.
    exists k. split; [done|]. split; [done|]. by apply list_elem_of_In.
Qed.

(** A file of version 1 with plaintext keys: after the load only the
    configured key still in cooldown is left, under its KeyId. *)
Example legacy_file_is_normalized :
  map_to_list (key_cooldown_until
                 (module_init Samples.two_keys Samples.legacy_file 1000 false))
  = [(_key_id "sk-1", JInt 5000)].
Proof. by vm_compute. Qed.

Lemma cooldown_file_holds_key_ids_only_witness :
  exists doc,
    cooldown_file Samples.after_legacy_file = Some doc /\
    only_key_ids (keys doc) /\
    schema_version doc = COOLDOWN_SCHEMA_VERSION.
Proof.
  destruct (cooldown_file_holds_key_ids_only Reader.loads Samples.two_urls
              Samples.two_keys) as (Hreach & _).
  destruct (Hreach Samples.legacy_file 1000%Q false Samples.after_legacy_file)
    as (_ & Hdoc).
  - eapply reach_step; [apply reach_init|apply step_set_url].
  - eexists. split; [reflexivity|]. by apply Hdoc.
Defined.

End ProcessFacts.

(** ** The body rewriter *)

Module RewriterFacts.
Import Rewriter Samples.

Lemma dict_set_same k v (m : list (string * json)) :
  dict_get k m = Some v -> dict_set k v m = m.
Proof.
  induction m as [|[k' v'] m IH]; cbn [dict_get dict_set]; [done|].
  destruct (String.eqb k k'); [by intros [= ->]|].
  intros H. by rewrite IH.
Qed.

Lemma dict_get_set_eq k v (m : list (string * json)) :
  dict_get k (dict_set k v m) = Some v.
Proof.
  induction m as [|[k' v'] m IH]; cbn [dict_get dict_set].
  - by rewrite String.eqb_refl.
  - destruct (String.eqb k k') eqn:E; cbn [dict_get]; by rewrite E.
Qed.



Section Rewriter.
Variable json_loads : string -> option json.
Variable float_repr : Q -> string.

Abbreviation process_request_body := (process_request_body json_loads float_repr).

(** *** When the body comes back as it is *)

(** X20.  The body comes back byte for byte when no replacement is configured,
    whatever the body is, and, with a replacement, when the body does
    not decode, when the object has no ["system"] member, when that
    member is not an array or is an empty array, and when its first
    element is not an object with a ["text"] member. *)
Lemma process_request_body_unchanged insert body :
  process_request_body None insert body = Ok body /\
  forall replacement,
    (json_loads body = None ->
     process_request_body (Some replacement) insert body = Ok body) /\
    (forall members,
        json_loads body = Some (JObj members) ->
        match dict_get "system" members with
        | None | Some (JArr []) => True
        | Some (JArr (JObj first :: _)) => dict_get "text" first = None
        | Some (JArr (_ :: _)) => True
        | Some _ => True
        end ->
        process_request_body (Some replacement) insert body = Ok body).
Proof.
  split; [done|]. intros replacement. split.
  - intros Hl. unfold Rewriter.process_request_body. by rewrite Hl.
  - intros members Hl Hshape. unfold Rewriter.process_request_body, rewrite.
    rewrite Hl. cbn [contains_system mbind result_bind bind].
    destruct (dict_get "system" members) as [sys|] eqn:Hs.
    + rewrite bool_decide_true by eauto. cbn [negb].
      destruct sys as [| | | | |[|[| | | | | |first] rest]|]; try done.
      by rewrite Hshape.
    + rewrite bool_decide_false by (by intros [? ?]). done.
Qed.

(** *** Replacement *)

(** What the function returns once the value was changed: the compact
    text of the new value, unless that text holds a surrogate code
    point, in which case [encode] raises and the body is returned as it
    came. *)
Lemma process_request_body_changed replacement insert body data data' :
  json_loads body = Some data ->
  rewrite insert replacement data = Ok (Some data') ->
  process_request_body (Some replacement) insert body
  = Ok (if has_surrogate (chars (dumps float_repr data')) then body
        else dumps float_repr data').
Proof.
  intros Hl Hrw. unfold Rewriter.process_request_body. rewrite Hl, Hrw.
  cbn [mbind result_bind bind]. unfold encode_utf8.
  by destruct (has_surrogate _).
Qed.


(** C2, where the code departs from it.  A body that decodes to an
    object whose [system[0]] is an object with a ["text"] member is not
    rewritten when that member is [null], a boolean or a number: the
    line that prints the original text takes its [len] and the function
    raises [TypeError].  A body that decodes to something else than an
    object and has no ['system'] field is not returned unchanged either
    when it is [null], a boolean or a number (the membership test
    raises), nor when it is an array or a string in which ["system"]
    occurs (the subscript raises). *)
Theorem process_request_body_raises replacement insert body :
  (forall members first rest text,
      json_loads body = Some (JObj members) ->
      dict_get "system" members = Some (JArr (JObj first :: rest)) ->
      dict_get "text" first = Some text ->
      match text with
      | JNull | JBool _ | JInt _ | JFloat _ => True
      | _ => False
      end ->
      process_request_body (Some replacement) insert body = Raise TypeError) /\
  (forall data,
      json_loads body = Some data ->
      match data with
      | JNull | JBool _ | JInt _ | JFloat _ => True
      | JArr items => JStr "system" ∈ items
      | JStr s => str_in "system" s = true
      | JObj _ => False
      end ->
      process_request_body (Some replacement) insert body = Raise TypeError).
Proof.
  split.
  - intros members first rest text Hl Hs Ht Htype.
    unfold Rewriter.process_request_body, rewrite. rewrite Hl.
    cbn [contains_system mbind result_bind bind]. rewrite Hs.
    rewrite bool_decide_true by eauto. cbn [negb]. rewrite Ht.
    by destruct text.
  - intros data Hl Htype.
    unfold Rewriter.process_request_body, rewrite. rewrite Hl.
    destruct data as [| | | |s|items|]; try done.
    + cbn [contains_system mbind result_bind bind]. by rewrite Htype.
    + cbn [contains_system mbind result_bind bind].
      assert (existsb (fun v => match v with
                                | JStr s => String.eqb s "system"
                                | _ => false
                                end) items = true) as ->; [|done].
      apply existsb_exists. exists (JStr "system").
      split; [by apply list_elem_of_In|]. apply String.eqb_refl.
Qed.

(** *** Insert mode *)

(** C6 (as amended).  In insert mode, for a body whose [system[0].text]
    already equals the replacement, the rewrite leaves the JSON value as
    it is, and the array at its length, exactly when the replacement
    contains the keyword "Claude Code" (in any case); when it does not, a
    new element holding the replacement is inserted at index 0 once more
    and the array grows by one.  The function returns the compact text
    of the value it arrived at; when that text holds a surrogate code
    point it cannot be encoded and the function returns the body as it
    came, in the one case as in the other. *)
Theorem insert_mode_on_replaced_body replacement body members first rest :
  json_loads body = Some (JObj members) ->
  dict_get "system" members = Some (JArr (JObj first :: rest)) ->
  dict_get "text" first = Some (JStr replacement) ->
  let data := JObj members in
  let grown :=
    JObj (dict_set "system"
            (JArr (new_element replacement :: JObj first :: rest)) members) in
  let returned value :=
    if has_surrogate (chars (dumps float_repr value)) then body
    else dumps float_repr value in
  (str_in (lower CLAUDE_CODE_KEYWORD) (lower replacement) = true ->
     rewrite true replacement data = Ok (Some data) /\
     process_request_body (Some replacement) true body = Ok (returned data)) /\
  (str_in (lower CLAUDE_CODE_KEYWORD) (lower replacement) = false ->
     rewrite true replacement data = Ok (Some grown) /\
     process_request_body (Some replacement) true body = Ok (returned grown) /\
     system_length grown = Some (S (S (length rest))) /\
     system_length data = Some (S (length rest))).
Proof.
  intros Hl Hs Ht data grown.
  assert (forall b, str_in (lower CLAUDE_CODE_KEYWORD) (lower replacement) = b ->
            rewrite true replacement data
            = Ok (Some (if b then data else grown))) as Hrw.
  { intros b Hb. unfold rewrite. subst data.
    cbn [contains_system mbind result_bind bind]. rewrite Hs.
    rewrite bool_decide_true by eauto. cbn [negb]. rewrite Ht.
    cbn [print_original text_lower mbind result_bind bind]. rewrite Hb.
    destruct b; [|done].
    by rewrite (dict_set_same "text" _ first Ht), (dict_set_same "system" _ _ Hs). }
  intros returned.
  split; intros Hk; specialize (Hrw _ Hk); cbn beta iota in Hrw.
  - split; [done|]. by apply (process_request_body_changed _ _ _ data).
  - split; [done|]. split; [|split].
    + by apply (process_request_body_changed _ _ _ data).
    + subst grown. unfold system_length. by rewrite dict_get_set_eq.
    + subst data. unfold system_length. by rewrite Hs.
Qed.

End Rewriter.

(** Scenario S2. *)
Example rewriter_replace :
  process_request_body Reader.loads Reader.no_float (Some "X") false body_claude
  = Ok body_replaced.
Proof. by vm_compute. Qed.

(** A body whose model name holds the escape of a surrogate on its own:
    the text written back cannot be encoded and the body comes back as
    it was, the system text not replaced. *)
Example surrogate_body_is_kept :
  process_request_body loads_surrogate Reader.no_float (Some "X") false
    body_surrogate
  = Ok body_surrogate /\
  has_surrogate (chars lone_surrogate) = true.
Proof. by vm_compute. Qed.

(** Scenario S3. *)
Example rewriter_insert :
  process_request_body Reader.loads Reader.no_float (Some "X") true body_hello
  = Ok (jq "{'system':[{'type':'text','text':'X','cache_control':{'type':'ephemeral'}},{'type':'text','text':'Hello'}],'model':'m'}").
Proof. by vm_compute. Qed.

Lemma process_request_body_raises_witness :
  process_request_body Reader.loads Reader.no_float (Some "X") false
    body_number_text = Raise TypeError /\
  process_request_body Reader.loads Reader.no_float (Some "X") false "5"
  = Raise TypeError.
Proof.
  split.
  - destruct (process_request_body_raises Reader.loads Reader.no_float
                "X" false body_number_text) as [H _].
    eapply (H _ _ _ (JInt 5)); [by vm_compute|reflexivity|reflexivity|exact I].
  - destruct (process_request_body_raises Reader.loads Reader.no_float
                "X" false "5") as [_ H].
    eapply (H (JInt 5)); [by vm_compute|exact I].
Defined.

(** C6 as stated fails: the replacement is "X", insert mode is on, and
    the body is what the rewriter produced before. *)
Lemma insert_mode_inserts_again :
  exists data data',
    Reader.loads body_replaced = Some data /\
    ~ insert_is_idempotent "X" data /\
    rewrite true "X" data = Ok (Some data') /\
    system_length data = Some 1%nat /\ system_length data' = Some 2%nat.
Proof.
  eexists _, _. split; [by vm_compute|]. split; [|by vm_compute].
  intros Hclaim. specialize (Hclaim _ _ _ eq_refl eq_refl eq_refl).
  by vm_compute in Hclaim.
Qed.

Lemma insert_mode_on_replaced_body_witness :
  process_request_body Reader.loads Reader.no_float
    (Some "You are Claude Code.") true body_claude = Ok body_claude /\
  process_request_body Reader.loads Reader.no_float (Some "X") true body_replaced
  = Ok (jq "{'system':[{'type':'text','text':'X','cache_control':{'type':'ephemeral'}},{'type':'text','text':'X'}],'model':'m'}").
Proof.
  split.
  - destruct (insert_mode_on_replaced_body Reader.loads Reader.no_float
                "You are Claude Code." body_claude
                [("system", JArr [JObj [("type", JStr "text");
                                        ("text", JStr "You are Claude Code.")]]);
                 ("model", JStr "m")]
                [("type", JStr "text"); ("text", JStr "You are Claude Code.")]
                []) as [Hsame _]; [by vm_compute|reflexivity|reflexivity|].
    destruct Hsame as [_ ->]; [by vm_compute|]. by vm_compute.
  - destruct (insert_mode_on_replaced_body Reader.loads Reader.no_float
                "X" body_replaced
                [("system", JArr [JObj [("type", JStr "text");
                                        ("text", JStr "X")]]);
                 ("model", JStr "m")]
                [("type", JStr "text"); ("text", JStr "X")]
                []) as [_ Hgrow]; [by vm_compute|reflexivity|reflexivity|].
    destruct Hgrow as (_ & -> & _); [by vm_compute|]. by vm_compute.
Defined.

End RewriterFacts.

(** ** More on the cooldown store *)

Module StoreFacts.
Import Cooldown Lifecycle KeyIdFacts CooldownFacts SortedFacts KeyOrderFacts.

Section Least.
Context {A K : Type} (leb : K -> K -> bool) (f : A -> K).
Hypothesis leb_total : forall a b, leb a b = true \/ leb b a = true.
Hypothesis leb_trans :
  forall a b c, leb a b = true -> leb b c = true -> leb a c = true.

Lemma head_insert_sorted (x : A) (l : list A) :
  head (insert_sorted leb f x l)
  = Some (match head l with
          | Some m => if leb (f x) (f m) then x else m
          | None => x
          end).
Proof. destruct l as [|y l]; [done|]. cbn. by destruct (leb (f x) (f y)). Qed.

Lemma head_sorted_cons (x : A) (l : list A) :
  head (sorted leb f (x :: l))
  = Some (match head (sorted leb f l) with
          | Some m => if leb (f x) (f m) then x else m
          | None => x
          end).
Proof. cbn [sorted foldr]. apply head_insert_sorted. Qed.

Lemma head_sorted_step (x y : A) (l : list A) :
  head (sorted leb f (x :: y :: l))
  = head (sorted leb f ((if leb (f x) (f y) then x else y) :: l)).
Proof.
  rewrite (head_sorted_cons x), (head_sorted_cons y), head_sorted_cons.
  f_equal. destruct (head (sorted leb f l)) as [m|].
  - destruct (leb (f x) (f y)) eqn:Hxy, (leb (f y) (f m)) eqn:Hym;
      rewrite ?Hxy, ?Hym; try done.
    + by rewrite (leb_trans _ _ _ Hxy Hym).
    + destruct (leb (f x) (f m)) eqn:Hxm; [|done].
      destruct (leb_total (f x) (f y)) as [H|H]; [congruence|].
      by rewrite (leb_trans _ _ _ H Hxm) in Hym.
  - by destruct (leb (f x) (f y)).
Qed.

(** The left fold of [min] and the head of the stable sort name the same
    element: the first one with the least key. *)
Lemma foldl_min_head (x : A) (l : list A) :
  Some (foldl (fun best y => if leb (f best) (f y) then best else y) x l)
  = head (sorted leb f (x :: l)).
Proof.
  revert x. induction l as [|y l IH]; intros x; [done|].
  cbn [foldl]. by rewrite IH, head_sorted_step.
Qed.
End Least.

Lemma py_min_head {A} (f : A -> Q) (l : list A) :
  py_min f l = head (sorted Qle_bool f l).
Proof.
  destruct l as [|x l]; [done|]. unfold py_min.
  apply foldl_min_head; [apply Qleb_total|apply Qleb_trans].
Qed.

Section Config.
Variable CANDIDATE_URLS : list string.
Variable CANDIDATE_API_KEYS : list string.

(** X1.  [get_least_used_key()] is the first element of
    [get_keys_sorted_by_usage()], and [None] exactly when that list is
    empty; both calls leave the same store and raise in the same
    cases. *)
Theorem least_used_key_is_first_sorted (now : Q) (g : globals) :
  get_least_used_key CANDIDATE_API_KEYS now g
  = '(l, g') ← get_keys_sorted_by_usage CANDIDATE_API_KEYS now g;
    Ok (head l, g').
Proof.
  unfold get_least_used_key, get_keys_sorted_by_usage.
  destruct (get_available_keys CANDIDATE_API_KEYS now g) as [[l g']|e];
    cbn [mbind result_bind bind]; [|done].
  destruct l as [|k l]; cbn [mbind result_bind bind]; [|done].
  by rewrite py_min_head.
Qed.

(** *** The URLs *)

Lemma urls_not_in_cooldown_spec (now : Q) (urls : list string) (g : globals) :
  forall g',
    url_cooldown_until g' ⊆ url_cooldown_until g ->
    (forall u t, url_cooldown_until g !! u = Some t ->
                 url_cooldown_until g' !! u = None -> Qle_bool t now = true) ->
    let r := urls_not_in_cooldown urls now g' in
    fst r = List.filter (fun u => negb (url_cooling g now u)) urls /\
    url_cooldown_until (snd r) ⊆ url_cooldown_until g /\
    (forall u t, url_cooldown_until g !! u = Some t ->
                 url_cooldown_until (snd r) !! u = None ->
                 Qle_bool t now = true) /\
    key_cooldown_until (snd r) = key_cooldown_until g' /\
    pending_cooldown_keys (snd r) = pending_cooldown_keys g' /\
    key_usage_count (snd r) = key_usage_count g' /\
    nonessential_traffic_disabled (snd r) = nonessential_traffic_disabled g' /\
    cooldown_file (snd r) = cooldown_file g'.
Proof.
  induction urls as [|u urls IH]; intros g' Hsub Hdel; [by repeat split|].
  cbn [urls_not_in_cooldown List.filter fst snd].
  set (r1 := is_url_in_cooldown u now g').
  assert (fst r1 = url_cooling g now u /\
          url_cooldown_until (snd r1) ⊆ url_cooldown_until g /\
          (forall u t, url_cooldown_until g !! u = Some t ->
                       url_cooldown_until (snd r1) !! u = None ->
                       Qle_bool t now = true) /\
          key_cooldown_until (snd r1) = key_cooldown_until g' /\
          pending_cooldown_keys (snd r1) = pending_cooldown_keys g' /\
          key_usage_count (snd r1) = key_usage_count g' /\
          nonessential_traffic_disabled (snd r1)
          = nonessential_traffic_disabled g' /\
          cooldown_file (snd r1) = cooldown_file g')
    as (Hb & Hsub1 & Hdel1 & Hk & Hp & Hc & Hn & Hf).
  { subst r1. unfold is_url_in_cooldown, url_cooling.
    destruct (url_cooldown_until g' !! u) as [t|] eqn:Hu'.
    - rewrite (lookup_weaken _ _ _ _ Hu' Hsub).
      destruct (Qle_bool t now) eqn:Ht; cbn; [|by repeat split].
      repeat split; try done.
      + etrans; [apply delete_subseteq|done].
      + intros u0 t0 H0 Hnone. destruct (decide (u0 = u)) as [->|Hne].
        * pose proof (lookup_weaken _ _ _ _ Hu' Hsub). congruence.
        * rewrite lookup_delete_ne in Hnone by done. by eapply Hdel.
    - destruct (url_cooldown_until g !! u) as [t|] eqn:Hu; cbn.
      + rewrite (Hdel _ _ Hu Hu'). by repeat split.
      + by repeat split. }
  destruct (IH (snd r1) Hsub1 Hdel1) as (Hl & Hsub2 & Hdel2 & Hk2 & Hp2 & Hc2 & Hn2 & Hf2).
  rewrite Hl, Hb. split; [by destruct (url_cooling g now u)|].
  repeat split; try done; congruence.
Qed.

Lemma urls_all_cooling (now : Q) (urls : list string) (g : globals) :
  (forall u, u ∈ urls -> url_cooling g now u = true) ->
  urls_not_in_cooldown urls now g = ([], g).
Proof.
  induction urls as [|u urls IH]; intros Hall; [done|].
  cbn [urls_not_in_cooldown].
  assert (is_url_in_cooldown u now g = (true, g)) as ->.
  { pose proof (Hall u ltac:(left)) as Hu.
    unfold url_cooling in Hu. unfold is_url_in_cooldown.
    destruct (url_cooldown_until g !! u) as [t|]; [|done].
    by destruct (Qle_bool t now). }
  cbn [fst snd]. rewrite IH; [done|]. intros u' Hu'. apply Hall. by right.
Qed.

(** X2.  [get_available_urls()] returns the configured URLs that are not in
    cooldown, in configuration order; when every configured URL is in
    cooldown it returns the one whose cooldown ends first.  The list is
    empty only when no URL is configured, and the call changes nothing
    but the URL records it found expired. *)
Theorem get_available_urls_spec (now : Q) (g : globals) :
  let available :=
    List.filter (fun u => negb (url_cooling g now u)) CANDIDATE_URLS in
  let r := get_available_urls CANDIDATE_URLS now g in
  (available <> [] -> fst r = available) /\
  (available = [] ->
     fst r = option_list
               (head (sorted Qle_bool
                        (fun u => default 0%Q (url_cooldown_until g !! u))
                        CANDIDATE_URLS)) /\
     snd r = g) /\
  (fst r = [] <-> CANDIDATE_URLS = []) /\
  fst r ⊆ CANDIDATE_URLS /\
  url_cooldown_until (snd r) ⊆ url_cooldown_until g /\
  key_cooldown_until (snd r) = key_cooldown_until g /\
  pending_cooldown_keys (snd r) = pending_cooldown_keys g /\
  key_usage_count (snd r) = key_usage_count g /\
  cooldown_file (snd r) = cooldown_file g.
Proof.
  intros available r.
  destruct (urls_not_in_cooldown_spec now CANDIDATE_URLS g g)
    as (Hl & Hsub & Hdel & Hk & Hp & Hc & Hn & Hf); [done|congruence|].
  fold available in Hl.
  assert (available ⊆ CANDIDATE_URLS) as Hincl.
  { intros u Hu. apply list_elem_of_In, filter_In in Hu as [Hu _].
    by apply list_elem_of_In. }
  subst r. unfold get_available_urls.
  destruct available as [|a rest] eqn:Hav.
  - assert (urls_not_in_cooldown CANDIDATE_URLS now g = ([], g)) as Hrun.
    { apply urls_all_cooling. intros u Hu.
      destruct (url_cooling g now u) eqn:E; [done|].
      assert (u ∈ available) as Hin.
      { apply list_elem_of_In, filter_In. split; [by apply list_elem_of_In|].
        by rewrite E. }
      rewrite Hav in Hin. by apply elem_of_nil in Hin. }
    rewrite Hrun. clear Hl Hsub Hdel Hk Hp Hc Hn Hf Hrun.
    destruct CANDIDATE_URLS as [|u0 urls] eqn:Hcfg; cbn [fst snd].
    + by repeat split.
    + rewrite py_min_head, head_sorted_cons. cbn [option_list].
      repeat split; try done.
      intros u Hu. apply list_elem_of_singleton in Hu as ->.
      destruct (head (sorted Qle_bool _ urls)) as [m|] eqn:Hm; [|by left].
      destruct (Qle_bool _ _); [by left|]. right.
      apply head_Some_elem_of in Hm. by rewrite sorted_perm in Hm.
  - destruct (urls_not_in_cooldown CANDIDATE_URLS now g) as [l g'].
    cbn [fst snd] in *. subst l. cbn [fst snd].
    repeat split; try done.
    intros ->. specialize (Hincl a ltac:(left)). by apply elem_of_nil in Hincl.
Qed.

(** What [get_available_urls()] leaves alone. *)
Lemma available_urls_frame (now : Q) (g : globals) :
  let r := get_available_urls CANDIDATE_URLS now g in
  url_cooldown_until (snd r) ⊆ url_cooldown_until g /\
  key_cooldown_until (snd r) = key_cooldown_until g /\
  pending_cooldown_keys (snd r) = pending_cooldown_keys g /\
  key_usage_count (snd r) = key_usage_count g /\
  nonessential_traffic_disabled (snd r) = nonessential_traffic_disabled g /\
  cooldown_file (snd r) = cooldown_file g.
Proof.
  destruct (urls_not_in_cooldown_spec now CANDIDATE_URLS g g)
    as (_ & Hsub & _ & Hk & Hp & Hc & Hn & Hf); [done|congruence|].
  unfold get_available_urls.
  destruct (urls_not_in_cooldown CANDIDATE_URLS now g) as [l g'].
  cbn [snd] in *. by destruct l, CANDIDATE_URLS.
Qed.

End Config.
End StoreFacts.

(** ** The pending buffer and the restart *)

Module PendingFacts.
Import Cooldown Engine Process Lifecycle KeyIdFacts CooldownFacts KeyOrderFacts
  EngineFacts ProcessFacts.

Section Process.
Variable json_loads : string -> option json.
Variable CANDIDATE_URLS : list string.
Variable CANDIDATE_API_KEYS : list string.

Lemma distinct_add_pending url key g :
  pending_distinct g ->
  pending_distinct (add_pending_cooldown CANDIDATE_API_KEYS url key g).
Proof.
  intros Hg. unfold pending_distinct, add_pending_cooldown.
  cbn [pending_cooldown_keys set_pending_cooldown_keys].
  apply map_Forall_insert_2; [|done].
  assert (NoDup (default [] (pending_cooldown_keys g !! url))) as Hold.
  { destruct (pending_cooldown_keys g !! url) as [l|] eqn:Hl; [|constructor].
    exact (Hg _ _ Hl). }
  case_bool_decide as Hin; [done|].
  apply NoDup_app. split; [done|]. split; [|apply NoDup_singleton].
  intros x Hx ->%list_elem_of_singleton. done.
Qed.

Lemma distinct_confirm url now g :
  pending_distinct g -> pending_distinct (confirm_cooldown_for_url url now g).
Proof.
  intros Hg. unfold confirm_cooldown_for_url.
  destruct (pending_cooldown_keys g !! url) as [[|kid l]|]; try done.
  unfold pending_distinct. cbn. apply map_Forall_insert_2; [constructor|done].
Qed.

Lemma distinct_clear url g :
  pending_distinct g -> pending_distinct (clear_pending_cooldown url g).
Proof.
  intros Hg. unfold clear_pending_cooldown.
  destruct (pending_cooldown_keys g !! url); [|done].
  unfold pending_distinct. cbn. apply map_Forall_insert_2; [constructor|done].
Qed.

Lemma pending_is_key key now g b g' :
  is_key_in_cooldown CANDIDATE_API_KEYS key now g = Ok (b, g') ->
  pending_cooldown_keys g' = pending_cooldown_keys g.
Proof.
  unfold is_key_in_cooldown. intros H.
  destruct (key_cooldown_until g !! _) as [v|]; [|by injection H as _ <-].
  destruct (float_ge now v) as [[]|]; cbn [mbind result_bind bind] in H;
    [|by injection H as _ <-|done].
  by injection H as _ <-.
Qed.

Lemma pending_keys_not_in_cooldown keys now g l g' :
  keys_not_in_cooldown CANDIDATE_API_KEYS keys now g = Ok (l, g') ->
  pending_cooldown_keys g' = pending_cooldown_keys g.
Proof.
  revert g l g'. induction keys as [|k keys IH]; intros g l g' H.
  - by injection H as _ <-.
  - cbn [keys_not_in_cooldown] in H.
    destruct (is_key_in_cooldown CANDIDATE_API_KEYS k now g)
      as [[b g1]|] eqn:Hk; cbn [mbind result_bind bind] in H; [|done].
    destruct (keys_not_in_cooldown CANDIDATE_API_KEYS keys now g1)
      as [[l2 g2]|] eqn:Hrest; cbn [mbind result_bind bind] in H; [|done].
    injection H as _ <-. rewrite (IH _ _ _ Hrest). by eapply pending_is_key.
Qed.

Lemma pending_sorted_keys now g l g' :
  get_keys_sorted_by_usage CANDIDATE_API_KEYS now g = Ok (l, g') ->
  pending_cooldown_keys g' = pending_cooldown_keys g.
Proof.
  unfold get_keys_sorted_by_usage, get_available_keys. intros H.
  destruct (keys_not_in_cooldown _ _ _ _) as [[available g1]|] eqn:Hk;
    cbn [mbind result_bind bind] in H; [|done].
  apply pending_keys_not_in_cooldown in Hk.
  destruct available; by injection H as _ <-.
Qed.

Lemma distinct_failover upstream now world body start g r s :
  failover json_loads CANDIDATE_URLS CANDIDATE_API_KEYS upstream now world
    body start g = Ok (r, s) ->
  pending_distinct g -> pending_distinct (glob s).
Proof.
  intros Hrun Hg.
  destruct (failover_trace _ _ _ _ _ _ _ _ _ _ _ Hrun)
    as (ks & g1 & us & g2 & Hkeys & Hurls & ->).
  assert (pending_distinct g2) as Hg2.
  { unfold pending_distinct.
    pose proof (StoreFacts.available_urls_frame CANDIDATE_URLS start g1)
      as (_ & _ & Hp & _).
    rewrite Hurls in Hp. cbn [snd] in Hp.
    by rewrite Hp, (pending_sorted_keys _ _ _ _ Hkeys). }
  apply (for_urls_globals json_loads CANDIDATE_API_KEYS upstream now world
           pending_distinct);
    auto using distinct_add_pending, distinct_confirm.
Qed.

(** X3.  No pending list ever names a KeyId twice: the lists start empty and
    [add_pending_cooldown] appends a KeyId only when it is not there. *)
Theorem pending_lists_have_no_duplicates data now env_disabled g :
  reachable json_loads CANDIDATE_URLS CANDIDATE_API_KEYS data now
    env_disabled g ->
  forall url l, pending_cooldown_keys g !! url = Some l -> NoDup l.
Proof.
  intros Hreach. change (pending_distinct g).
  induction Hreach as [|g g' _ IH Hstep].
  - unfold pending_distinct. cbn. apply map_Forall_empty.
  - destruct Hstep;
      eauto using distinct_add_pending, distinct_confirm, distinct_clear,
        distinct_failover.
    + unfold pending_distinct. by erewrite pending_is_key.
    + unfold pending_distinct, is_url_in_cooldown.
      destruct (url_cooldown_until g !! url); [|done].
      by destruct (Qle_bool _ _).
Qed.

End Process.
End PendingFacts.

(** ** Restart, and cooldowns as the requests see them *)

Module RestartFacts.
Import Cooldown Engine Process Lifecycle KeyIdFacts CooldownFacts KeyOrderFacts
  SortedFacts EngineFacts ProcessFacts StoreFacts PendingFacts.

Section Config.
Variable json_loads : string -> option json.
Variable CANDIDATE_URLS : list string.
Variable CANDIDATE_API_KEYS : list string.

Lemma normalize_new_format (raw : list (string * json)) :
  Forall (fun kv => is_key_id (fst kv) = true) raw ->
  NoDup (raw.*1) ->
  forall acc : gmap string json,
    foldl (normalize_step CANDIDATE_API_KEYS (JInt 2)) (Ok acc) raw
    = Ok (list_to_map raw ∪ acc).
Proof.
  induction 1 as [|[k v] raw Hk _ IH]; intros Hnd acc.
  - cbn. by rewrite (left_id_L ∅ (∪)).
  - apply NoDup_cons in Hnd as [Hnotin Hnd]. cbn [foldl].
    unfold normalize_step at 2. cbn [mbind result_bind bind fst snd] in *.
    change (version_ge2 (JInt 2)) with (@Ok bool true).
    cbn [mbind result_bind bind]. rewrite Hk. cbn [andb].
    rewrite IH by done. f_equal. cbn [list_to_map foldr fst snd].
    rewrite <- insert_union_l. symmetry. apply insert_union_r.
    by apply not_elem_of_list_to_map_1.
Qed.

(** X4.  Restart.  When the process starts from the file that
    [save_cooldowns] wrote (KeyIds for names, time stamps for values), it
    finds again exactly the key cooldowns of that file that end after
    the time of the start; it has no URL cooldown and no pending key,
    whatever the file held. *)
Theorem restart_keeps_live_key_cooldowns
    (doc : document) (data : json) (now : Q) (env_disabled : bool) :
  schema_version doc = COOLDOWN_SCHEMA_VERSION ->
  only_key_ids (keys doc) ->
  map_Forall (fun _ v => is_Some (num_of v)) (keys doc) ->
  read_back doc data ->
  let g := module_init CANDIDATE_API_KEYS (Some data) now env_disabled in
  key_cooldown_until g
  = filter (fun kv => is_live now (snd kv) = true) (keys doc) /\
  url_cooldown_until g = ∅ /\
  pending_cooldown_keys g = ∅ /\
  cooldown_file g = None.
Proof.
  intros Hversion Hids Hnum (raw_keys & raw_urls & -> & Hkeys & Hurls) g.
  split; [|done]. subst g. cbn [key_cooldown_until module_init].
  assert (list_to_map raw_keys = keys doc) as Hmap.
  { rewrite <- (list_to_map_to_list (keys doc)).
    apply list_to_map_proper; [|done].
    rewrite Hkeys. apply NoDup_fst_map_to_list. }
  assert (normalize CANDIDATE_API_KEYS (JInt 2) raw_keys = Ok (keys doc)) as Hn.
  { unfold normalize. rewrite normalize_new_format.
    - by rewrite (right_id_L ∅ (∪)), Hmap.
    - apply Forall_forall. intros [k v] Hkv. cbn.
      rewrite Hkeys in Hkv. apply elem_of_map_to_list in Hkv.
      exact (Hids _ _ Hkv).
    - rewrite Hkeys. apply NoDup_fst_map_to_list. }
  unfold load_cooldowns. rewrite Hversion.
  cbn [dict_get String.eqb Ascii.eqb Bool.eqb default from_option id].
  unfold COOLDOWN_SCHEMA_VERSION. rewrite Hn.
  unfold keep_live. rewrite decide_True by done.
  by repeat case_match.
Qed.

(** *** A configured key that looks like a KeyId *)

(** The record held under the name [key], and the name in every document
    on disk. *)
Abbreviation named key g :=
  (is_Some (key_cooldown_until g !! key) /\
   forall doc, cooldown_file g = Some doc -> is_Some (keys doc !! key)).

Lemma named_is_key key v k start g b g' :
  is_key_in_cooldown CANDIDATE_API_KEYS k start g = Ok (b, g') ->
  key_cooldown_until g !! key = Some v -> is_live start v = true ->
  named key g ->
  key_cooldown_until g' !! key = Some v /\ named key g'.
Proof.
  unfold is_key_in_cooldown. intros H Hv Hlive Hnamed.
  destruct (key_cooldown_until g !! _) as [u|] eqn:Hu;
    [|by injection H as _ <-].
  unfold float_ge in H. destruct (num_of u) as [q|] eqn:Hq; [|done].
  cbn [mbind result_bind bind] in H.
  destruct (Qle_bool q start) eqn:Hexp; [|by injection H as _ <-].
  injection H as _ <-.
  assert (key <> kid_of CANDIDATE_API_KEYS k) as Hne.
  { intros ->. assert (u = v) as -> by congruence.
    unfold is_live in Hlive. by rewrite Hq, Hexp in Hlive. }
  cbn. rewrite lookup_delete_ne by done.
  repeat split; [done|by eexists|].
  intros doc [= <-]. cbn. rewrite lookup_delete_ne by done. by eexists.
Qed.

Lemma named_keys_not_in_cooldown key v keys start g l g' :
  keys_not_in_cooldown CANDIDATE_API_KEYS keys start g = Ok (l, g') ->
  key_cooldown_until g !! key = Some v -> is_live start v = true ->
  named key g ->
  key_cooldown_until g' !! key = Some v /\ named key g'.
Proof.
  revert g l g'. induction keys as [|k keys IH]; intros g l g' H Hv Hlive Hn.
  - by injection H as _ <-.
  - cbn [keys_not_in_cooldown] in H.
    destruct (is_key_in_cooldown CANDIDATE_API_KEYS k start g)
      as [[b g1]|] eqn:Hk; cbn [mbind result_bind bind] in H; [|done].
    destruct (keys_not_in_cooldown CANDIDATE_API_KEYS keys start g1)
      as [[l2 g2]|] eqn:Hrest; cbn [mbind result_bind bind] in H; [|done].
    injection H as _ <-.
    destruct (named_is_key key v k start g b g1 Hk Hv Hlive Hn) as [Hv1 Hn1].
    by eapply IH.
Qed.

Lemma named_confirm key url now g :
  named key g -> named key (confirm_cooldown_for_url url now g).
Proof.
  intros [[v Hv] Hfile]. unfold confirm_cooldown_for_url.
  destruct (pending_cooldown_keys g !! url) as [[|kid l]|]; try done.
  assert (is_Some (foldl (fun m kid0 =>
                            <[kid0 := JFloat (cooldown_end now
                                                KEY_COOLDOWN_HOURS)]> m)
                         (key_cooldown_until g) (kid :: l) !! key)) as Hm.
  { rewrite mark_lookup. case_bool_decide; by eexists. }
  split; [exact Hm|]. by intros doc [= <-].
Qed.

(** C7, where the code departs from it.  A configured key that has itself
    the form of a KeyId (sixteen lowercase hexadecimal digits) and is
    named in a cooldown file of version 2 is taken for a KeyId:
    [load_cooldowns] keeps its record under the name of the key, and
    every document that the next request writes while that record has
    not expired names the key in plaintext. *)
Theorem plaintext_key_is_written_back
    (key : string) (v : json) (members raw : list (string * json))
    (now : Q) (env_disabled : bool) :
  key ∈ CANDIDATE_API_KEYS ->
  is_key_id key = true ->
  version_ge2 (default (JInt 1) (dict_get "schema_version" members))
  = Ok true ->
  dict_get "keys" members = Some (JObj raw) ->
  Forall (fun kv => is_Some (num_of (snd kv))) raw ->
  last_kept CANDIDATE_API_KEYS true raw key = Some v ->
  is_live now v = true ->
  let g := module_init CANDIDATE_API_KEYS (Some (JObj members)) now
             env_disabled in
  kept_as CANDIDATE_API_KEYS true key = Some key /\
  key_cooldown_until g !! key = Some v /\
  forall upstream t world body start r s doc,
    is_live start v = true ->
    failover json_loads CANDIDATE_URLS CANDIDATE_API_KEYS upstream t world
      body start g = Ok (r, s) ->
    cooldown_file (glob s) = Some doc ->
    is_Some (keys doc !! key) /\
    ~ no_plaintext_key CANDIDATE_API_KEYS (glob s).
Proof.
  intros Hcfg Hform Hversion Hkeys Hnum Hlast Hlive g.
  assert (key_cooldown_until g !! key = Some v) as Hv.
  { subst g. rewrite (load_cooldowns_exact _ members raw true) by done.
    by rewrite Hlast, Hlive. }
  split; [|split; [exact Hv|]].
  { unfold kept_as. by rewrite Hform. }
  intros upstream t world body start r s doc Hlive' Hrun Hdoc.
  assert (named key (glob s)) as [_ Hfile].
  { destruct (failover_trace _ _ _ _ _ _ _ _ _ _ _ Hrun)
      as (ks & g1 & us & g2 & Hsel & Hurls & ->).
    assert (named key g) as Hn.
    { split; [by eexists|]. intros doc0 Hdoc0. by subst g. }
    assert (named key g1) as Hn1.
    { unfold get_keys_sorted_by_usage, get_available_keys in Hsel.
      destruct (keys_not_in_cooldown _ _ _ _) as [[available g1']|] eqn:Hk;
        cbn [mbind result_bind bind] in Hsel; [|done].
      destruct (named_keys_not_in_cooldown key v _ _ _ _ _ Hk Hv Hlive' Hn)
        as [_ Hn1].
      destruct available; by injection Hsel as _ <-. }
    assert (named key g2) as Hn2.
    { pose proof (available_urls_frame CANDIDATE_URLS start g1)
        as (_ & Hk & _ & _ & _ & Hf).
      rewrite Hurls in Hk, Hf. cbn [snd] in Hk, Hf. by rewrite Hk, Hf. }
    apply (for_urls_globals json_loads CANDIDATE_API_KEYS upstream t world
             (fun g0 => named key g0)); try done.
    intros url g0. apply named_confirm. }
  split; [by apply Hfile|].
  intros Hclaim. specialize (Hclaim doc key Hdoc Hcfg).
  destruct (Hfile doc Hdoc) as [w Hw]. congruence.
Qed.

Abbreviation cooling := (cooling CANDIDATE_API_KEYS).

(** X5.  A key put in cooldown is left out of the keys a request tries, for
    72 hours, as long as some configured key is not in cooldown; when
    every configured key is in cooldown the request tries them all. *)
Theorem key_in_cooldown_is_skipped (key : string) (now later : Q) (g : globals) :
  timestamps g ->
  (later < cooldown_end now KEY_COOLDOWN_HOURS)%Q ->
  let g1 := snd (set_key_cooldown CANDIDATE_API_KEYS key now g) in
  exists l g',
    get_keys_sorted_by_usage CANDIDATE_API_KEYS later g1 = Ok (l, g') /\
    cooling g1 later key = true /\
    ((exists k, k ∈ CANDIDATE_API_KEYS /\ cooling g1 later k = false) ->
       (key ∉ l) /\
       (l ≡ₚ List.filter (fun k => negb (cooling g1 later k))
               CANDIDATE_API_KEYS)) /\
    ((forall k, k ∈ CANDIDATE_API_KEYS -> cooling g1 later k = true) ->
       l ≡ₚ CANDIDATE_API_KEYS).
Proof.
  intros Hts Hlater g1.
  assert (timestamps g1) as Hts1.
  { subst g1. unfold timestamps. cbn. apply map_Forall_insert_2; [by eexists|done]. }
  assert (cooling g1 later key = true) as Hcool.
  { subst g1. unfold Cooldown.cooling. cbn. rewrite lookup_insert_eq.
    unfold is_live. cbn [num_of]. by rewrite (Qle_bool_false _ _ Hlater). }
  destruct (keys_not_in_cooldown_spec CANDIDATE_API_KEYS later g1
              CANDIDATE_API_KEYS Hts1 g1 (pruned_refl later g1))
    as (g' & Hget & _).
  unfold get_keys_sorted_by_usage, get_available_keys. rewrite Hget.
  cbn [mbind result_bind bind].
  set (available := List.filter (fun k => negb (cooling g1 later k))
                      CANDIDATE_API_KEYS).
  destruct available as [|k0 rest] eqn:Hav.
  - eexists _, g'. split; [done|]. split; [done|]. split.
    + intros (k & Hk & Hfree). exfalso.
      assert (k ∈ available) as Hin.
      { apply list_elem_of_In, filter_In. split; [by apply list_elem_of_In|].
        by rewrite Hfree. }
      rewrite Hav in Hin. by apply elem_of_nil in Hin.
    + intros _. apply sorted_perm.
  - eexists _, g'. split; [done|]. split; [done|]. split.
    + intros _. split; [|apply sorted_perm].
      rewrite sorted_perm, <- Hav. intros Hin.
      apply list_elem_of_In, filter_In in Hin as [_ Hin].
      by rewrite Hcool in Hin.
    + intros Hall. exfalso.
      assert (k0 ∈ available) as Hin by (rewrite Hav; left).
      apply list_elem_of_In, filter_In in Hin as [Hin Hfree].
      apply list_elem_of_In in Hin. by rewrite (Hall _ Hin) in Hfree.
Qed.

(** *** A process that only serves requests *)

Lemma urls_is_key key now g b g' :
  is_key_in_cooldown CANDIDATE_API_KEYS key now g = Ok (b, g') ->
  url_cooldown_until g' = url_cooldown_until g.
Proof.
  unfold is_key_in_cooldown. intros H.
  destruct (key_cooldown_until g !! _) as [v|]; [|by injection H as _ <-].
  destruct (float_ge now v) as [[]|]; cbn [mbind result_bind bind] in H;
    [|by injection H as _ <-|done].
  by injection H as _ <-.
Qed.

Lemma urls_keys_not_in_cooldown keys now g l g' :
  keys_not_in_cooldown CANDIDATE_API_KEYS keys now g = Ok (l, g') ->
  url_cooldown_until g' = url_cooldown_until g.
Proof.
  revert g l g'. induction keys as [|k keys IH]; intros g l g' H.
  - by injection H as _ <-.
  - cbn [keys_not_in_cooldown] in H.
    destruct (is_key_in_cooldown CANDIDATE_API_KEYS k now g)
      as [[b g1]|] eqn:Hk; cbn [mbind result_bind bind] in H; [|done].
    destruct (keys_not_in_cooldown CANDIDATE_API_KEYS keys now g1)
      as [[l2 g2]|] eqn:Hrest; cbn [mbind result_bind bind] in H; [|done].
    injection H as _ <-. rewrite (IH _ _ _ Hrest). by eapply urls_is_key.
Qed.

Lemma no_url_cooldown_failover upstream now world body start g r s :
  failover json_loads CANDIDATE_URLS CANDIDATE_API_KEYS upstream now world
    body start g = Ok (r, s) ->
  url_cooldown_until g = ∅ -> url_cooldown_until (glob s) = ∅.
Proof.
  intros Hrun Hg.
  destruct (failover_trace _ _ _ _ _ _ _ _ _ _ _ Hrun)
    as (ks & g1 & us & g2 & Hkeys & Hurls & ->).
  assert (url_cooldown_until g1 = ∅) as Hg1.
  { unfold get_keys_sorted_by_usage, get_available_keys in Hkeys.
    destruct (keys_not_in_cooldown _ _ _ _) as [[available g1']|] eqn:Hk;
      cbn [mbind result_bind bind] in Hkeys; [|done].
    apply urls_keys_not_in_cooldown in Hk.
    destruct available; injection Hkeys as _ <-; congruence. }
  assert (url_cooldown_until g2 = ∅) as Hg2.
  { pose proof (available_urls_frame CANDIDATE_URLS start g1) as (Hsub & _).
    rewrite Hurls in Hsub. cbn [snd] in Hsub. rewrite Hg1 in Hsub.
    apply map_eq. intros u. rewrite lookup_empty.
    destruct (url_cooldown_until g2 !! u) eqn:E; [|done].
    pose proof (lookup_weaken _ _ _ _ E Hsub) as H.
    by rewrite lookup_empty in H. }
  apply (for_urls_globals json_loads CANDIDATE_API_KEYS upstream now world
           (fun g => url_cooldown_until g = ∅)); try done.
  intros url g0 H0. unfold confirm_cooldown_for_url.
  by destruct (pending_cooldown_keys g0 !! url) as [[|]|].
Qed.

(** X6.  In a process that only serves requests no URL is ever in cooldown
    ([set_url_cooldown] has no caller, and the URL cooldowns of the file
    are dropped when the module is imported): every request gets the
    whole of [CANDIDATE_URLS], in the configured order, from
    [get_available_urls()]. *)
Theorem requests_try_every_url data start env_disabled g now :
  served json_loads CANDIDATE_URLS CANDIDATE_API_KEYS data start
    env_disabled g ->
  url_cooldown_until g = ∅ /\
  get_available_urls CANDIDATE_URLS now g = (CANDIDATE_URLS, g).
Proof.
  intros Hserved.
  assert (url_cooldown_until g = ∅) as Hg.
  { induction Hserved
      as [|upstream t world body t' g r s _ IH Hrun|key t g b g' _ IH Hk].
    - done.
    - by eapply no_url_cooldown_failover.
    - by rewrite (urls_is_key _ _ _ _ _ Hk). }
  split; [done|]. unfold get_available_urls.
  assert (forall us, urls_not_in_cooldown us now g = (us, g)) as ->.
  { induction us as [|u us IH]; [done|].
    cbn [urls_not_in_cooldown]. unfold is_url_in_cooldown.
    rewrite Hg, lookup_empty. cbn [fst snd]. by rewrite IH. }
  by destruct CANDIDATE_URLS.
Qed.

End Config.
End RestartFacts.

(** ** More on the retry loops *)

Module LoopFacts.
Import Cooldown Engine Process Lifecycle Trace KeyIdFacts CooldownFacts
  KeyOrderFacts SortedFacts EngineFacts StoreFacts.

Section Loops.
Variable json_loads : string -> option json.
Variable CANDIDATE_URLS : list string.
Variable CANDIDATE_API_KEYS : list string.
Variable upstream : nat -> event.
Variable now : Q.
Variable world : waf_world.

Abbreviation attempt_body :=
  (attempt_body json_loads CANDIDATE_API_KEYS upstream now world).
Abbreviation for_attempts :=
  (for_attempts json_loads CANDIDATE_API_KEYS upstream now world).
Abbreviation key_body :=
  (key_body json_loads CANDIDATE_API_KEYS upstream now world).
Abbreviation for_keys :=
  (for_keys json_loads CANDIDATE_API_KEYS upstream now world).
Abbreviation for_urls :=
  (for_urls json_loads CANDIDATE_API_KEYS upstream now world).
Abbreviation failover :=
  (failover json_loads CANDIDATE_URLS CANDIDATE_API_KEYS upstream now world).
Abbreviation on_failure := (Engine.on_failure json_loads CANDIDATE_API_KEYS).
Abbreviation on_success := (Engine.on_success json_loads upstream now).
Abbreviation on_auth_error := (Engine.on_auth_error CANDIDATE_API_KEYS).
Abbreviation after_probe := (Engine.after_probe json_loads now).
Abbreviation refresh_waf := (refresh_waf world).
Abbreviation begin_url := (begin_url world).
Abbreviation before_attempt := (before_attempt world).
Abbreviation after_failed_answer := (after_failed_answer world).
Abbreviation resend_refused := (resend_refused upstream).
Abbreviation start_of g body :=
  (State g (new_RetryContext json_loads body) [] [] (cached world) []).

Ltac frame :=
  rewrite ?before_attempt_glob, ?before_attempt_ctx, ?before_attempt_errors,
    ?before_attempt_sent, ?begin_url_glob, ?begin_url_ctx, ?begin_url_errors,
    ?begin_url_sent.

(** *** What the selection of keys and URLs returns *)

Lemma keys_not_in_cooldown_sublist keys t g l g' :
  keys_not_in_cooldown CANDIDATE_API_KEYS keys t g = Ok (l, g') ->
  sublist l keys.
Proof.
  revert g l g'. induction keys as [|k keys IH]; intros g l g' H.
  - injection H as <- _. constructor.
  - cbn [keys_not_in_cooldown] in H.
    destruct (is_key_in_cooldown CANDIDATE_API_KEYS k t g)
      as [[b g1]|]; cbn [mbind result_bind bind] in H; [|done].
    destruct (keys_not_in_cooldown CANDIDATE_API_KEYS keys t g1)
      as [[l2 g2]|] eqn:Hrest; cbn [mbind result_bind bind] in H; [|done].
    injection H as <- _. specialize (IH _ _ _ Hrest).
    destruct b; by constructor.
Qed.

Lemma sorted_keys_perm t g l g' :
  get_keys_sorted_by_usage CANDIDATE_API_KEYS t g = Ok (l, g') ->
  exists l0, l ≡ₚ l0 /\ sublist l0 CANDIDATE_API_KEYS.
Proof.
  unfold get_keys_sorted_by_usage, get_available_keys. intros H.
  destruct (keys_not_in_cooldown _ _ _ _) as [[available g1]|] eqn:Hk;
    cbn [mbind result_bind bind] in H; [|done].
  apply keys_not_in_cooldown_sublist in Hk.
  destruct available as [|k0 rest]; injection H as <- _.
  - exists CANDIDATE_API_KEYS. split; [apply sorted_perm|done].
  - exists (k0 :: rest).
    split; [apply (sorted_perm Z.leb (usage_of g1) (k0 :: rest))|done].
Qed.

Lemma available_urls_sublist t g :
  sublist (fst (get_available_urls CANDIDATE_URLS t g)) CANDIDATE_URLS.
Proof.
  unfold get_available_urls.
  assert (forall us g0, sublist (fst (urls_not_in_cooldown us t g0)) us) as Hsub.
  { induction us as [|u us IH]; intros g0; [constructor|].
    cbn [urls_not_in_cooldown fst]. destruct (fst (is_url_in_cooldown u t g0));
      by constructor. }
  specialize (Hsub CANDIDATE_URLS g).
  destruct (urls_not_in_cooldown CANDIDATE_URLS t g) as [l g'].
  cbn [fst] in Hsub. destruct l as [|a l]; [|done].
  destruct CANDIDATE_URLS as [|u0 us]; [done|]. cbn [fst].
  rewrite py_min_head.
  destruct (head _) as [m|] eqn:Hm; cbn [option_list]; [|apply sublist_nil_l].
  apply head_Some_elem_of in Hm. rewrite sorted_perm in Hm.
  by apply singleton_sublist_l.
Qed.

(** *** The calls of [fetch_waf_cookie] *)

(** A call for [url]: it requests nothing, or the root of [url]. *)
Abbreviation call_for url c :=
  (w_url c = url%string /\
   (w_requested c = [] \/ w_requested c = [url +:+ "/"])).

Lemma fetch_waf_cookie_requested get url force t cache :
  let requested := snd (WafCookies.fetch_waf_cookie get url force t cache) in
  requested = [] \/ requested = [url +:+ "/"].
Proof.
  unfold WafCookies.fetch_waf_cookie. cbn zeta.
  repeat (case_match; cbn [snd]); auto.
Qed.

Lemma fetch_waf_cookie_forced get url t cache :
  snd (WafCookies.fetch_waf_cookie get url true t cache) = [url +:+ "/"].
Proof.
  unfold WafCookies.fetch_waf_cookie. cbn [negb andb].
  by repeat (case_match; cbn [snd]).
Qed.

Lemma begin_url_calls url s :
  exists requested,
    waf_calls (begin_url url s)
    = waf_calls s ++ (if waf_host url
                      then [WafCall url false (length (sent s)) requested]
                      else []) /\
    (requested = [] \/ requested = [url +:+ "/"]).
Proof.
  unfold Engine.begin_url. destruct (waf_host url).
  - eexists. split; [reflexivity|]. apply fetch_waf_cookie_requested.
  - exists []. cbn [waf_calls with_cache]. rewrite app_nil_r. auto.
Qed.

Lemma before_attempt_calls url attempt s :
  waf_calls (before_attempt url attempt s)
  = waf_calls s ++ (if (1 <? attempt)%nat
                    then [WafCall url true (length (sent s)) [url +:+ "/"]]
                    else []).
Proof.
  unfold Engine.before_attempt. destruct (1 <? attempt)%nat.
  - unfold Engine.refresh_waf. cbn [waf_calls].
    by rewrite fetch_waf_cookie_forced.
  - by rewrite app_nil_r.
Qed.

Lemma on_request_error_calls url key is_probe attempt s :
  waf_calls (snd (on_request_error url key is_probe attempt s)) = waf_calls s.
Proof. unfold Engine.on_request_error, retry_or. by case_match. Qed.

Lemma on_failure_calls url key is_probe attempt r s :
  waf_calls (snd (on_failure url key is_probe attempt r s)) = waf_calls s.
Proof.
  unfold Engine.on_failure, Engine.on_auth_error, retry_or, with_glob,
    with_ctx, with_cache, add_error.
  by repeat (case_match; cbn [waf_calls snd fst]).
Qed.

Lemma on_success_calls url key is_probe attempt r s :
  waf_calls (snd (on_success url key is_probe attempt r s)) = waf_calls s.
Proof.
  unfold Engine.on_success, Engine.on_request_error, Engine.after_probe,
    retry_or, with_glob, with_ctx, add_error, add_request.
  by repeat (case_match; cbn [waf_calls snd fst]).
Qed.

Lemma attempt_body_calls url key is_probe body attempt s :
  waf_calls (snd (attempt_body url key is_probe body attempt s))
  = waf_calls (before_attempt url attempt s).
Proof.
  unfold Engine.attempt_body. cbn zeta.
  set (s1 := add_request _ _).
  change (waf_calls (before_attempt url attempt s)) with (waf_calls s1).
  repeat case_match;
    auto using on_request_error_calls, on_failure_calls, on_success_calls.
Qed.

Lemma for_attempts_calls url key is_probe body attempts s :
  exists new,
    waf_calls (snd (for_attempts url key is_probe body attempts s))
    = waf_calls s ++ new /\
    Forall (fun c => call_for url c) new /\
    (length new <= length (List.filter (Nat.ltb 1) attempts))%nat.
Proof.
  revert s. induction attempts as [|a rest IH]; intros s.
  - exists []. rewrite app_nil_r. split; [done|]. split; [constructor|done].
  - cbn [Engine.for_attempts List.filter].
    pose proof (attempt_body_calls url key is_probe body a s) as Hc.
    rewrite before_attempt_calls in Hc.
    set (first := if (1 <? a)%nat then [_] else []) in Hc.
    assert (Forall (fun c => call_for url c) first /\
            length first = length (if (1 <? a)%nat then [a] else [])) as [Hf Hl].
    { subst first. destruct (1 <? a)%nat; [|by split].
      split; [|done]. constructor; [|constructor]. split; [done|by right]. }
    assert (length first
            <= length (if (1 <? a)%nat
                       then a :: List.filter (Nat.ltb 1) rest
                       else List.filter (Nat.ltb 1) rest))%nat as Hle.
    { rewrite Hl. destruct (1 <? a)%nat; cbn [length]; lia. }
    destruct (attempt_body url key is_probe body a s) as [[| |r] s'];
      cbn [snd] in *; try (exists first; by rewrite Hc).
    destruct (IH s') as (new & -> & Hnew & Hlen). rewrite Hc, <- app_assoc.
    exists (first ++ new). split; [done|]. split; [by apply Forall_app|].
    rewrite length_app, Hl. destruct (1 <? a)%nat; cbn [length]; lia.
Qed.

Lemma for_keys_calls url keys s :
  exists new,
    waf_calls (snd (for_keys url keys s)) = waf_calls s ++ new /\
    Forall (fun c => call_for url c) new /\
    (length new <= (MAX_RETRY_ATTEMPTS - 1) * length keys)%nat.
Proof.
  revert s. induction keys as [|k rest IH]; intros s.
  - exists []. rewrite app_nil_r. split; [done|]. split; [constructor|].
    cbn; lia.
  - cbn [Engine.for_keys]. unfold Engine.key_body.
    destruct (for_attempts_calls url k (should_use_probe (ctx s))
                (get_request_body (ctx s)) attempt_range
                (with_glob (increment_key_usage k) s))
      as (new & Hs & Hnew & Hlen).
    change (length (List.filter (Nat.ltb 1) attempt_range)) with 1%nat in Hlen.
    cbn [waf_calls with_glob] in Hs. unfold MAX_RETRY_ATTEMPTS. cbn [length].
    destruct (for_attempts _ _ _ _ _ _) as [[r|] s']; cbn [snd] in *.
    + exists new. repeat split; try done. lia.
    + destruct (IH s') as (new2 & -> & Hnew2 & Hlen2).
      rewrite Hs, <- app_assoc. exists (new ++ new2).
      split; [done|]. split; [by apply Forall_app|].
      rewrite length_app. unfold MAX_RETRY_ATTEMPTS in Hlen2. lia.
Qed.

Lemma for_urls_calls us keys s :
  exists new,
    waf_calls (snd (for_urls us keys s)) = waf_calls s ++ new /\
    Forall (fun c => w_url c ∈ us /\ call_for (w_url c) c) new /\
    (length new
     <= length us + (MAX_RETRY_ATTEMPTS - 1) * length us * length keys)%nat.
Proof.
  revert s. induction us as [|u rest IH]; intros s.
  - exists []. rewrite app_nil_r. split; [done|]. split; [constructor|].
    cbn; lia.
  - cbn [Engine.for_urls].
    destruct (begin_url_calls u s) as (requested & Hb & Hrequested).
    destruct (for_keys_calls u keys (begin_url u s))
      as (new & Hs & Hnew & Hlen).
    rewrite Hb in Hs.
    set (first := if waf_host u then [_] else []) in Hs.
    assert (Forall (fun c => call_for u c) first /\ (length first <= 1)%nat)
      as [Hf Hl].
    { subst first. destruct (waf_host u); [|split; [constructor|cbn; lia]].
      split; [|cbn; lia]. constructor; [|constructor]. by split. }
    assert (Forall (fun c => w_url c ∈ u :: rest /\ call_for (w_url c) c)
              (first ++ new)) as Hall.
    { apply Forall_app. split; eapply Forall_impl; try eassumption;
        intros c [Hu Hc]; rewrite Hu; (split; [by left|done]). }
    unfold MAX_RETRY_ATTEMPTS in *. cbn [length].
    destruct (for_keys u keys (begin_url u s)) as [[r|] s']; cbn [snd] in *.
    + exists (first ++ new). rewrite Hs, <- app_assoc.
      split; [done|]. split; [done|]. rewrite length_app. nia.
    + destruct (IH s') as (new2 & -> & Hnew2 & Hlen2).
      rewrite Hs, <- !app_assoc. exists (first ++ new ++ new2).
      split; [done|]. split.
      * rewrite app_assoc. apply Forall_app. split; [done|].
        eapply Forall_impl; [exact Hnew2|].
        intros c [Hu Hc]. split; [by right|done].
      * rewrite !length_app. nia.
Qed.

Lemma requested_count (calls : list waf_call) :
  Forall (fun c => call_for (w_url c) c) calls ->
  (length (concat (map w_requested calls)) <= length calls)%nat.
Proof.
  induction 1 as [|c calls [_ Hc] _ IH]; [done|].
  cbn [map concat length]. rewrite length_app.
  destruct Hc as [-> | ->]; cbn [length]; lia.
Qed.

(** *** The number of requests *)

Lemma attempt_body_count url key is_probe body a s :
  (length (sent (snd (attempt_body url key is_probe body a s)))
   <= length (sent s) + 2)%nat.
Proof.
  destruct (attempt_body_trace json_loads CANDIDATE_API_KEYS upstream now
              world url key is_probe body a s) as (tail & -> & _ & H).
  rewrite length_app. cbn [length]. lia.
Qed.

Lemma for_attempts_count url key is_probe body attempts s :
  (length (sent (snd (for_attempts url key is_probe body attempts s)))
   <= length (sent s) + 2 * length attempts)%nat.
Proof.
  revert s. induction attempts as [|a rest IH]; intros s; [cbn; lia|].
  cbn [Engine.for_attempts length].
  pose proof (attempt_body_count url key is_probe body a s) as H.
  destruct (attempt_body url key is_probe body a s) as [[| |r] s'];
    cbn [snd] in *; try lia.
  specialize (IH s'). lia.
Qed.

Lemma key_body_count url key s :
  (length (sent (snd (key_body url key s)))
   <= length (sent s) + 2 * MAX_RETRY_ATTEMPTS)%nat.
Proof.
  unfold Engine.key_body.
  pose proof (for_attempts_count url key (should_use_probe (ctx s))
                (get_request_body (ctx s)) attempt_range
                (with_glob (increment_key_usage key) s)) as H.
  unfold attempt_range in H. rewrite length_seq in H. exact H.
Qed.

Lemma for_keys_count url keys s :
  (length (sent (snd (for_keys url keys s)))
   <= length (sent s) + 2 * MAX_RETRY_ATTEMPTS * length keys)%nat.
Proof.
  revert s. induction keys as [|k rest IH]; intros s; [cbn; lia|].
  cbn [Engine.for_keys length].
  pose proof (key_body_count url k s) as H.
  destruct (key_body url k s) as [[r|] s']; cbn [snd] in *; [lia|].
  specialize (IH s'). lia.
Qed.

Lemma for_urls_count us keys s :
  (length (sent (snd (for_urls us keys s)))
   <= length (sent s) + 2 * MAX_RETRY_ATTEMPTS * length us * length keys)%nat.
Proof.
  revert s. induction us as [|u rest IH]; intros s; [cbn; lia|].
  cbn [Engine.for_urls length].
  pose proof (for_keys_count u keys (begin_url u s)) as H.
  rewrite begin_url_sent in H.
  destruct (for_keys u keys (begin_url u s)) as [[r|] s']; cbn [snd] in *;
    [nia|].
  specialize (IH s'). nia.
Qed.

(** X7.  What one run of [proxy] sends is bounded by the configuration.
    It sends at most [2 * MAX_RETRY_ATTEMPTS] proxied requests for each
    pair of a configured URL and a configured key: at most two rounds for
    the pair, and in a round at most the probe and the repetition of the
    original body.  Besides these it calls [fetch_waf_cookie] at most
    once for each URL and [MAX_RETRY_ATTEMPTS - 1] times for each pair,
    and each call requests at most one page. *)
Theorem request_count_is_bounded body start g r s :
  failover body start g = Ok (r, s) ->
  (length (sent s)
   <= 2 * MAX_RETRY_ATTEMPTS
      * length CANDIDATE_URLS * length CANDIDATE_API_KEYS)%nat /\
  (length (waf_calls s)
   <= length CANDIDATE_URLS
      + (MAX_RETRY_ATTEMPTS - 1)
        * length CANDIDATE_URLS * length CANDIDATE_API_KEYS)%nat /\
  (length (waf_requests s) <= length (waf_calls s))%nat.
Proof.
  intros Hrun.
  destruct (failover_trace _ _ _ _ _ _ _ _ _ _ _ Hrun)
    as (ks & g1 & us & g2 & Hkeys & Hurls & ->).
  pose proof (for_urls_count us ks (start_of g2 body)) as H.
  cbn [sent length] in H.
  destruct (for_urls_calls us ks (start_of g2 body))
    as (new & Hcalls & Hnew & Hlen).
  cbn [waf_calls app] in Hcalls.
  destruct (sorted_keys_perm _ _ _ _ Hkeys) as (l0 & Hperm & Hsub).
  apply sublist_length in Hsub. rewrite <- Hperm in Hsub.
  pose proof (available_urls_sublist start g1) as Hu.
  rewrite Hurls in Hu. cbn [fst] in Hu. apply sublist_length in Hu.
  split; [|split].
  - unfold MAX_RETRY_ATTEMPTS in *. nia.
  - rewrite Hcalls. unfold MAX_RETRY_ATTEMPTS in *. nia.
  - unfold waf_requests. rewrite Hcalls. apply requested_count.
    eapply Forall_impl; [exact Hnew|]. by intros c [_ Hc].
Qed.

(** *** Where the requests go *)

Lemma for_keys_sent url keys s :
  exists new,
    sent (snd (for_keys url keys s)) = sent s ++ new /\
    Forall (fun rq => r_url rq = url /\ r_key rq ∈ keys) new.
Proof.
  revert s. induction keys as [|k rest IH]; intros s.
  - exists []. by rewrite app_nil_r.
  - cbn [Engine.for_keys]. unfold Engine.key_body.
    destruct (for_attempts_sent json_loads CANDIDATE_API_KEYS upstream now
                world url k (should_use_probe (ctx s))
                (get_request_body (ctx s))
                attempt_range (with_glob (increment_key_usage k) s))
      as (new & Hs & Hnew).
    assert (Forall (fun rq => r_url rq = url /\ r_key rq ∈ k :: rest) new)
      as Hnew'.
    { eapply Forall_impl; [exact Hnew|].
      intros rq (Hu & Hk & _). split; [done|]. rewrite Hk. by left. }
    destruct (for_attempts _ _ _ _ _ _) as [[r|] s'];
      cbn [snd] in *; [by eauto|].
    destruct (IH s') as (new2 & -> & Hnew2). rewrite Hs, <- app_assoc.
    eexists. split; [done|]. apply Forall_app. split; [done|].
    eapply Forall_impl; [exact Hnew2|]. intros rq [? ?]. split; [done|by right].
Qed.

Lemma for_urls_sent us keys s :
  exists new,
    sent (snd (for_urls us keys s)) = sent s ++ new /\
    Forall (fun rq => r_url rq ∈ us /\ r_key rq ∈ keys) new.
Proof.
  revert s. induction us as [|u rest IH]; intros s.
  - exists []. by rewrite app_nil_r.
  - cbn [Engine.for_urls].
    destruct (for_keys_sent u keys (begin_url u s)) as (new & Hs & Hnew).
    rewrite begin_url_sent in Hs.
    assert (Forall (fun rq => r_url rq ∈ u :: rest /\ r_key rq ∈ keys) new)
      as Hnew'.
    { eapply Forall_impl; [exact Hnew|]. intros rq [-> ?]. split; [by left|done]. }
    destruct (for_keys u keys (begin_url u s)) as [[r|] s']; cbn [snd] in *;
      [by eauto|].
    destruct (IH s') as (new2 & -> & Hnew2). rewrite Hs, <- app_assoc.
    eexists. split; [done|]. apply Forall_app. split; [done|].
    eapply Forall_impl; [exact Hnew2|]. intros rq [? ?]. split; [by right|done].
Qed.

(** X8.  Everything a run sends goes to a configured URL: every proxied
    request goes to a configured URL with a configured key, and every
    call of [fetch_waf_cookie] is for a configured URL and requests
    nothing or the root of that URL. *)
Theorem requests_use_configured_pairs body start g r s :
  failover body start g = Ok (r, s) ->
  Forall (fun rq => r_url rq ∈ CANDIDATE_URLS /\
                    r_key rq ∈ CANDIDATE_API_KEYS) (sent s) /\
  Forall (fun c => w_url c ∈ CANDIDATE_URLS /\
                   (w_requested c = [] \/
                    w_requested c = [w_url c +:+ "/"])) (waf_calls s) /\
  Forall (fun target => exists url, url ∈ CANDIDATE_URLS /\
                                    target = url +:+ "/") (waf_requests s).
Proof.
  intros Hrun.
  destruct (failover_trace _ _ _ _ _ _ _ _ _ _ _ Hrun)
    as (ks & g1 & us & g2 & Hkeys & Hurls & ->).
  pose proof (available_urls_sublist start g1) as Hsub.
  rewrite Hurls in Hsub. cbn [fst] in Hsub.
  assert (Forall (fun c => w_url c ∈ CANDIDATE_URLS /\
                           (w_requested c = [] \/
                            w_requested c = [w_url c +:+ "/"]))
            (waf_calls (snd (for_urls us ks (start_of g2 body))))) as Hcalls.
  { destruct (for_urls_calls us ks (start_of g2 body))
      as (new & -> & Hnew & _).
    cbn [waf_calls app]. eapply Forall_impl; [exact Hnew|].
    intros c (Hu & _ & Hc). split; [by eapply elem_of_sublist|done]. }
  split; [|split; [exact Hcalls|]].
  - destruct (for_urls_sent us ks (start_of g2 body)) as (new & -> & Hnew).
    cbn [sent app]. eapply Forall_impl; [exact Hnew|].
    intros rq [Hu Hk]. split.
    + by eapply elem_of_sublist.
    + destruct (sorted_keys_perm _ _ _ _ Hkeys) as (l0 & Hperm & Hsub').
      rewrite Hperm in Hk. by eapply elem_of_sublist.
  - unfold waf_requests. induction Hcalls as [|c calls [Hu Hc] _ IH];
      [constructor|].
    cbn [map concat]. apply Forall_app. split; [|exact IH].
    destruct Hc as [-> | ->]; [constructor|]. repeat constructor. by exists (w_url c).
Qed.

(** *** The usage counter *)

Abbreviation opened k l := (Z.of_nat (length (List.filter (opens k) l))).

Lemma usage_attempt_body k url key is_probe body a s :
  let s' := snd (attempt_body url key is_probe body a s) in
  key_usage_count (glob s') = key_usage_count (glob s) /\
  opened k (sent s')
  = (opened k (sent s)
     + if String.eqb key k && (a =? 1)%nat then 1 else 0)%Z.
Proof.
  intros s'. split.
  - subst s'.
    apply (attempt_body_globals json_loads CANDIDATE_API_KEYS upstream now
             world (fun g => key_usage_count g = key_usage_count (glob s)));
      try done.
    intros u g0 H0. unfold confirm_cooldown_for_url.
    by destruct (pending_cooldown_keys g0 !! u) as [[|]|].
  - subst s'.
    destruct (attempt_body_trace json_loads CANDIDATE_API_KEYS upstream now
                world url key is_probe body a s) as (tail & -> & Ht & _).
    rewrite List.filter_app, length_app. cbn [List.filter].
    assert (List.filter (opens k) tail = []) as ->.
    { clear -Ht. induction Ht as [|rq tail (_ & _ & _ & _ & Hrq) _ IH]; [done|].
      cbn [List.filter]. unfold opens at 1. by rewrite Hrq, andb_false_r. }
    unfold opens at 2. cbn [r_key r_attempt r_resend negb].
    rewrite andb_true_r.
    destruct (String.eqb key k && (a =? 1)%nat); cbn [length]; lia.
Qed.

Lemma usage_for_attempts k url key is_probe body attempts s :
  let s' := snd (for_attempts url key is_probe body attempts s) in
  Forall (fun a => a <> 1%nat) attempts ->
  key_usage_count (glob s') = key_usage_count (glob s) /\
  opened k (sent s') = opened k (sent s).
Proof.
  revert s. induction attempts as [|a rest IH]; intros s s' Hne; [done|].
  apply Forall_cons in Hne as [Ha Hrest]. subst s'.
  cbn [Engine.for_attempts].
  pose proof (usage_attempt_body k url key is_probe body a s) as [Hc Ho].
  rewrite (proj2 (Nat.eqb_neq a 1)), andb_false_r, Z.add_0_r in Ho by done.
  destruct (attempt_body url key is_probe body a s) as [[| |r] s'];
    cbn [snd] in *; try done.
  destruct (IH s' Hrest) as [Hc' Ho']. split; congruence.
Qed.

Lemma usage_key_body k url key s :
  let s' := snd (key_body url key s) in
  (usage_of (glob s') k + opened k (sent s)
   = usage_of (glob s) k + opened k (sent s'))%Z.
Proof.
  intros s'. subst s'. unfold Engine.key_body, attempt_range, MAX_RETRY_ATTEMPTS.
  cbn [seq]. rewrite for_attempts_cons.
  set (s1 := with_glob (increment_key_usage key) s).
  assert (usage_of (glob s1) k
          = (usage_of (glob s) k + if String.eqb key k then 1 else 0)%Z) as H1.
  { subst s1. unfold usage_of, increment_key_usage. cbn.
    destruct (String.eqb_spec key k) as [->|Hne].
    - rewrite lookup_insert_eq. destruct (key_usage_count (glob s) !! k); cbn; lia.
    - rewrite lookup_insert_ne by done. lia. }
  pose proof (usage_attempt_body k url key (should_use_probe (ctx s))
                (get_request_body (ctx s)) 1 s1) as [Hc Ho].
  change (sent s1) with (sent s) in Ho. cbn [Nat.eqb] in Ho.
  rewrite andb_true_r in Ho.
  assert (forall s2, key_usage_count (glob s2) = key_usage_count (glob s1) ->
                     usage_of (glob s2) k = usage_of (glob s1) k) as Hsame.
  { intros s2 H2. unfold usage_of. by rewrite H2. }
  destruct (attempt_body url key _ _ 1 s1) as [[| |r] s2]; cbn [snd] in *.
  - pose proof (usage_for_attempts k url key (should_use_probe (ctx s))
                  (get_request_body (ctx s)) [2%nat] s2) as [Hc' Ho'].
    { by repeat constructor. }
    rewrite (Hsame _ (eq_trans Hc' Hc)). lia.
  - rewrite (Hsame _ Hc). lia.
  - rewrite (Hsame _ Hc). lia.
Qed.

Lemma usage_for_keys k url keys s :
  let s' := snd (for_keys url keys s) in
  (usage_of (glob s') k + opened k (sent s)
   = usage_of (glob s) k + opened k (sent s'))%Z.
Proof.
  revert s. induction keys as [|key rest IH]; intros s; [cbn; lia|].
  cbn [Engine.for_keys]. pose proof (usage_key_body k url key s) as H.
  destruct (key_body url key s) as [[r|] s1]; cbn [snd] in *; [done|].
  specialize (IH s1). cbn zeta in IH. lia.
Qed.

Lemma usage_for_urls k us keys s :
  let s' := snd (for_urls us keys s) in
  (usage_of (glob s') k + opened k (sent s)
   = usage_of (glob s) k + opened k (sent s'))%Z.
Proof.
  revert s. induction us as [|u rest IH]; intros s; [cbn; lia|].
  cbn [Engine.for_urls].
  pose proof (usage_for_keys k u keys (begin_url u s)) as H.
  cbn zeta in H. rewrite begin_url_glob, begin_url_sent in H.
  destruct (for_keys u keys (begin_url u s)) as [[r|] s1]; cbn [snd] in *;
    [done|].
  specialize (IH s1). cbn zeta in IH. lia.
Qed.

Lemma usage_is_key key t g b g' :
  is_key_in_cooldown CANDIDATE_API_KEYS key t g = Ok (b, g') ->
  key_usage_count g' = key_usage_count g.
Proof.
  unfold is_key_in_cooldown. intros H.
  destruct (key_cooldown_until g !! _) as [v|]; [|by injection H as _ <-].
  destruct (float_ge t v) as [[]|]; cbn [mbind result_bind bind] in H;
    [|by injection H as _ <-|done].
  by injection H as _ <-.
Qed.

Lemma usage_keys_not_in_cooldown keys t g l g' :
  keys_not_in_cooldown CANDIDATE_API_KEYS keys t g = Ok (l, g') ->
  key_usage_count g' = key_usage_count g.
Proof.
  revert g l g'. induction keys as [|k keys IH]; intros g l g' H.
  - by injection H as _ <-.
  - cbn [keys_not_in_cooldown] in H.
    destruct (is_key_in_cooldown CANDIDATE_API_KEYS k t g)
      as [[b g2]|] eqn:Hk; cbn [mbind result_bind bind] in H; [|done].
    destruct (keys_not_in_cooldown CANDIDATE_API_KEYS keys t g2)
      as [[l2 g3]|] eqn:Hrest; cbn [mbind result_bind bind] in H; [|done].
    injection H as _ <-. rewrite (IH _ _ _ Hrest). by eapply usage_is_key.
Qed.

Lemma usage_sorted_keys t g l g' :
  get_keys_sorted_by_usage CANDIDATE_API_KEYS t g = Ok (l, g') ->
  key_usage_count g' = key_usage_count g.
Proof.
  unfold get_keys_sorted_by_usage, get_available_keys. intros H.
  destruct (keys_not_in_cooldown _ _ _ _) as [[available g1]|] eqn:Hk;
    cbn [mbind result_bind bind] in H; [|done].
  apply usage_keys_not_in_cooldown in Hk.
  destruct available; by injection H as _ <-.
Qed.

(** X9.  The usage counter of a key counts the iterations of the key loop
    that were started with it: a run adds to [key_usage_count[k]] the
    number of requests that open an iteration for [k], one for every
    URL on which [k] was tried, whatever the outcome. *)
Theorem usage_counts_key_iterations body start g r s k :
  failover body start g = Ok (r, s) ->
  usage_of (glob s) k
  = (usage_of g k + Z.of_nat (length (List.filter (opens k) (sent s))))%Z.
Proof.
  intros Hrun.
  destruct (failover_trace _ _ _ _ _ _ _ _ _ _ _ Hrun)
    as (ks & g1 & us & g2 & Hkeys & Hurls & ->).
  pose proof (usage_for_urls k us ks (start_of g2 body)) as H.
  cbn [sent glob List.filter length] in H. cbn zeta in H.
  assert (usage_of g2 k = usage_of g k) as Hg.
  { unfold usage_of.
    pose proof (available_urls_frame CANDIDATE_URLS start g1)
      as (_ & _ & _ & Hc & _).
    rewrite Hurls in Hc. cbn [snd] in Hc.
    by rewrite Hc, (usage_sorted_keys _ _ _ _ Hkeys). }
  lia.
Qed.

(** *** Cooldowns come from a success only *)

Abbreviation streamed o := (from_option is_streamed false o).
Abbreviation same_cooldowns g g' :=
  (key_cooldown_until g' = key_cooldown_until g /\
   cooldown_file g' = cooldown_file g).
Abbreviation quiet s r :=
  (match fst r with
   | Return (Streamed _ _ _) => True
   | _ => same_cooldowns (glob s) (glob (snd r))
   end).

Lemma quiet_on_request_error url key is_probe attempt s :
  same_cooldowns (glob s)
    (glob (snd (on_request_error url key is_probe attempt s))).
Proof. unfold Engine.on_request_error, retry_or. by case_match. Qed.

Lemma quiet_on_failure url key is_probe attempt r s :
  same_cooldowns (glob s) (glob (snd (on_failure url key is_probe attempt r s))).
Proof.
  unfold Engine.on_failure, Engine.on_auth_error, retry_or, with_glob,
    with_ctx, with_cache, add_error.
  by repeat (case_match; cbn [glob snd fst]).
Qed.

Lemma quiet_on_success url key is_probe attempt r s :
  quiet s (on_success url key is_probe attempt r s).
Proof.
  unfold Engine.on_success, Engine.on_request_error, Engine.after_probe,
    retry_or, with_glob, with_ctx, add_error, add_request.
  by repeat (case_match; cbn [glob snd fst]).
Qed.

Lemma cooldowns_attempt_body url key is_probe body a s :
  let r := attempt_body url key is_probe body a s in
  match fst r with
  | Return (Streamed _ _ _) => True
  | _ => same_cooldowns (glob s) (glob (snd r))
  end.
Proof.
  unfold Engine.attempt_body. cbn zeta.
  set (s1 := add_request _ _).
  assert (glob s1 = glob s) as <-
    by (subst s1; cbn [glob add_request]; by frame).
  pose proof (quiet_on_request_error url key is_probe a s1) as Herr.
  destruct (upstream _) as [r|r|].
  - destruct (status_code r <? 400)%Z; [apply quiet_on_success|].
    pose proof (quiet_on_failure url key is_probe a r s1) as Hf.
    by destruct (fst (on_failure url key is_probe a r s1)) as [| |[]].
  - destruct (status_code r <? 400)%Z; [apply quiet_on_success|].
    by destruct (fst (on_request_error url key is_probe a s1)) as [| |[]].
  - by destruct (fst (on_request_error url key is_probe a s1)) as [| |[]].
Qed.

Lemma cooldowns_for_attempts url key is_probe body attempts s :
  let r := for_attempts url key is_probe body attempts s in
  streamed (fst r) = false -> same_cooldowns (glob s) (glob (snd r)).
Proof.
  revert s. induction attempts as [|a rest IH]; intros s; [done|].
  cbn [Engine.for_attempts].
  pose proof (cooldowns_attempt_body url key is_probe body a s) as H.
  cbn zeta in H.
  destruct (attempt_body url key is_probe body a s) as [[| |r] s'];
    cbn [fst snd] in *.
  - intros Hr. destruct H as [H1 H2], (IH s' Hr) as [H3 H4]. split; congruence.
  - done.
  - by destruct r.
Qed.

Lemma cooldowns_for_keys url keys s :
  let r := for_keys url keys s in
  streamed (fst r) = false -> same_cooldowns (glob s) (glob (snd r)).
Proof.
  revert s. induction keys as [|k rest IH]; intros s; [done|].
  cbn [Engine.for_keys]. unfold Engine.key_body.
  pose proof (cooldowns_for_attempts url k (should_use_probe (ctx s))
                (get_request_body (ctx s)) attempt_range
                (with_glob (increment_key_usage k) s)) as H.
  cbn zeta in H.
  destruct (for_attempts _ _ _ _ _ _) as [[r|] s']; cbn [fst snd] in *.
  - done.
  - intros Hr. destruct (H eq_refl) as [H1 H2], (IH s' Hr) as [H3 H4].
    cbn in H1, H2. split; congruence.
Qed.

Lemma cooldowns_for_urls us keys s :
  let r := for_urls us keys s in
  streamed (fst r) = false -> same_cooldowns (glob s) (glob (snd r)).
Proof.
  revert s. induction us as [|u rest IH]; intros s; [done|].
  cbn [Engine.for_urls].
  pose proof (cooldowns_for_keys u keys (begin_url u s)) as H. cbn zeta in H.
  rewrite begin_url_glob in H.
  destruct (for_keys u keys (begin_url u s)) as [[r|] s']; cbn [fst snd] in *.
  - done.
  - intros Hr. destruct (H eq_refl) as [H1 H2], (IH s' Hr) as [H3 H4].
    split; congruence.
Qed.

Lemma cooldowns_is_key key t g b g' :
  is_key_in_cooldown CANDIDATE_API_KEYS key t g = Ok (b, g') ->
  key_cooldown_until g' ⊆ key_cooldown_until g.
Proof.
  unfold is_key_in_cooldown. intros H.
  destruct (key_cooldown_until g !! _) as [v|]; [|by injection H as _ <-].
  destruct (float_ge t v) as [[]|]; cbn [mbind result_bind bind] in H;
    [|by injection H as _ <-|done].
  injection H as _ <-. cbn. apply delete_subseteq.
Qed.

Lemma cooldowns_keys_not_in_cooldown keys t g l g' :
  keys_not_in_cooldown CANDIDATE_API_KEYS keys t g = Ok (l, g') ->
  key_cooldown_until g' ⊆ key_cooldown_until g.
Proof.
  revert g l g'. induction keys as [|k keys IH]; intros g l g' H.
  - by injection H as _ <-.
  - cbn [keys_not_in_cooldown] in H.
    destruct (is_key_in_cooldown CANDIDATE_API_KEYS k t g)
      as [[b g2]|] eqn:Hk; cbn [mbind result_bind bind] in H; [|done].
    destruct (keys_not_in_cooldown CANDIDATE_API_KEYS keys t g2)
      as [[l2 g3]|] eqn:Hrest; cbn [mbind result_bind bind] in H; [|done].
    injection H as _ <-. etrans; [by eapply IH|by eapply cooldowns_is_key].
Qed.

(** X10.  A run that does not end in a streamed answer puts no key in
    cooldown: whatever errors the keys met, the key cooldowns after the
    run are among those from before it (the expired ones may have been
    deleted when the keys were selected).  The failed keys are only
    listed as pending. *)
Theorem no_cooldown_without_success body start g r s :
  failover body start g = Ok (r, s) ->
  is_streamed r = false ->
  key_cooldown_until (glob s) ⊆ key_cooldown_until g.
Proof.
  intros Hrun Hr. pose proof Hrun as Hrun'.
  destruct (failover_trace _ _ _ _ _ _ _ _ _ _ _ Hrun)
    as (ks & g1 & us & g2 & Hkeys & Hurls & ->).
  assert (key_cooldown_until g2 ⊆ key_cooldown_until g) as Hg2.
  { pose proof (available_urls_frame CANDIDATE_URLS start g1) as (_ & Hk & _).
    rewrite Hurls in Hk. cbn [snd] in Hk. rewrite Hk.
    unfold get_keys_sorted_by_usage, get_available_keys in Hkeys.
    destruct (keys_not_in_cooldown _ _ _ _) as [[available g1']|] eqn:Hav;
      cbn [mbind result_bind bind] in Hkeys; [|done].
    apply cooldowns_keys_not_in_cooldown in Hav.
    destruct available; by injection Hkeys as _ <-. }
  pose proof (cooldowns_for_urls us ks (start_of g2 body)) as H.
  cbn zeta in H. unfold Engine.failover in Hrun'.
  rewrite Hkeys in Hrun'. cbn [mbind result_bind bind] in Hrun'.
  rewrite Hurls in Hrun'.
  destruct (for_urls us ks _) as [[r'|] s']; cbn [fst snd] in *.
  - injection Hrun' as ->. destruct (H Hr) as [-> _]. done.
  - destruct (H eq_refl) as [-> _]. done.
Qed.

(** *** The reply when every pair is used up *)

Abbreviation flagged s := (probe_succeeded_but_full_failed (ctx s)).
Abbreviation probe_noted s := (existsb is_probe_note (all_errors s)).

(** The flag says that the repetition of the original body was refused,
    and the note of a probe is left only with the flag set. *)
Abbreviation told s :=
  (flagged s = resend_refused (sent s) /\
   (probe_noted s = true -> flagged s = true)).
Abbreviation refused e :=
  (from_option (fun status => (400 <=? status)%Z) false (head_status e)).

Lemma resend_refused_snoc trace rq :
  resend_refused (trace ++ [rq])
  = resend_refused trace || (r_resend rq && refused (upstream (length trace))).
Proof.
  unfold Engine.resend_refused. rewrite imap_app, existsb_app.
  cbn [imap existsb fst snd]. by rewrite Nat.add_0_r, orb_false_r.
Qed.

Lemma told_same s s1 :
  flagged s1 = flagged s -> sent s1 = sent s -> all_errors s1 = all_errors s ->
  told s -> told s1.
Proof. by intros -> -> ->. Qed.

Lemma told_note n s :
  is_probe_note n = false -> told s -> told (add_error n s).
Proof.
  intros Hn [H1 H2]. split; [done|].
  cbn [all_errors ctx add_error]. rewrite existsb_app. cbn [existsb].
  by rewrite Hn, !orb_false_r.
Qed.

Lemma flagged_record is_probe success url key c :
  probe_succeeded_but_full_failed (record_attempt is_probe success url key c)
  = probe_succeeded_but_full_failed c.
Proof. unfold record_attempt. by destruct is_probe. Qed.

Lemma told_retry_or attempt n s :
  is_probe_note n = false -> told s -> told (snd (retry_or attempt n s)).
Proof.
  intros Hn Hs. unfold retry_or.
  destruct (attempt <? MAX_RETRY_ATTEMPTS)%nat; [done|by apply told_note].
Qed.

Lemma told_on_auth_error url key is_probe n s :
  is_probe_note n = false -> told s ->
  told (snd (on_auth_error url key is_probe n s)).
Proof.
  intros Hn Hs. unfold Engine.on_auth_error.
  destruct (negb _ && negb _); cbn [snd]; [done|by apply told_note].
Qed.

Lemma told_on_request_error url key is_probe attempt s :
  told s -> told (snd (on_request_error url key is_probe attempt s)).
Proof.
  intros Hs. unfold Engine.on_request_error.
  apply told_retry_or; [done|].
  eapply told_same; [apply flagged_record|done|done|exact Hs].
Qed.

Lemma told_on_failure url key is_probe attempt r s :
  told s -> told (snd (on_failure url key is_probe attempt r s)).
Proof.
  intros Hs. unfold Engine.on_failure. cbn zeta.
  set (s1 := with_ctx _ s).
  assert (told s1) as H1
    by (eapply told_same; [apply flagged_record|done|done|exact Hs]).
  repeat case_match;
    first [ by apply told_retry_or
          | by apply told_on_auth_error
          | by apply told_note
          | exact H1 ].
Qed.

(** The answer to the repetition of the original body. *)
Lemma told_after_probe url key attempt full_resp s :
  resend_refused (sent s) = flagged s || (400 <=? status_code full_resp)%Z ->
  (probe_noted s = true -> flagged s = true) ->
  let r := after_probe url key attempt full_resp s in
  match fst r with
  | Return _ => True
  | _ => told (snd r)
  end.
Proof.
  intros Hsent Hnote. unfold Engine.after_probe.
  destruct (400 <=? status_code full_resp)%Z; [|done].
  rewrite orb_true_r in Hsent.
  match goal with |- context [match ?c with Some _ => _ | None => _ end] =>
    destruct c end; [done|].
  cbn [fst snd]. split; [by cbn|]. done.
Qed.

Lemma told_on_success url key is_probe attempt resp s :
  told s ->
  let r := on_success url key is_probe attempt resp s in
  match fst r with
  | Return _ => True
  | _ => told (snd r)
  end.
Proof.
  intros Hs. unfold Engine.on_success. cbn zeta.
  set (s1 := with_ctx _ s).
  assert (told s1) as [H1 H1']
    by (eapply told_same; [apply flagged_record|done|done|exact Hs]).
  destruct is_probe; [|done].
  set (rq := Request _ _ _ _ _ _ _).
  pose proof (resend_refused_snoc (sent s1) rq) as Hsnoc.
  cbn [r_resend rq andb] in Hsnoc.
  destruct (upstream (length (sent s1))) as [full_resp|full_resp|] eqn:Hup;
    cbn [head_status from_option] in Hsnoc.
  - apply told_after_probe; [|done].
    cbn [sent add_request ctx]. by rewrite Hsnoc, H1.
  - destruct (400 <=? status_code full_resp)%Z; [|done].
    rewrite orb_true_r in Hsnoc.
    pose proof (told_on_request_error url key true attempt
                  (with_ctx set_probe_succeeded_but_full_failed
                     (add_request rq s1))) as Herr.
    destruct (fst (on_request_error _ _ _ _ _)); try done; by apply Herr.
  - rewrite orb_false_r in Hsnoc.
    pose proof (told_on_request_error url key true attempt
                  (add_request rq s1)) as Herr.
    assert (told (add_request rq s1)) as Hrq.
    { split; [|done]. cbn [sent add_request ctx]. by rewrite Hsnoc. }
    destruct (fst (on_request_error _ _ _ _ _)); try done; by apply Herr.
Qed.

Lemma told_attempt_body url key is_probe body a s :
  let r := attempt_body url key is_probe body a s in
  told s ->
  match fst r with
  | Return _ => True
  | _ => told (snd r)
  end.
Proof.
  cbn zeta. intros Hs. unfold Engine.attempt_body. cbn zeta.
  set (answer := upstream _).
  set (s1 := add_request _ _).
  assert (told s1) as H1.
  { destruct Hs as [Hf Hn]. subst s1. cbn [sent ctx all_errors add_request].
    frame. rewrite resend_refused_snoc. cbn [r_resend andb].
    by rewrite orb_false_r. }
  pose proof (told_on_request_error url key is_probe a s1 H1) as Herr.
  destruct answer as [r|r|].
  - destruct (status_code r <? 400)%Z; [by apply told_on_success|].
    pose proof (told_on_failure url key is_probe a r s1 H1) as Hf.
    by destruct (fst (on_failure _ _ _ _ _ _)).
  - destruct (status_code r <? 400)%Z; [by apply told_on_success|].
    by destruct (fst (on_request_error _ _ _ _ _)).
  - by destruct (fst (on_request_error _ _ _ _ _)).
Qed.

Lemma told_for_attempts url key is_probe body attempts s :
  let r := for_attempts url key is_probe body attempts s in
  told s -> fst r = None -> told (snd r).
Proof.
  revert s. induction attempts as [|a rest IH]; intros s; [done|].
  cbn [Engine.for_attempts]. intros Hs.
  pose proof (told_attempt_body url key is_probe body a s Hs) as H.
  destruct (attempt_body url key is_probe body a s) as [[| |r] s'];
    cbn [fst snd] in *; try done.
  by apply IH.
Qed.

Lemma told_for_keys url keys s :
  let r := for_keys url keys s in
  told s -> fst r = None -> told (snd r).
Proof.
  revert s. induction keys as [|k rest IH]; intros s; [done|].
  cbn [Engine.for_keys]. unfold Engine.key_body. intros Hs.
  pose proof (told_for_attempts url k (should_use_probe (ctx s))
                (get_request_body (ctx s)) attempt_range
                (with_glob (increment_key_usage k) s) Hs) as H.
  cbn zeta in H.
  destruct (for_attempts _ _ _ _ _ _) as [[r|] s']; cbn [fst snd] in *;
    [done|].
  apply IH. by apply H.
Qed.

Lemma told_for_urls us keys s :
  let r := for_urls us keys s in
  told s -> fst r = None -> told (snd r).
Proof.
  revert s. induction us as [|u rest IH]; intros s; [done|].
  cbn [Engine.for_urls]. intros Hs.
  assert (told (begin_url u s)) as Hs' by (by frame).
  pose proof (told_for_keys u keys (begin_url u s) Hs') as H. cbn zeta in H.
  destruct (for_keys u keys (begin_url u s)) as [[r|] s']; cbn [fst snd] in *;
    [done|].
  apply IH. by apply H.
Qed.

(** The replies that come out of the loops. *)
Abbreviation from_loops r :=
  (match r with
   | FailoverExhausted _ | ProbeSuccessFullFailed _ => False
   | _ => True
   end).

Lemma loops_reply_attempt_body url key is_probe body a s r :
  fst (attempt_body url key is_probe body a s) = Return r -> from_loops r.
Proof.
  assert (forall s1, fst (on_request_error url key is_probe a s1) = Return r ->
                     from_loops r) as Herr.
  { intros s1. unfold Engine.on_request_error, retry_or. by case_match. }
  assert (forall s1 x, fst (on_failure url key is_probe a x s1) = Return r ->
                       from_loops r) as Hfail.
  { intros s1 x. unfold Engine.on_failure, Engine.on_auth_error, retry_or.
    repeat (case_match; cbn [fst]); intros; by simplify_eq. }
  assert (forall s1 x, fst (on_success url key is_probe a x s1) = Return r ->
                       from_loops r) as Hsucc.
  { intros s1 x.
    unfold Engine.on_success, Engine.on_request_error, Engine.after_probe,
      retry_or.
    repeat (case_match; cbn [fst]); intros; by simplify_eq. }
  unfold Engine.attempt_body. cbn zeta. repeat case_match; eauto.
Qed.

Lemma loops_reply_for_urls us keys s r :
  fst (for_urls us keys s) = Some r -> from_loops r.
Proof.
  assert (forall url key is_probe body attempts s0,
            fst (for_attempts url key is_probe body attempts s0) = Some r ->
            from_loops r) as Hattempts.
  { intros url key is_probe body attempts.
    induction attempts as [|a rest IH]; intros s0; [done|].
    cbn [Engine.for_attempts].
    pose proof (loops_reply_attempt_body url key is_probe body a s0) as H.
    destruct (attempt_body url key is_probe body a s0) as [[| |r0] s1];
      cbn [fst] in *; [apply IH|done|].
    intros [= <-]. by apply H. }
  assert (forall url s0,
            fst (for_keys url keys s0) = Some r -> from_loops r) as Hkeys.
  { intros url. induction keys as [|k rest IH]; intros s0; [done|].
    cbn [Engine.for_keys]. unfold Engine.key_body.
    pose proof (Hattempts url k (should_use_probe (ctx s0))
                  (get_request_body (ctx s0)) attempt_range
                  (with_glob (increment_key_usage k) s0)) as H.
    destruct (for_attempts _ _ _ _ _ _) as [[r0|] s1]; cbn [fst] in *;
      [exact H|apply IH]. }
  revert s. induction us as [|u rest IH]; intros s; [done|].
  cbn [Engine.for_urls]. pose proof (Hkeys u (begin_url u s)) as H.
  destruct (for_keys u keys (begin_url u s)) as [[r0|] s1]; cbn [fst] in *;
    [exact H|apply IH].
Qed.

(** X11.  What a reply of status 502 says: its details are the notes of
    the run, and it is of type [probe_success_full_failed] exactly when,
    after a probe had succeeded, the head of an answer to the original
    body came with a status of 400 or more, whether or not the body of
    that answer could then be read.  A note of a probe that succeeded
    while the original body failed is found only in such a run;
    [failover_exhausted] is answered only when there is no such note. *)
Theorem exhausted_reply_reports_probe body start g r s :
  failover body start g = Ok (r, s) ->
  match r with
  | FailoverExhausted details =>
      details = all_errors s /\ resend_refused (sent s) = false /\
      existsb is_probe_note details = false
  | ProbeSuccessFullFailed details =>
      details = all_errors s /\ resend_refused (sent s) = true
  | _ => True
  end.
Proof.
  intros Hrun. unfold Engine.failover in Hrun.
  destruct (get_keys_sorted_by_usage _ _ _) as [[ks g1]|];
    cbn [mbind result_bind bind] in Hrun; [|done].
  destruct (get_available_urls _ _ _) as [us g2].
  set (s0 := start_of g2 body) in *.
  assert (told s0) as H0 by done.
  pose proof (told_for_urls us ks s0 H0) as H. cbn zeta in H.
  destruct (for_urls us ks s0) as [[reply|] s1] eqn:Hloop; cbn [fst snd] in *.
  - pose proof (loops_reply_for_urls us ks s0 reply) as Hreply.
    rewrite Hloop in Hreply. specialize (Hreply eq_refl).
    injection Hrun as <- <-. by destruct reply.
  - destruct (H eq_refl) as [Hflag Hnote].
    destruct (probe_succeeded_but_full_failed (ctx s1)) eqn:E;
      injection Hrun as <- <-; [done|].
    split; [done|]. split; [done|].
    destruct (existsb is_probe_note (all_errors s1)); [|done].
    by specialize (Hnote eq_refl).
Qed.

(** *** Answers that end the run at once *)

(** The first round for the first key on a URL. *)
Lemma first_round url key us ks s :
  for_urls (url :: us) (key :: ks) s
  = match attempt_body url key (should_use_probe (ctx s))
            (get_request_body (ctx s)) 1
            (with_glob (increment_key_usage key) (begin_url url s)) with
    | (Return r, s') => (Some r, s')
    | (Break, s') =>
        match for_keys url ks s' with
        | (Some r, s'') => (Some r, s'')
        | (None, s'') => for_urls us (key :: ks) s''
        end
    | (Continue, s') =>
        match
          match for_attempts url key (should_use_probe (ctx s))
                  (get_request_body (ctx s)) [2%nat] s' with
          | (Some r, s'') => (Some r, s'')
          | (None, s'') => for_keys url ks s''
          end
        with
        | (Some r, s'') => (Some r, s'')
        | (None, s'') => for_urls us (key :: ks) s''
        end
    end.
Proof.
  cbn [Engine.for_urls Engine.for_keys]. unfold Engine.key_body.
  unfold attempt_range, MAX_RETRY_ATTEMPTS. cbn [seq].
  rewrite for_attempts_cons. frame.
  by destruct (attempt_body _ _ _ _ _ _) as [[| |r] s'].
Qed.

(** X12.  An answer with a status from 400 to 499 that is neither a
    challenge page nor an auth error is handed to the client as it is:
    no second round, no other key, no other URL, no note, and no key is
    listed as pending.  The one request is preceded by the call of
    [fetch_waf_cookie] for the URL, made without force when the URL
    names a host behind the WAF, and by nothing else. *)
Theorem client_error_is_passed_through url key us ks s a :
  upstream (length (sent s)) = Answers a ->
  passed_through json_loads a ->
  let s' := after_failed_answer url key (should_use_probe (ctx s))
              (get_request_body (ctx s)) 1
              (with_glob (increment_key_usage key) (begin_url url s)) in
  for_urls (url :: us) (key :: ks) s
  = (Some (AsIs (status_code a) (resp_text a)), s') /\
  sent s' = sent s ++ [Request url key (get_request_body (ctx s)) 1
                         (should_use_probe (ctx s))
                         (full_context_attempts (ctx s)) false] /\
  (exists requested,
     waf_calls s'
     = waf_calls s ++ (if waf_host url
                       then [WafCall url false (length (sent s)) requested]
                       else []) /\
     (requested = [] \/ requested = [url +:+ "/"])) /\
  pending_cooldown_keys (glob s') = pending_cooldown_keys (glob s) /\
  key_cooldown_until (glob s') = key_cooldown_until (glob s) /\
  all_errors s' = all_errors s.
Proof.
  intros Hup (Hst & Hwaf & Hcls) s'. split; [|split; [|split]].
  - rewrite first_round.
    unfold Engine.attempt_body, Engine.on_failure, Engine.before_attempt.
    cbn [Nat.ltb Nat.leb sent with_glob add_request]. frame. rewrite Hup.
    rewrite (proj2 (Z.ltb_ge _ _)) by lia.
    unfold is_challenge in Hwaf. cbn [resp_text with_ctx]. rewrite Hwaf.
    rewrite (proj2 (Z.leb_gt _ _)) by lia.
    subst s'. unfold Engine.after_failed_answer, Engine.before_attempt.
    cbn [Nat.ltb Nat.leb with_glob with_ctx add_request ctx sent]. frame.
    by destruct (classify_4xx json_loads a).
  - subst s'. cbn. by frame.
  - subst s'. cbn [Engine.after_failed_answer Engine.before_attempt Nat.ltb
                   Nat.leb with_glob with_ctx add_request waf_calls].
    apply begin_url_calls.
  - subst s'. cbn. by frame.
Qed.

(** X13.  An answer with a status below 400 to a request that carries the
    original body is streamed to the client, whatever its text and
    whether or not its body arrives whole: the run ends there, with the
    keys pending on the URL confirmed.  The one request is preceded by
    the call of [fetch_waf_cookie] for the URL, made without force when
    the URL names a host behind the WAF, and by nothing else. *)
Theorem success_ends_the_run url key us ks s a :
  answer_head (upstream (length (sent s))) = Some a ->
  (status_code a < 400)%Z ->
  should_use_probe (ctx s) = false ->
  exists s' requested,
    for_urls (url :: us) (key :: ks) s = (Some (Streamed url key a), s') /\
    sent s' = sent s ++ [Request url key FullBody 1 false
                           (full_context_attempts (ctx s)) false] /\
    waf_calls s'
    = waf_calls s ++ (if waf_host url
                      then [WafCall url false (length (sent s)) requested]
                      else []) /\
    (requested = [] \/ requested = [url +:+ "/"]) /\
    glob s'
    = confirm_cooldown_for_url url now (increment_key_usage key (glob s)) /\
    all_errors s' = all_errors s.
Proof.
  intros Hup Hst Hfull.
  destruct (begin_url_calls url s) as (requested & Hcalls & Hrequested).
  eexists _, requested. split; [|split; [|split; [|split; [|split]]]].
  - rewrite first_round.
    unfold Engine.attempt_body, Engine.on_success, Engine.before_attempt,
      get_request_body.
    rewrite Hfull. cbn [Nat.ltb Nat.leb sent with_glob add_request]. frame.
    destruct (upstream (length (sent s))) as [r|r|]; [| |done];
      injection Hup as ->; rewrite (proj2 (Z.ltb_lt _ _)) by lia;
      reflexivity.
  - cbn. by frame.
  - exact Hcalls.
  - exact Hrequested.
  - cbn. by frame.
  - cbn. by frame.
Qed.

(** X14.  In probe mode the client never gets the answer to the probe:
    when the probe is answered with a status below 400 the original body
    is sent at once to the same URL with the same key, and it is the
    answer to that request that is streamed.  The two requests are
    preceded by the call of [fetch_waf_cookie] for the URL, made without
    force when the URL names a host behind the WAF; nothing is fetched
    between them. *)
Theorem probe_success_resends_original url key us ks s p a :
  should_use_probe (ctx s) = true ->
  answer_head (upstream (length (sent s))) = Some p ->
  (status_code p < 400)%Z ->
  answer_head (upstream (S (length (sent s)))) = Some a ->
  (status_code a < 400)%Z ->
  exists s' requested,
    for_urls (url :: us) (key :: ks) s = (Some (Streamed url key a), s') /\
    sent s' = sent s ++ [Request url key ProbeBody 1 true
                           (full_context_attempts (ctx s)) false;
                         Request url key FullBody 1 true
                           (full_context_attempts (ctx s)) true] /\
    waf_calls s'
    = waf_calls s ++ (if waf_host url
                      then [WafCall url false (length (sent s)) requested]
                      else []) /\
    (requested = [] \/ requested = [url +:+ "/"]) /\
    full_context_attempts (ctx s') = full_context_attempts (ctx s) /\
    probe_attempts (ctx s') = (probe_attempts (ctx s) + 1)%Z /\
    last_working_url (ctx s') = Some url /\
    last_working_key (ctx s') = Some key /\
    glob s'
    = confirm_cooldown_for_url url now (increment_key_usage key (glob s)).
Proof.
  intros Hprobe Hup Hst Hup' Hst'.
  destruct (begin_url_calls url s) as (requested & Hcalls & Hrequested).
  assert (forall e r, answer_head e = Some r ->
            (status_code r < 400)%Z ->
            match e with
            | Answers x | Truncated x => x = r /\ (status_code x <? 400)%Z = true
            | RequestError => False
            end) as Hhead.
  { intros [x|x|] r [= <-] Hlt; split; try done; by apply Z.ltb_lt. }
  apply Hhead in Hup; [|done]. apply Hhead in Hup'; [|done].
  eexists _, requested. split; [|split; [|split; [|split]]].
  - rewrite first_round.
    unfold Engine.attempt_body, Engine.on_success, Engine.before_attempt,
      get_request_body.
    rewrite Hprobe. cbn [Nat.ltb Nat.leb sent with_glob add_request with_ctx].
    frame.
    assert (forall x,
              match upstream (S (length (sent s))) with
              | RequestError =>
                  on_request_error url key true 1 x
              | Truncated full_resp =>
                  if (400 <=? status_code full_resp)%Z
                  then on_request_error url key true 1
                         (with_ctx set_probe_succeeded_but_full_failed x)
                  else (Return (Streamed url key full_resp),
                        with_glob (confirm_cooldown_for_url url now) x)
              | Answers full_resp => after_probe url key 1 full_resp x
              end
              = (Return (Streamed url key a),
                 with_glob (confirm_cooldown_for_url url now) x)) as Hresend.
    { intros x. unfold Engine.after_probe.
      destruct (upstream (S (length (sent s)))) as [y|y|]; [| |done];
        destruct Hup' as [-> _];
        by rewrite (proj2 (Z.leb_gt _ _)) by lia. }
    destruct (upstream (length (sent s))) as [y|y|]; [| |done];
      destruct Hup as [-> ->]; rewrite length_app; cbn [length];
      rewrite Nat.add_1_r, Hresend; reflexivity.
  - cbn. frame. by rewrite <- app_assoc.
  - exact Hcalls.
  - exact Hrequested.
  - cbn. by frame.
Qed.

End Loops.

Section Empty.
Variable json_loads : string -> option json.
Variable upstream : nat -> event.
Variable now : Q.
Variable world : waf_world.

(** With no key the URL loop only looks up the cache entry of each URL
    and, for a host behind the WAF, fetches a cookie unless the cache
    has one. *)
Lemma for_urls_no_key us s :
  exists s',
    Engine.for_urls json_loads [] upstream now world us [] s = (None, s') /\
    glob s' = glob s /\ ctx s' = ctx s /\ all_errors s' = all_errors s /\
    sent s' = sent s /\
    exists calls,
      waf_calls s' = waf_calls s ++ calls /\
      map w_url calls = List.filter waf_host us /\
      Forall (fun c => w_force c = false /\ w_after c = length (sent s) /\
                       (w_requested c = [] \/
                        w_requested c = [w_url c +:+ "/"])) calls.
Proof.
  revert s. induction us as [|u us IH]; intros s.
  - exists s. repeat split; try done. exists []. by rewrite app_nil_r.
  - cbn [Engine.for_urls Engine.for_keys List.filter].
    destruct (IH (Engine.begin_url world u s))
      as (s' & -> & Hg & Hc & He & Hs & calls & Hcalls & Hurls & Hall).
    exists s'. split; [done|].
    rewrite Hg, Hc, He, Hs, begin_url_glob, begin_url_ctx, begin_url_errors,
      begin_url_sent.
    repeat split; try done.
    destruct (begin_url_calls world u s) as (requested & Hb & Hrequested).
    rewrite Hcalls, Hb. rewrite begin_url_sent in Hall.
    destruct (waf_host u).
    + eexists (_ :: calls). rewrite <- app_assoc. split; [done|].
      cbn [map w_url]. split; [by rewrite Hurls|].
      constructor; [|done]. by repeat split.
    + exists calls. by rewrite app_nil_r.
Qed.

(** X15.  With no key configured, and likewise with no URL configured, a
    run sends no proxied request and answers [failover_exhausted] with
    no details.  With no key it still calls [fetch_waf_cookie], without
    force, once for each available URL that names a host behind the WAF;
    with no URL it does nothing at all. *)
Theorem nothing_configured_nothing_sent body start g :
  (forall CANDIDATE_URLS,
     exists s,
       Engine.failover json_loads CANDIDATE_URLS [] upstream now world
         body start g
       = Ok (FailoverExhausted [], s) /\
       glob s = snd (get_available_urls CANDIDATE_URLS start g) /\
       ctx s = new_RetryContext json_loads body /\
       all_errors s = [] /\ sent s = [] /\
       map w_url (waf_calls s)
       = List.filter waf_host
           (fst (get_available_urls CANDIDATE_URLS start g)) /\
       Forall (fun c => w_force c = false /\ w_after c = 0%nat /\
                        (w_requested c = [] \/
                         w_requested c = [w_url c +:+ "/"]))
         (waf_calls s)) /\
  (forall CANDIDATE_API_KEYS ks g1,
     get_keys_sorted_by_usage CANDIDATE_API_KEYS start g = Ok (ks, g1) ->
     Engine.failover json_loads [] CANDIDATE_API_KEYS upstream now world
       body start g
     = Ok (FailoverExhausted [],
           State g1 (new_RetryContext json_loads body) [] []
             (cached world) [])).
Proof.
  split.
  - intros us. unfold Engine.failover.
    change (get_keys_sorted_by_usage [] start g) with (@Ok _ ([] : list string, g)).
    cbn [mbind result_bind bind].
    destruct (get_available_urls us start g) as [l g2]. cbn [snd fst].
    destruct (for_urls_no_key l
                (State g2 (new_RetryContext json_loads body) [] []
                   (cached world) []))
      as (s' & -> & Hg & Hc & He & Hs & calls & Hcalls & Hurls & Hall).
    cbn [glob ctx all_errors sent waf_calls app length] in *.
    exists s'. rewrite Hc. cbn [probe_succeeded_but_full_failed new_RetryContext].
    rewrite He, Hcalls. by repeat split.
  - intros keys ks g1 Hkeys. unfold Engine.failover. rewrite Hkeys.
    cbn [mbind result_bind bind]. done.
Qed.

End Empty.
End LoopFacts.

(** ** The cache of WAF cookies *)

Module WafFacts.
Import Solver WafCookies SolverFacts.

Lemma contains_app (needle pre post : list ascii) :
  contains needle (pre ++ needle ++ post) = true.
Proof.
  induction pre as [|c pre IH].
  - cbn [app]. destruct (needle ++ post) eqn:E.
    + destruct needle; [done|done].
    + cbn [contains]. rewrite <- E. by rewrite prefix_strip_app.
  - cbn [app contains]. rewrite IH. by destruct (prefix_strip _ _).
Qed.

(** A page on which the pattern of the solver occurs carries the marker
    the callers look for. *)
Lemma occurs_marker (text : string) (hex : list ascii) :
  occurs (chars text) hex -> str_in "var arg1=" text = true.
Proof.
  intros (_ & _ & pre & post & Htext). unfold str_in. rewrite Htext.
  change arg1_prefix with (chars "var arg1=" ++ ["'"%char]).
  rewrite <- !app_assoc. apply contains_app.
Qed.

Lemma solve_occurs (text : string) (hex : list ascii) :
  occurs (chars text) hex ->
  exists token, solve_acw_challenge text = Ok (Some token) /\ token <> "".
Proof.
  intros Hocc. destruct (re_search_complete _ _ Hocc) as [arg1 Hs].
  destruct (re_search_sound _ _ Hs) as (Hne & Hhex & _).
  destruct (token_of_ok arg1 Hhex) as (token & Htok & Hlen & _).
  exists token. unfold solve_acw_challenge. rewrite Hs, Htok.
  split; [done|]. intros ->. change (String.length "") with 0%nat in Hlen.
  destruct arg1 as [|c arg1]; [done|]. cbn [length] in Hlen.
  pose proof (Nat.div_le_lower_bound (Nat.min 40 (S (length arg1)) + 1) 2 1)
    as Hdiv.
  lia.
Qed.

Lemma store_all_lookup (items : list (string * string))
    (m : gmap string string) (k : string) :
  k ∉ items.*1 -> store_all items m !! k = m !! k.
Proof.
  revert m. induction items as [|[k' v] items IH]; intros m Hk; [done|].
  cbn [store_all foldl fst snd] in *.
  apply not_elem_of_cons in Hk as [Hne Hk].
  fold (store_all items (<[k' := v]> m)). rewrite IH by done.
  by rewrite lookup_insert_ne.
Qed.

Lemma store_all_not_empty (items : list (string * string))
    (m : gmap string string) :
  m <> ∅ -> store_all items m <> ∅.
Proof.
  revert m. induction items as [|[k v] items IH]; intros m Hm; [done|].
  cbn [store_all foldl]. apply IH. apply insert_non_empty.
Qed.

Section Fetch.
Variable client_get : string -> fetched.
Abbreviation fetch_waf_cookie := (fetch_waf_cookie client_get).

Lemma fetch_fresh base_url current_time cache e :
  cache !! base_url = Some e -> fresh e current_time ->
  fetch_waf_cookie base_url false current_time cache = (true, cache, []).
Proof.
  intros He [Hne Hlt]. unfold WafCookies.fetch_waf_cookie, get_waf_cookies.
  rewrite He. rewrite bool_decide_false by done.
  rewrite (CooldownFacts.Qle_bool_false _ _ Hlt). done.
Qed.

(** X23.  A cookie is reused for [WAF_COOKIE_TTL] seconds: a call that is not
    forced, for a URL whose entry holds some cookie and is younger than
    300 seconds, returns [True] without a request and leaves the cache
    as it is. *)
Theorem cached_cookie_is_reused base_url current_time cache e :
  cache !! base_url = Some e ->
  cookies e <> ∅ ->
  (current_time - timestamp e < WAF_COOKIE_TTL)%Q ->
  fetch_waf_cookie base_url false current_time cache = (true, cache, []).
Proof. intros He Hne Hlt. by apply (fetch_fresh _ _ _ e). Qed.

(** X24.  When the page fetched is a challenge page, the token of the solver
    is stored as [acw_sc__v2] (unless the response itself sets a cookie
    of that name), the time is recorded, one request was made, and for
    the next 300 seconds an unforced call is answered from the cache. *)
Theorem solved_cookie_is_cached base_url current_time cache text resp_cookies
    hex force :
  client_get (base_url +:+ "/") = Page text resp_cookies false ->
  occurs (chars text) hex ->
  force = true \/
    (forall e, cache !! base_url = Some e -> ~ fresh e current_time) ->
  exists token e',
    solve_acw_challenge text = Ok (Some token) /\
    fetch_waf_cookie base_url force current_time cache
    = (true, <[base_url := e']> cache, [base_url +:+ "/"]) /\
    timestamp e' = current_time /\
    ("acw_sc__v2" ∉ resp_cookies.*1 ->
     cookies e' !! "acw_sc__v2" = Some token) /\
    forall later,
      (later - current_time < WAF_COOKIE_TTL)%Q ->
      fetch_waf_cookie base_url false later (<[base_url := e']> cache)
      = (true, <[base_url := e']> cache, []).
Proof.
  intros Hget Hocc Hmiss.
  destruct (solve_occurs text hex Hocc) as (token & Hsolve & Hne).
  set (e := default (Entry ∅ 0) (cache !! base_url)).
  set (stored := store_all resp_cookies (<["acw_sc__v2" := token]> (cookies e))).
  exists token, (Entry stored current_time).
  split; [done|]. split; [|split; [done|split]].
  - unfold WafCookies.fetch_waf_cookie, get_waf_cookies.
    assert (negb force && negb (bool_decide (cookies e = ∅))
            && negb (Qle_bool WAF_COOKIE_TTL (current_time - timestamp e))
            = false) as Hrefresh.
    { destruct Hmiss as [->|Hmiss]; [done|].
      destruct (cache !! base_url) as [e0|] eqn:He0.
      - subst e. cbn [default from_option id].
        destruct (bool_decide (cookies e0 = ∅)) eqn:Hc;
          [by rewrite andb_false_r|].
        apply bool_decide_eq_false in Hc.
        destruct (Qle_bool WAF_COOKIE_TTL (current_time - timestamp e0)) eqn:Hq;
          [by rewrite andb_false_r|].
        exfalso. apply (Hmiss e0 eq_refl). split; [done|].
        apply Qnot_le_lt. intros Hle. apply Qle_bool_iff in Hle. congruence.
      - subst e. cbn. by rewrite bool_decide_true, andb_false_r. }
    destruct (cache !! base_url) as [e0|] eqn:He0;
      subst e stored; cbn [default from_option id] in *;
      rewrite Hrefresh, Hget, (occurs_marker _ _ Hocc), orb_true_r, Hsolve;
      rewrite (proj2 (String.eqb_neq _ _)) by done.
    + done.
    + by rewrite insert_insert_eq.
  - intros Hno. subst stored. cbn [cookies].
    by rewrite store_all_lookup, lookup_insert_eq.
  - intros later Hlater. apply (fetch_fresh _ _ _ (Entry stored current_time)).
    + by rewrite lookup_insert_eq.
    + split; [|done]. subst stored. cbn [cookies].
      apply store_all_not_empty, insert_non_empty.
Qed.

(** X25.  A request that fails stores nothing: the call returns [False] and
    the cookies and the time of every URL are what they were (the entry
    of the URL is created empty if there was none). *)
Theorem failed_fetch_keeps_cookies base_url current_time cache force :
  client_get (base_url +:+ "/") = GetFailed ->
  force = true \/
    (forall e, cache !! base_url = Some e -> ~ fresh e current_time) ->
  let r := fetch_waf_cookie base_url force current_time cache in
  fst (fst r) = false /\
  snd r = [base_url +:+ "/"] /\
  (forall u e, cache !! u = Some e -> snd (fst r) !! u = Some e) /\
  (forall u e, snd (fst r) !! u = Some e ->
     cache !! u = Some e \/ (u = base_url /\ e = Entry ∅ 0)).
Proof.
  intros Hget Hmiss r. subst r.
  unfold WafCookies.fetch_waf_cookie, get_waf_cookies.
  destruct (cache !! base_url) as [e0|] eqn:He0.
  - assert (negb force && negb (bool_decide (cookies e0 = ∅))
            && negb (Qle_bool WAF_COOKIE_TTL (current_time - timestamp e0))
            = false) as ->.
    { destruct Hmiss as [->|Hmiss]; [done|].
      destruct (bool_decide (cookies e0 = ∅)) eqn:Hc;
        [by rewrite andb_false_r|].
      apply bool_decide_eq_false in Hc.
      destruct (Qle_bool WAF_COOKIE_TTL (current_time - timestamp e0)) eqn:Hq;
        [by rewrite andb_false_r|].
      exfalso. apply (Hmiss e0 eq_refl). split; [done|].
      apply Qnot_le_lt. intros Hle. apply Qle_bool_iff in Hle. congruence. }
    rewrite Hget. cbn [fst snd]. repeat split; auto.
  - cbn [cookies]. rewrite bool_decide_true, andb_false_r by done. cbn [andb].
    rewrite Hget. cbn [fst snd]. repeat split.
    + intros u e Hu. rewrite lookup_insert_ne; [done|]. congruence.
    + intros u e Hu. destruct (decide (u = base_url)) as [->|Hne].
      * rewrite lookup_insert_eq in Hu. injection Hu as <-. by right.
      * rewrite lookup_insert_ne in Hu by done. by left.
Qed.

(** X26.  An entry without a cookie is never served from the cache: for a URL
    that answers without a challenge and sets no cookie every call, forced
    or not and however soon after the last one, makes a request again. *)
Theorem empty_jar_is_fetched_again base_url current_time later cache text
    force force' :
  client_get (base_url +:+ "/") = Page text [] false ->
  str_in "acw_sc__v2" text || str_in "var arg1=" text = false ->
  (forall e, cache !! base_url = Some e -> cookies e = ∅) ->
  let e' := Entry ∅ current_time in
  fetch_waf_cookie base_url force current_time cache
  = (true, <[base_url := e']> cache, [base_url +:+ "/"]) /\
  fetch_waf_cookie base_url force' later (<[base_url := e']> cache)
  = (true, <[base_url := Entry ∅ later]> cache, [base_url +:+ "/"]).
Proof.
  intros Hget Hplain Hempty e'. split.
  - unfold WafCookies.fetch_waf_cookie, get_waf_cookies.
    destruct (cache !! base_url) as [e0|] eqn:He0.
    + rewrite (Hempty e0 eq_refl), bool_decide_true, andb_false_r by done.
      cbn [andb]. rewrite Hget, Hplain. done.
    + cbn [cookies]. rewrite bool_decide_true, andb_false_r by done.
      cbn [andb]. rewrite Hget, Hplain. cbn [store_all foldl].
      by rewrite insert_insert_eq.
  - unfold WafCookies.fetch_waf_cookie, get_waf_cookies.
    rewrite lookup_insert_eq. subst e'. cbn [cookies].
    rewrite bool_decide_true, andb_false_r by done. cbn [andb].
    rewrite Hget, Hplain. cbn [store_all foldl]. by rewrite insert_insert_eq.
Qed.

End Fetch.
End WafFacts.

(** ** The rotation indices and the header filters *)

Module RotationFacts.
Import Rotation.

Section Config.
Variable CANDIDATE_URLS : list string.
Variable CANDIDATE_API_KEYS : list string.

Lemma calls_from (items : list string)
    (f : indices -> error + string * indices)
    (index : indices -> option nat) (kept : indices -> Prop) (n : nat) :
  (forall st i x, kept st -> index st = Some i -> items !! i = Some x ->
     exists st', f st = inr (x, st') /\
                 index st' = Some ((i + 1) mod length items)%nat /\
                 kept st') ->
  forall j st, kept st -> (j < length items)%nat -> index st = Some j ->
  exists l st',
    calls f n st = inr (l, st') /\
    length l = n /\
    (forall i, (i < n)%nat -> l !! i = items !! ((j + i) mod length items)%nat) /\
    index st' = Some ((j + n) mod length items)%nat /\
    kept st'.
Proof.
  intros Hf. induction n as [|n IH]; intros j st Hkept Hj Hst.
  - exists [], st. split; [done|]. split; [done|]. split; [lia|].
    by rewrite Nat.add_0_r, Nat.mod_small.
  - cbn [calls].
    destruct (lookup_lt_is_Some_2 items j Hj) as [x Hx].
    destruct (Hf st j x Hkept Hst Hx) as (st1 & -> & Hst1 & Hkept1).
    assert (length items <> 0)%nat as Hlen by lia.
    destruct (IH ((j + 1) mod length items)%nat st1)
      as (l & st' & -> & Hl & Hlook & Hidx & Hkept');
      [done|by apply Nat.mod_upper_bound|done|].
    exists (x :: l), st'. split; [done|]. split; [cbn; lia|]. split; [|split].
    + intros [|i] Hi; cbn [lookup list_lookup].
      * by rewrite Nat.add_0_r, Nat.mod_small.
      * rewrite Hlook by lia.
        rewrite Nat.Div0.add_mod_idemp_l. f_equal. f_equal. lia.
    + rewrite Hidx, Nat.Div0.add_mod_idemp_l. f_equal. f_equal. lia.
    + done.
Qed.

(** X27.  The rotation.  Until [reset_indices] has run, [get_next_url] and
    [get_next_api_key] raise [NameError]: the module never assigns the
    two indices.  After [reset_indices], with no URL configured the call
    raises [IndexError]; otherwise successive calls go through
    [CANDIDATE_URLS] in order and start again at the first when the last
    was returned, the call number [i] returning the URL at index
    [i mod len(CANDIDATE_URLS)].  The keys rotate in the same way, on
    their own index. *)
Theorem rotation_is_round_robin (st : indices) (n : nat) :
  get_next_url CANDIDATE_URLS unassigned = inl NameError /\
  get_next_api_key CANDIDATE_API_KEYS unassigned = inl NameError /\
  (CANDIDATE_URLS = [] ->
     get_next_url CANDIDATE_URLS (reset_indices st) = inl IndexError) /\
  (CANDIDATE_API_KEYS = [] ->
     get_next_api_key CANDIDATE_API_KEYS (reset_indices st) = inl IndexError) /\
  (CANDIDATE_URLS <> [] ->
     exists l st',
       calls (get_next_url CANDIDATE_URLS) n (reset_indices st) = inr (l, st') /\
       length l = n /\
       (forall i, (i < n)%nat ->
          l !! i = CANDIDATE_URLS !! (i mod length CANDIDATE_URLS)%nat) /\
       current_url_index st' = Some (n mod length CANDIDATE_URLS)%nat /\
       current_key_index st' = Some 0%nat) /\
  (CANDIDATE_API_KEYS <> [] ->
     exists l st',
       calls (get_next_api_key CANDIDATE_API_KEYS) n (reset_indices st)
       = inr (l, st') /\
       length l = n /\
       (forall i, (i < n)%nat ->
          l !! i = CANDIDATE_API_KEYS !! (i mod length CANDIDATE_API_KEYS)%nat) /\
       current_key_index st' = Some (n mod length CANDIDATE_API_KEYS)%nat /\
       current_url_index st' = Some 0%nat).
Proof.
  split; [done|]. split; [done|].
  split; [by intros ->|]. split; [by intros ->|]. split.
  - intros Hne.
    destruct (calls_from CANDIDATE_URLS (get_next_url CANDIDATE_URLS)
                current_url_index
                (fun st => current_key_index st = Some 0%nat) n)
      with (j := 0%nat) (st := reset_indices st)
      as (l & st' & Hcalls & Hlen & Hlook & Hidx & Hkept).
    + intros st0 i x Hk Hi Hx. unfold get_next_url. rewrite Hi, Hx. eauto.
    + done.
    + destruct CANDIDATE_URLS; [done|cbn; lia].
    + done.
    + exists l, st'. by repeat split.
  - intros Hne.
    destruct (calls_from CANDIDATE_API_KEYS
                (get_next_api_key CANDIDATE_API_KEYS)
                current_key_index
                (fun st => current_url_index st = Some 0%nat) n)
      with (j := 0%nat) (st := reset_indices st)
      as (l & st' & Hcalls & Hlen & Hlook & Hidx & Hkept).
    + intros st0 i x Hk Hi Hx. unfold get_next_api_key. rewrite Hi, Hx. eauto.
    + done.
    + destruct CANDIDATE_API_KEYS; [done|cbn; lia].
    + done.
    + exists l, st'. by repeat split.
Qed.

End Config.
End RotationFacts.

Module HeaderFacts.
Import Headers.

Section Lower.
Variable str_lower : string -> string.




End Lower.
End HeaderFacts.

(** ** More on the rewriter, the latch and the solver *)

Module MoreFacts.
Import Cooldown Engine Process Rewriter Solver Trace KeyIdFacts CooldownFacts
  KeyOrderFacts EngineFacts ProcessFacts RewriterFacts SolverFacts StoreFacts
  LoopFacts.

Section Rewriter.
Variable json_loads : string -> option json.
Variable float_repr : Q -> string.

End Rewriter.

Section Process.
Variable json_loads : string -> option json.
Variable CANDIDATE_URLS : list string.
Variable CANDIDATE_API_KEYS : list string.

Lemma latch_is_key key now g b g' :
  is_key_in_cooldown CANDIDATE_API_KEYS key now g = Ok (b, g') ->
  nonessential_traffic_disabled g' = nonessential_traffic_disabled g.
Proof.
  unfold is_key_in_cooldown. intros H.
  destruct (key_cooldown_until g !! _) as [v|]; [|by injection H as _ <-].
  destruct (float_ge now v) as [[]|]; cbn [mbind result_bind bind] in H;
    [|by injection H as _ <-|done].
  by injection H as _ <-.
Qed.

Lemma latch_keys_not_in_cooldown keys now g l g' :
  keys_not_in_cooldown CANDIDATE_API_KEYS keys now g = Ok (l, g') ->
  nonessential_traffic_disabled g' = nonessential_traffic_disabled g.
Proof.
  revert g l g'. induction keys as [|k keys IH]; intros g l g' H.
  - by injection H as _ <-.
  - cbn [keys_not_in_cooldown] in H.
    destruct (is_key_in_cooldown CANDIDATE_API_KEYS k now g)
      as [[b g2]|] eqn:Hk; cbn [mbind result_bind bind] in H; [|done].
    destruct (keys_not_in_cooldown CANDIDATE_API_KEYS keys now g2)
      as [[l2 g3]|] eqn:Hrest; cbn [mbind result_bind bind] in H; [|done].
    injection H as _ <-. rewrite (IH _ _ _ Hrest). by eapply latch_is_key.
Qed.

(** X19.  Once [nonessential_traffic_disabled] is set it stays set: no call on
    the store and no request, however it ends, clears it. *)
Theorem latch_is_never_cleared g g' :
  step json_loads CANDIDATE_URLS CANDIDATE_API_KEYS g g' ->
  nonessential_traffic_disabled g = true ->
  nonessential_traffic_disabled g' = true.
Proof.
  intros Hstep Hg. destruct Hstep; try done.
  - unfold confirm_cooldown_for_url. by repeat case_match.
  - unfold clear_pending_cooldown. by repeat case_match.
  - by erewrite latch_is_key.
  - unfold is_url_in_cooldown. by repeat case_match.
  - destruct (failover_trace _ _ _ _ _ _ _ _ _ _ _ H)
      as (ks & g1 & us & g2 & Hkeys & Hurls & ->).
    apply latch_is_monotone. cbn [glob].
    pose proof (available_urls_frame CANDIDATE_URLS start g1)
      as (_ & _ & _ & _ & Hn & _).
    rewrite Hurls in Hn. cbn [snd] in Hn. rewrite Hn.
    unfold get_keys_sorted_by_usage, get_available_keys in Hkeys.
    destruct (keys_not_in_cooldown _ _ _ _) as [[available g1']|] eqn:Hav;
      cbn [mbind result_bind bind] in Hkeys; [|done].
    apply latch_keys_not_in_cooldown in Hav.
    destruct available; injection Hkeys as _ <-; congruence.
Qed.
End Process.

Section Loops.
Variable json_loads : string -> option json.
Variable CANDIDATE_URLS : list string.
Variable CANDIDATE_API_KEYS : list string.
Variable upstream : nat -> event.
Variable now : Q.
Variable world : waf_world.

Abbreviation attempt_body :=
  (attempt_body json_loads CANDIDATE_API_KEYS upstream now world).
Abbreviation for_attempts :=
  (for_attempts json_loads CANDIDATE_API_KEYS upstream now world).
Abbreviation for_keys :=
  (for_keys json_loads CANDIDATE_API_KEYS upstream now world).
Abbreviation for_urls :=
  (for_urls json_loads CANDIDATE_API_KEYS upstream now world).
Abbreviation failover :=
  (failover json_loads CANDIDATE_URLS CANDIDATE_API_KEYS upstream now world).

(** The state in which a streamed reply is returned. *)
Abbreviation confirmed_on u s :=
  (exists g0, glob s = confirm_cooldown_for_url u now g0).

Lemma streamed_attempt_body url key is_probe body a s u k r :
  fst (attempt_body url key is_probe body a s) = Return (Streamed u k r) ->
  u = url /\ confirmed_on u (snd (attempt_body url key is_probe body a s)).
Proof.
  assert (forall s1,
            fst (on_request_error url key is_probe a s1)
            <> Return (Streamed u k r)) as Herr.
  { intros s1. unfold Engine.on_request_error, retry_or. by case_match. }
  assert (forall s1 x,
            fst (Engine.on_failure json_loads CANDIDATE_API_KEYS url key
                   is_probe a x s1)
            <> Return (Streamed u k r)) as Hfail.
  { intros s1 x.
    unfold Engine.on_failure, Engine.on_auth_error, retry_or.
    by repeat (case_match; cbn [fst]). }
  assert (forall s1 x,
            let out := Engine.on_success json_loads upstream now url key
                         is_probe a x s1 in
            fst out = Return (Streamed u k r) ->
            u = url /\ confirmed_on u (snd out)) as Hsucc.
  { intros s1 x.
    unfold Engine.on_success, Engine.on_request_error, Engine.after_probe,
      retry_or, with_glob, with_ctx, add_error, add_request.
    repeat (case_match; cbn [fst snd glob]); intros; simplify_eq; eauto. }
  unfold Engine.attempt_body. cbn zeta.
  repeat case_match; intros Hret;
    first [ by apply Hsucc
          | exfalso; by eapply Herr
          | exfalso; by eapply Hfail ].
Qed.

Lemma streamed_for_attempts url key is_probe body attempts s u k r :
  fst (for_attempts url key is_probe body attempts s) = Some (Streamed u k r) ->
  u = url /\
  confirmed_on u (snd (for_attempts url key is_probe body attempts s)).
Proof.
  revert s. induction attempts as [|a rest IH]; intros s; [done|].
  cbn [Engine.for_attempts].
  pose proof (streamed_attempt_body url key is_probe body a s u k r) as H.
  destruct (attempt_body url key is_probe body a s) as [[| |r0] s'];
    cbn [fst snd] in *; [apply IH|done|].
  intros [= ->]. by apply H.
Qed.

Lemma streamed_for_keys url keys s u k r :
  fst (for_keys url keys s) = Some (Streamed u k r) ->
  u = url /\ confirmed_on u (snd (for_keys url keys s)).
Proof.
  revert s. induction keys as [|key rest IH]; intros s; [done|].
  cbn [Engine.for_keys]. unfold Engine.key_body.
  pose proof (streamed_for_attempts url key (should_use_probe (ctx s))
                (get_request_body (ctx s)) attempt_range
                (with_glob (increment_key_usage key) s) u k r) as H.
  destruct (for_attempts _ _ _ _ _ _) as [[r0|] s']; cbn [fst snd] in *;
    [exact H|apply IH].
Qed.

Lemma streamed_for_urls us keys s u k r :
  fst (for_urls us keys s) = Some (Streamed u k r) ->
  confirmed_on u (snd (for_urls us keys s)).
Proof.
  revert s. induction us as [|url rest IH]; intros s; [done|].
  cbn [Engine.for_urls].
  pose proof (streamed_for_keys url keys (Engine.begin_url world url s) u k r)
    as H.
  destruct (for_keys url keys (Engine.begin_url world url s)) as [[r0|] s'];
    cbn [fst snd] in *; [|apply IH].
  intros Hr. by destruct (H Hr).
Qed.

Lemma confirm_leaves_none_pending url t g :
  default [] (pending_cooldown_keys (confirm_cooldown_for_url url t g) !! url)
  = [].
Proof.
  unfold confirm_cooldown_for_url.
  destruct (pending_cooldown_keys g !! url) as [[|kid l]|] eqn:Hp.
  - by rewrite Hp.
  - cbn. by rewrite lookup_insert_eq.
  - by rewrite Hp.
Qed.

(** X16.  After a run that streamed an answer from URL [u] no key is pending
    on [u]: the keys that were, before the run or since an auth error
    in it, have got their cooldown and the list is empty. *)
Theorem success_leaves_none_pending body start g u k r s :
  failover body start g = Ok (Streamed u k r, s) ->
  default [] (pending_cooldown_keys (glob s) !! u) = [].
Proof.
  intros Hrun. unfold Engine.failover in Hrun.
  destruct (get_keys_sorted_by_usage _ _ _) as [[ks g1]|];
    cbn [mbind result_bind bind] in Hrun; [|done].
  destruct (get_available_urls _ _ _) as [us g2].
  set (s0 := State g2 (new_RetryContext json_loads body) [] []
               (cached world) []) in *.
  pose proof (streamed_for_urls us ks s0 u k r) as H.
  destruct (for_urls us ks s0) as [[reply|] s1]; cbn [fst snd] in *.
  - injection Hrun as -> <-. destruct (H eq_refl) as [g0 ->].
    apply confirm_leaves_none_pending.
  - by destruct (probe_succeeded_but_full_failed (ctx s1)).
Qed.

End Loops.

(** *** The solver reads 40 characters *)

Lemma posList_bound : Forall (fun p => (p <= 40)%nat) posList.
Proof. apply (bool_decide_unpack _). by vm_compute. Qed.

Lemma arg2_take (arg1 : list ascii) : arg2 arg1 = arg2 (take 40 arg1).
Proof.
  unfold arg2. rewrite !outPutList_eq. f_equal.
  apply Forall_fmap_ext_1. eapply Forall_impl; [apply posList_bound|].
  intros p Hp. unfold slot. cbn beta in *. rewrite lookup_take_lt; [done|lia].
Qed.

(** X29.  The cookie is computed from the first 40 characters of the group
    that the pattern captures: two pages whose groups agree on them get
    the same answer from the solver, however the groups go on. *)
Theorem solver_reads_forty_characters (html html' : string)
    (arg1 arg1' : list ascii) :
  re_search (chars html) = Some arg1 ->
  re_search (chars html') = Some arg1' ->
  take 40 arg1 = take 40 arg1' ->
  solve_acw_challenge html = solve_acw_challenge html'.
Proof.
  intros H1 H2 Heq. unfold solve_acw_challenge, token_of.
  by rewrite H1, H2, (arg2_take arg1), (arg2_take arg1'), Heq.
Qed.

End MoreFacts.

(** ** The solver tells challenges apart *)

Module InjectFacts.
Import Solver Trace SolverFacts.

Lemma fmap_nodup_inj {A B} (f : A -> B) (l : list A) (x y : A) :
  NoDup (f <$> l) -> x ∈ l -> y ∈ l -> f x = f y -> x = y.
Proof.
  intros Hnd [i Hi]%list_elem_of_lookup [j Hj]%list_elem_of_lookup Hxy.
  assert (i = j) as ->.
  { apply (proj1 (NoDup_alt _) Hnd i j (f x)).
    - by rewrite list_lookup_fmap, Hi.
    - by rewrite list_lookup_fmap, Hj, Hxy. }
  congruence.
Qed.

Lemma two_digits_inj (z z' : Z) :
  (0 <= z < 256)%Z -> (0 <= z' < 256)%Z ->
  two_digits z = two_digits z' -> z = z'.
Proof.
  intros Hz Hz' Heq.
  assert (NoDup ((fun n => two_digits (Z.of_nat n)) <$> seq 0 256)) as Hnd.
  { apply (bool_decide_unpack _). by vm_compute. }
  assert (Z.to_nat z = Z.to_nat z'); [|lia].
  apply (fmap_nodup_inj _ _ _ _ Hnd).
  - apply elem_of_seq. lia.
  - apply elem_of_seq. lia.
  - by rewrite !Z2Nat.id by lia.
Qed.

Lemma upper_hex_digit (c : ascii) : is_upper_hex c = true -> c ∈ upper_digits.
Proof.
  intros Hc.
  assert (Forall (fun n => is_upper_hex (ascii_of_nat n) = true ->
                           ascii_of_nat n ∈ upper_digits) (seq 0 256)) as Hall.
  { apply (bool_decide_unpack _). by vm_compute. }
  rewrite Forall_forall in Hall.
  rewrite <- (ascii_nat_embedding c) in *. apply Hall; [|done].
  apply elem_of_seq. pose proof (nat_ascii_bounded c). lia.
Qed.

Lemma hex_value_inj (c c' : ascii) :
  is_upper_hex c = true -> is_upper_hex c' = true ->
  hex_value c = hex_value c' -> c = c'.
Proof.
  intros Hc Hc' Heq.
  apply (fmap_nodup_inj hex_value upper_digits);
    try done; try (by apply upper_hex_digit).
  apply (bool_decide_unpack _). by vm_compute.
Qed.

Lemma int16_pair_inj (s s' : list ascii) :
  length s = 2%nat -> length s' = 2%nat ->
  forallb is_upper_hex s = true -> forallb is_upper_hex s' = true ->
  int16 s = int16 s' -> s = s'.
Proof.
  destruct s as [|c [|d [|]]]; try done.
  destruct s' as [|c' [|d' [|]]]; try done.
  intros _ _ Hs Hs'. cbn in Hs, Hs'.
  rewrite andb_true_r in Hs, Hs'.
  apply andb_true_iff in Hs as [Hc Hd]. apply andb_true_iff in Hs' as [Hc' Hd'].
  destruct (hex_value_upper c Hc) as (x & Hx & ?).
  destruct (hex_value_upper d Hd) as (y & Hy & ?).
  destruct (hex_value_upper c' Hc') as (x' & Hx' & ?).
  destruct (hex_value_upper d' Hd') as (y' & Hy' & ?).
  cbn. rewrite Hx, Hy, Hx', Hy'. cbn. intros [= Heq].
  assert (x = x' /\ y = y') as [-> ->] by lia.
  rewrite <- Hx' in Hx. rewrite <- Hy' in Hy.
  by rewrite (hex_value_inj _ _ Hc Hc' Hx), (hex_value_inj _ _ Hd Hd' Hy).
Qed.

Lemma forallb_slice2 (p : ascii -> bool) (l : list ascii) (i : nat) :
  forallb p l = true -> forallb p (slice2 i l) = true.
Proof.
  rewrite !forallb_forall. intros H c Hc. apply H.
  apply list_elem_of_In. apply list_elem_of_In in Hc.
  unfold slice2 in Hc. apply elem_of_take in Hc as (k & Hk & _).
  rewrite lookup_drop in Hk. by eapply list_elem_of_lookup_2.
Qed.

Lemma length_slice2 (l : list ascii) (i : nat) :
  (i + 2 <= length l)%nat -> length (slice2 i l) = 2%nat.
Proof. intros H. unfold slice2. rewrite length_take, length_drop. lia. Qed.

Section Mask.
Variable mask : list ascii.
Hypothesis mask_hex : forallb is_upper_hex mask = true.

Lemma xor_chars_inj (b b' : list ascii) (i : nat) :
  forallb is_upper_hex b = true -> forallb is_upper_hex b' = true ->
  (i + 2 <= length b)%nat -> (i + 2 <= length b')%nat ->
  (i < length mask)%nat ->
  xor_chars b mask i = xor_chars b' mask i ->
  slice2 i b = slice2 i b'.
Proof.
  intros Hb Hb' Hi Hi' Him. unfold xor_chars.
  destruct (int16_slice b i Hb ltac:(lia)) as (v & Hv & ?).
  destruct (int16_slice b' i Hb' ltac:(lia)) as (v' & Hv' & ?).
  destruct (int16_slice mask i mask_hex Him) as (m & Hm & ?).
  rewrite Hv, Hv', Hm. cbn [mbind result_bind bind]. intros [= Heq].
  apply two_digits_inj in Heq; try (by apply lxor_byte).
  assert (v = v') as ->.
  { apply (f_equal (fun z => Z.lxor z m)) in Heq.
    by rewrite !Z.lxor_assoc, Z.lxor_nilpotent, !Z.lxor_0_r in Heq. }
  apply int16_pair_inj;
    try (by apply length_slice2); try (by apply forallb_slice2); congruence.
Qed.

Lemma xor_loop_inj (b b' : list ascii) (idx : list nat) :
  forallb is_upper_hex b = true -> forallb is_upper_hex b' = true ->
  Forall (fun i => (i < length b)%nat /\ (i < length b')%nat /\
                   (i < length mask)%nat) idx ->
  forall acc acc' t,
    foldl (fun acc i => a ← acc; x ← xor_chars b mask i; Ok (a ++ x))
          (Ok acc) idx = Ok t ->
    foldl (fun acc i => a ← acc; x ← xor_chars b' mask i; Ok (a ++ x))
          (Ok acc') idx = Ok t ->
    Forall (fun i => xor_chars b mask i = xor_chars b' mask i) idx.
Proof.
  intros Hb Hb'. induction idx as [|i idx IH] using rev_ind;
    intros Hidx acc acc' t Ht Ht'; [constructor|].
  apply Forall_app in Hidx as [Hidx Hi].
  apply Forall_singleton in Hi as (Hib & Hib' & Him).
  rewrite foldl_snoc in Ht, Ht'.
  destruct (foldl _ (Ok acc) idx) as [r|] eqn:Hr;
    cbn [mbind result_bind bind] in Ht; [|done].
  destruct (foldl _ (Ok acc') idx) as [r'|] eqn:Hr';
    cbn [mbind result_bind bind] in Ht'; [|done].
  destruct (xor_chars_ok b mask i Hb mask_hex Hib Him) as (x & Hx & Hlx & _).
  destruct (xor_chars_ok b' mask i Hb' mask_hex Hib' Him) as (x' & Hx' & Hlx' & _).
  rewrite Hx in Ht. rewrite Hx' in Ht'. cbn [mbind result_bind bind] in Ht, Ht'.
  injection Ht as <-. injection Ht' as Heq.
  apply app_inj_2 in Heq as [-> ->]; [|congruence].
  apply Forall_app. split.
  - by eapply IH.
  - apply Forall_singleton. congruence.
Qed.
End Mask.

Lemma slices_cover (b b' : list ascii) (n : nat) :
  length b = (2 * n)%nat -> length b' = (2 * n)%nat ->
  (forall j, (j < n)%nat -> slice2 (2 * j) b = slice2 (2 * j) b') ->
  b = b'.
Proof.
  intros Hb Hb' Hs. apply list_eq. intros k.
  destruct (decide (k < 2 * n)%nat) as [Hk|Hk].
  - assert (forall l : list ascii,
              l !! k = slice2 (2 * (k / 2)) l !! (k mod 2)%nat) as Hlook.
    { intros l. unfold slice2.
      rewrite lookup_take_lt by (apply Nat.mod_upper_bound; lia).
      rewrite lookup_drop. f_equal. apply Nat.div_mod_eq. }
    rewrite (Hlook b), (Hlook b'), Hs; [done|].
    apply Nat.Div0.div_lt_upper_bound. lia.
  - rewrite !(proj2 (lookup_ge_None _ _)); [done|lia..].
Qed.

Lemma arg3_inj (b b' : list ascii) :
  forallb is_upper_hex b = true -> forallb is_upper_hex b' = true ->
  length b = 40%nat -> length b' = 40%nat ->
  arg3 b (chars "3000176000856006061501533003690027800375")
  = arg3 b' (chars "3000176000856006061501533003690027800375") ->
  b = b'.
Proof.
  intros Hb Hb' Hl Hl'. unfold arg3. rewrite Hl, Hl'.
  set (mask := chars "3000176000856006061501533003690027800375").
  change (Nat.min 40 (length mask)) with 40%nat.
  assert (forallb is_upper_hex mask = true) as Hm by done.
  assert (Forall (fun i => (i < length b)%nat /\ (i < length b')%nat /\
                           (i < length mask)%nat) (range_step2 40)) as Hidx.
  { apply Forall_forall. intros i Hi%range_step2_bound.
    rewrite Hl, Hl'. change (length mask) with 40%nat. lia. }
  destruct (xor_loop_ok b mask (range_step2 40) [] Hb Hm) as (t & Ht & _).
  { eapply Forall_impl; [exact Hidx|]. intros i (Hi & _ & Hi'). by split. }
  rewrite Ht. intros Heq. symmetry in Heq.
  pose proof (xor_loop_inj mask Hm b b' (range_step2 40) Hb Hb' Hidx
                [] [] _ Ht Heq) as Hall.
  rewrite Forall_forall in Hall.
  apply (slices_cover b b' 20); [done..|].
  intros j Hj. apply (xor_chars_inj mask Hm); try done; try lia.
  - change (length mask) with 40%nat. lia.
  - apply Hall. unfold range_step2. apply list_elem_of_fmap.
    exists j. split; [done|]. apply elem_of_seq. cbn. lia.
Qed.

(** With the whole group in place [arg2] is a rearrangement that can be
    undone. *)
Lemma arg2_inj (a a' : list ascii) :
  length a = 40%nat -> length a' = 40%nat -> arg2 a = arg2 a' -> a = a'.
Proof.
  intros Hl Hl' Heq. apply list_eq. intros i.
  destruct (decide (i < 40)%nat) as [Hi|Hi].
  2:{ rewrite !(proj2 (lookup_ge_None _ _)); [done|lia..]. }
  assert (S i ∈ posList) as Hin.
  { rewrite posList_perm. apply elem_of_seq. lia. }
  apply list_elem_of_lookup in Hin as [j Hj].
  assert (forall l : list ascii, length l = 40%nat ->
                                 arg2 l !! j = l !! i) as Hlook.
  { intros l Hlen. unfold arg2. rewrite outPutList_eq.
    assert (forall p, p ∈ posList -> length (slot l p) = 1%nat) as Hone.
    { intros p Hp. pose proof Hp as Hp'.
      rewrite posList_perm in Hp'. apply elem_of_seq in Hp'.
      unfold slot. destruct (lookup_lt_is_Some_2 l (p - 1)) as [c ->]; [lia|].
      done. }
    assert (forall (ps : list nat) k p,
              Forall (fun p => length (slot l p) = 1%nat) ps ->
              ps !! k = Some p ->
              concat (slot l <$> ps) !! k = l !! (p - 1)%nat) as Hcat.
    { induction ps as [|q ps IH]; intros k p Hall Hk; [done|].
      apply Forall_cons in Hall as [Hq Hall]. cbn [fmap list_fmap concat].
      unfold slot in Hq |- * at 1.
      destruct (l !! (q - 1)%nat) as [c|] eqn:Hc; [|done].
      cbn [option_list app]. destruct k as [|k]; cbn [lookup list_lookup] in *.
      - by injection Hk as <-.
      - by apply IH. }
    rewrite (Hcat posList j (S i)); [|by apply Forall_forall|done].
    f_equal. lia. }
  by rewrite <- (Hlook a Hl), <- (Hlook a' Hl'), Heq.
Qed.

(** X30.  Two challenge pages get the same cookie only if the groups captured
    on them agree on their first 40 characters (the groups having 40
    characters or more, as those of the WAF have). *)
Theorem solver_is_injective (html html' : string) (arg1 arg1' : list ascii) :
  re_search (chars html) = Some arg1 ->
  re_search (chars html') = Some arg1' ->
  (40 <= length arg1)%nat -> (40 <= length arg1')%nat ->
  solve_acw_challenge html = solve_acw_challenge html' ->
  take 40 arg1 = take 40 arg1'.
Proof.
  intros H1 H2 Hl Hl'. unfold solve_acw_challenge, token_of.
  rewrite H1, H2, mask_value. cbn [mbind result_bind bind].
  destruct (re_search_sound _ _ H1) as (_ & Hhex & _).
  destruct (re_search_sound _ _ H2) as (_ & Hhex' & _).
  set (mask := chars "3000176000856006061501533003690027800375").
  destruct (arg3_ok (arg2 arg1) mask) as (t & Ht & _);
    [by apply arg2_upper_hex|done|].
  destruct (arg3_ok (arg2 arg1') mask) as (t' & Ht' & _);
    [by apply arg2_upper_hex|done|].
  rewrite Ht, Ht'. cbn [mbind result_bind bind]. intros [= Heq].
  assert (t = t') as <-.
  { by rewrite <- (chars_str t), <- (chars_str t'), Heq. }
  assert (arg2 arg1 = arg2 arg1') as Harg2.
  { apply arg3_inj.
    - by apply arg2_upper_hex.
    - by apply arg2_upper_hex.
    - rewrite arg2_length. lia.
    - rewrite arg2_length. lia.
    - fold mask. congruence. }
  rewrite (MoreFacts.arg2_take arg1), (MoreFacts.arg2_take arg1') in Harg2.
  apply arg2_inj in Harg2; [done|rewrite length_take; lia..].
Qed.

End InjectFacts.

(** ** The properties on samples *)

Module SampleFacts.
Import Cooldown Engine Process Lifecycle Trace WafCookies Rotation Headers
  Rewriter Solver Samples MoreSamples.
Import KeyIdFacts CooldownFacts KeyOrderFacts EngineFacts RunFacts
  ProcessFacts RewriterFacts SolverFacts.
Import StoreFacts PendingFacts RestartFacts LoopFacts MoreFacts WafFacts
  InjectFacts.

Lemma pending_lists_have_no_duplicates_witness :
  pending_cooldown_keys twice_pending !! url_a = Some [_key_id "sk-1"] /\
  NoDup [_key_id "sk-1"].
Proof.
  assert (pending_cooldown_keys twice_pending !! url_a
          = Some [_key_id "sk-1"]) as Hp by (by vm_compute).
  split; [exact Hp|].
  apply (pending_lists_have_no_duplicates Reader.loads [url_a] ["sk-1"]
           None 0 false twice_pending) with (url := url_a); [|exact Hp].
  eapply reach_step; [eapply reach_step; [apply reach_init|]|];
    apply step_add_pending.
Defined.

Lemma restart_keeps_live_key_cooldowns_witness :
  key_cooldown_until (module_init two_keys (Some saved_file) 1000 false)
  = filter (fun kv => is_live 1000 (snd kv) = true) (keys saved_document) /\
  key_cooldown_until (module_init two_keys (Some saved_file) 6000 true)
  = filter (fun kv => is_live 6000 (snd kv) = true) (keys saved_document).
Proof.
  assert (only_key_ids (keys saved_document)) as Hids.
  { apply map_Forall_singleton. apply key_id_form. }
  assert (map_Forall (fun _ v => is_Some (num_of v)) (keys saved_document))
    as Hnum.
  { apply map_Forall_singleton. by eexists. }
  assert (read_back saved_document saved_file) as Hread.
  { exists [(_key_id "sk-1", JFloat 5000)], [].
    split; [reflexivity|]. split.
    - unfold saved_document. cbn [keys]. by rewrite map_to_list_singleton.
    - unfold saved_document. cbn [urls]. by rewrite map_to_list_empty. }
  pose proof (restart_keeps_live_key_cooldowns two_keys saved_document
                saved_file 1000 false eq_refl Hids Hnum Hread) as [H1 _].
  pose proof (restart_keeps_live_key_cooldowns two_keys saved_document
                saved_file 6000 true eq_refl Hids Hnum Hread) as [H2 _].
  split; [exact H1|exact H2].
Defined.

Lemma key_in_cooldown_is_skipped_witness :
  exists l g',
    get_keys_sorted_by_usage two_keys 3600
      (snd (set_key_cooldown two_keys "sk-1" 0 no_globals)) = Ok (l, g') /\
    "sk-1" ∉ l.
Proof.
  destruct (key_in_cooldown_is_skipped two_keys "sk-1" 0 3600 no_globals)
    as (l & g' & Hget & _ & Hskip & _).
  - unfold timestamps. cbn. apply map_Forall_empty.
  - reflexivity.
  - exists l, g'. split; [exact Hget|]. apply Hskip.
    exists "sk-2". split; [by right; left|]. by vm_compute.
Defined.

Lemma requests_try_every_url_witness :
  get_available_urls two_urls 5000
    (module_init two_keys legacy_file 1000 false)
  = (two_urls, module_init two_keys legacy_file 1000 false).
Proof.
  apply (requests_try_every_url Reader.loads two_urls two_keys
           legacy_file 1000 false).
  apply served_init.
Defined.

(** The run used below: two URLs, two keys; a plain 500 twice, an auth
    error, and then a success. *)
Abbreviation mixed_answers :=
  [Answers plain_500; Answers plain_500; Answers auth_401; Answers ok_200].
Abbreviation mixed_run := (run two_urls two_keys mixed_answers).

Lemma mixed_run_returns : exists r s, mixed_run = Ok (r, s).
Proof. eexists _, _. by vm_compute. Qed.

(** The same answers when the first URL names a host behind the WAF. *)
Abbreviation waf_run :=
  (failover Reader.loads waf_urls two_keys (script mixed_answers) 1000
     challenge_world "{}" 0 no_globals).

Lemma waf_run_returns : exists r s, waf_run = Ok (r, s).
Proof. eexists _, _. by vm_compute. Qed.

(** The traffic of that run.  The cookie is fetched before the first
    request to the host behind the WAF and, with force, before every
    second round, on either URL; the probe answered on the second URL is
    followed by the original body, which meets a transport error. *)
Example waf_run_traffic :
  traffic waf_run
  = Some ([(url_w, "sk-1"); (url_w, "sk-1"); (url_w, "sk-2");
           (url_b, "sk-1"); (url_b, "sk-1"); (url_b, "sk-1");
           (url_b, "sk-2"); (url_b, "sk-2")],
          [WafCall url_w false 0 [url_w +:+ "/"];
           WafCall url_w true 1 [url_w +:+ "/"];
           WafCall url_b true 5 [url_b +:+ "/"];
           WafCall url_b true 7 [url_b +:+ "/"]]).
Proof. by vm_compute. Qed.

Lemma request_count_is_bounded_witness :
  exists r s,
    waf_run = Ok (r, s) /\
    (length (sent s) <= 16)%nat /\
    (length (waf_calls s) <= 6)%nat /\
    (length (waf_requests s) <= length (waf_calls s))%nat.
Proof.
  destruct waf_run_returns as (r & s & Hrun).
  exists r, s. split; [done|].
  exact (request_count_is_bounded Reader.loads waf_urls two_keys _ 1000
           challenge_world _ _ _ _ _ Hrun).
Defined.

Lemma requests_use_configured_pairs_witness :
  exists r s,
    waf_run = Ok (r, s) /\
    Forall (fun rq => r_url rq ∈ waf_urls /\ r_key rq ∈ two_keys) (sent s) /\
    Forall (fun c => w_url c ∈ waf_urls /\
                     (w_requested c = [] \/
                      w_requested c = [w_url c +:+ "/"])) (waf_calls s) /\
    Forall (fun target => exists url, url ∈ waf_urls /\ target = url +:+ "/")
      (waf_requests s).
Proof.
  destruct waf_run_returns as (r & s & Hrun).
  exists r, s. split; [done|].
  exact (requests_use_configured_pairs Reader.loads waf_urls two_keys _ 1000
           challenge_world _ _ _ _ _ Hrun).
Defined.

Lemma usage_counts_key_iterations_witness :
  exists r s,
    mixed_run = Ok (r, s) /\
    usage_of (glob s) "sk-1"
    = (usage_of no_globals "sk-1"
       + Z.of_nat (length (List.filter (opens "sk-1") (sent s))))%Z.
Proof.
  destruct mixed_run_returns as (r & s & Hrun).
  exists r, s. split; [done|].
  exact (usage_counts_key_iterations Reader.loads two_urls two_keys _ 1000
           plain_world _ _ _ _ _ "sk-1" Hrun).
Defined.

(** A run in which every answer is an auth error. *)
Abbreviation failing_answers :=
  [Answers auth_401; Answers auth_401; Answers auth_401].
Abbreviation failing_run := (run two_urls ["sk-1"] failing_answers).

Lemma failing_run_returns :
  exists details s, failing_run = Ok (FailoverExhausted details, s).
Proof. eexists _, _. by vm_compute. Qed.

Lemma no_cooldown_without_success_witness :
  exists r s,
    failing_run = Ok (r, s) /\
    key_cooldown_until (glob s) ⊆ key_cooldown_until no_globals.
Proof.
  destruct failing_run_returns as (details & s & Hrun).
  exists (FailoverExhausted details), s. split; [done|].
  exact (no_cooldown_without_success Reader.loads two_urls ["sk-1"] _ 1000
           plain_world _ _ _ _ s Hrun eq_refl).
Defined.

(** A run that reaches probe mode after two plain errors; the probe is
    answered, and the answer to the original body has a status of 500 in
    its head and a body that cannot be read.  Nothing else is answered. *)
Abbreviation truncated_answers :=
  [Answers plain_500; Answers plain_500; Answers ok_200; Truncated plain_500].
Abbreviation truncated_run := (run [url_a] two_keys truncated_answers).

(** The reply is [probe_success_full_failed] and no note of the run is
    the note of a probe: the flag was set before the body was read. *)
Lemma truncated_run_returns :
  exists details s,
    truncated_run = Ok (ProbeSuccessFullFailed details, s) /\
    existsb is_probe_note details = false.
Proof. eexists _, _. split; by vm_compute. Qed.

Lemma exhausted_reply_reports_probe_witness :
  (exists details s,
     failing_run = Ok (FailoverExhausted details, s) /\
     details = all_errors s /\
     resend_refused (script failing_answers) (sent s) = false /\
     existsb is_probe_note details = false) /\
  (exists details s,
     truncated_run = Ok (ProbeSuccessFullFailed details, s) /\
     details = all_errors s /\
     resend_refused (script truncated_answers) (sent s) = true).
Proof.
  split.
  - destruct failing_run_returns as (details & s & Hrun).
    pose proof (exhausted_reply_reports_probe Reader.loads two_urls ["sk-1"]
                  _ 1000 plain_world _ _ _ _ s Hrun) as H.
    by exists details, s.
  - destruct truncated_run_returns as (details & s & Hrun & _).
    pose proof (exhausted_reply_reports_probe Reader.loads [url_a] two_keys
                  _ 1000 plain_world _ _ _ _ s Hrun) as H.
    by exists details, s.
Defined.

Lemma passed_404 : passed_through Reader.loads not_found_404.
Proof. split; [done|]. split; by vm_compute. Qed.

Lemma client_error_is_passed_through_witness :
  for_urls Reader.loads two_keys (script [Answers not_found_404]) 1000
    challenge_world waf_urls two_keys fresh_state
  = (Some (AsIs 404 (resp_text not_found_404)),
     after_failed_answer challenge_world url_w "sk-1" false FullBody 1
       (with_glob (increment_key_usage "sk-1")
          (begin_url challenge_world url_w fresh_state))) /\
  exists requested,
    waf_calls (begin_url challenge_world url_w fresh_state)
    = [WafCall url_w false 0 requested] /\
    (requested = [] \/ requested = [url_w +:+ "/"]).
Proof.
  destruct (client_error_is_passed_through Reader.loads two_keys
              (script [Answers not_found_404]) 1000 challenge_world
              url_w "sk-1" [url_b] ["sk-2"]
              fresh_state not_found_404 eq_refl passed_404)
    as (Hrun & _ & (requested & Hcalls & Hrequested) & _).
  split; [exact Hrun|]. exists requested. split; [exact Hcalls|done].
Defined.

Lemma success_ends_the_run_witness :
  exists s' requested,
    for_urls Reader.loads two_keys (script [Truncated ok_200]) 1000
      challenge_world waf_urls two_keys fresh_state
    = (Some (Streamed url_w "sk-1" ok_200), s') /\
    sent s' = [Request url_w "sk-1" FullBody 1 false 0 false] /\
    waf_calls s' = [WafCall url_w false 0 requested].
Proof.
  destruct (success_ends_the_run Reader.loads two_keys
              (script [Truncated ok_200]) 1000 challenge_world
              url_w "sk-1" [url_b] ["sk-2"]
              fresh_state ok_200 eq_refl eq_refl eq_refl)
    as (s' & requested & Hrun & Hsent & Hcalls & _).
  exists s', requested. split; [exact Hrun|]. split; [exact Hsent|exact Hcalls].
Defined.

Lemma probe_success_resends_original_witness :
  exists s' requested,
    for_urls Reader.loads two_keys
      (script [Answers auth_401; Answers ok_200; Answers ok_200]) 1000
      challenge_world waf_urls two_keys probing_state
    = (Some (Streamed url_w "sk-1" ok_200), s') /\
    probe_attempts (ctx s') = 1%Z /\
    waf_calls s' = [WafCall url_w false 1 requested].
Proof.
  destruct (probe_success_resends_original Reader.loads two_keys
              (script [Answers auth_401; Answers ok_200; Answers ok_200])
              1000 challenge_world url_w "sk-1" [url_b] ["sk-2"]
              probing_state ok_200 ok_200
              eq_refl eq_refl eq_refl eq_refl eq_refl)
    as (s' & requested & Hrun & _ & Hcalls & _ & _ & Hprobes & _).
  exists s', requested. split; [exact Hrun|]. split; [exact Hprobes|exact Hcalls].
Defined.

(** The process that starts on the file that names the configured key
    ["0123456789abcdef"], and its first request, at time 2000: the
    record of ["sk-2"] has expired, the file is written again, and it
    names the key. *)
Abbreviation hex_key_run :=
  (failover Reader.loads [url_a] hex_keys (script [Answers ok_200]) 1000
     plain_world "{}" 2000
     (module_init hex_keys (Some (JObj hex_key_members)) 1000 false)).

Lemma hex_key_run_returns :
  exists r s,
    hex_key_run = Ok (r, s) /\
    cooldown_file (glob s) = Some (Document 2 {[hex_key := JInt 5000]} ∅).
Proof. eexists _, _. split; by vm_compute. Qed.

Lemma plaintext_key_is_written_back_witness :
  key_cooldown_until
    (module_init hex_keys (Some (JObj hex_key_members)) 1000 false)
  !! hex_key = Some (JInt 5000) /\
  exists r s doc,
    hex_key_run = Ok (r, s) /\
    cooldown_file (glob s) = Some doc /\
    is_Some (keys doc !! hex_key) /\
    ~ no_plaintext_key hex_keys (glob s).
Proof.
  destruct (plaintext_key_is_written_back Reader.loads [url_a] hex_keys
              hex_key (JInt 5000) hex_key_members hex_key_entries 1000 false)
    as (_ & Hv & Hrun).
  - by left.
  - by vm_compute.
  - reflexivity.
  - reflexivity.
  - repeat constructor; by eexists.
  - by vm_compute.
  - by vm_compute.
  - split; [exact Hv|].
    destruct hex_key_run_returns as (r & s & Hr & Hdoc).
    exists r, s, (Document 2 {[hex_key := JInt 5000]} ∅).
    split; [exact Hr|]. split; [exact Hdoc|].
    exact (Hrun (script [Answers ok_200]) 1000%Q plain_world "{}" 2000%Q
             r s _ eq_refl Hr Hdoc).
Defined.

Lemma success_leaves_none_pending_witness :
  exists k r s,
    run two_urls two_keys [Answers auth_401; Answers auth_401; Answers ok_200]
    = Ok (Streamed url_a k r, s) /\
    default [] (pending_cooldown_keys (glob s) !! url_a) = [].
Proof.
  assert (exists k r s,
            run two_urls two_keys
              [Answers auth_401; Answers auth_401; Answers ok_200]
            = Ok (Streamed url_a k r, s)) as (k & r & s & Hrun).
  { eexists _, _, _. by vm_compute. }
  exists k, r, s. split; [done|].
  exact (success_leaves_none_pending Reader.loads two_urls two_keys _ 1000
           plain_world _ _ _ _ _ _ _ Hrun).
Defined.



Lemma latch_is_never_cleared_witness :
  nonessential_traffic_disabled
    (clear_pending_cooldown url_a
       (set_nonessential_traffic_disabled true no_globals)) = true.
Proof.
  apply (latch_is_never_cleared Reader.loads two_urls two_keys
           (set_nonessential_traffic_disabled true no_globals)).
  - apply step_clear.
  - reflexivity.
Defined.



Lemma cached_cookie_is_reused_witness :
  fetch_waf_cookie dead_site url_a false 399 one_cookie
  = (true, one_cookie, []).
Proof.
  apply (cached_cookie_is_reused dead_site url_a 399 one_cookie
           (Entry {["acw_sc__v2" := "0123"]} 100)).
  - apply lookup_singleton_eq.
  - apply insert_non_empty.
  - reflexivity.
Defined.

Lemma solved_cookie_is_cached_witness :
  exists e',
    fetch_waf_cookie waf_site url_a true 1000 ∅
    = (true, <[url_a := e']> ∅, [url_a +:+ "/"]) /\
    cookies e' !! "acw_sc__v2"
    = Some "3863315300953013306d77033003606026837325" /\
    fetch_waf_cookie waf_site url_a false 1299 (<[url_a := e']> ∅)
    = (true, <[url_a := e']> ∅, []).
Proof.
  destruct (solved_cookie_is_cached waf_site url_a 1000 ∅ challenge_page
              [("cdn_sec_tc", "abc")]
              (chars "3000176000856006061501533003690027800375") true)
    as (token & e' & Hsolve & Hfetch & _ & Hcookie & Hnext).
  - reflexivity.
  - split; [done|]. split; [reflexivity|].
    by exists (chars "<script>"), (chars ";</script>").
  - by left.
  - exists e'. split; [exact Hfetch|]. split.
    + rewrite Hcookie.
      * vm_compute in Hsolve. by injection Hsolve as <-.
      * apply (bool_decide_unpack _). by vm_compute.
    + apply Hnext. reflexivity.
Defined.

Lemma failed_fetch_keeps_cookies_witness :
  fst (fst (fetch_waf_cookie dead_site url_a true 399 one_cookie)) = false /\
  snd (fst (fetch_waf_cookie dead_site url_a true 399 one_cookie)) !! url_a
  = Some (Entry {["acw_sc__v2" := "0123"]} 100).
Proof.
  destruct (failed_fetch_keeps_cookies dead_site url_a 399 one_cookie true)
    as (Hres & _ & Hkeep & _); [reflexivity|by left|].
  split; [exact Hres|]. apply Hkeep. apply lookup_singleton_eq.
Defined.

Lemma empty_jar_is_fetched_again_witness :
  fetch_waf_cookie plain_site url_a false 1000 ∅
  = (true, {[url_a := Entry ∅ 1000]}, [url_a +:+ "/"]) /\
  fetch_waf_cookie plain_site url_a false 1001 {[url_a := Entry ∅ 1000]}
  = (true, {[url_a := Entry ∅ 1001]}, [url_a +:+ "/"]).
Proof.
  destruct (empty_jar_is_fetched_again plain_site url_a 1000 1001 ∅
              "<html>ok</html>" false false)
    as [H1 H2]; [reflexivity|by vm_compute|by intros e; rewrite lookup_empty|].
  by split.
Defined.

Lemma solver_reads_forty_characters_witness :
  solve_acw_challenge challenge_page = solve_acw_challenge longer_page.
Proof.
  apply (solver_reads_forty_characters challenge_page longer_page
           (chars "3000176000856006061501533003690027800375")
           (chars "3000176000856006061501533003690027800375ABCD"));
    by vm_compute.
Defined.

Lemma solver_is_injective_witness :
  solve_acw_challenge challenge_page <> solve_acw_challenge other_page.
Proof.
  intros Heq.
  assert (take 40 (chars "3000176000856006061501533003690027800375")
          = take 40 (chars "4000176000856006061501533003690027800375")) as H.
  { apply (solver_is_injective challenge_page other_page);
      [by vm_compute|by vm_compute|cbn; lia|cbn; lia|exact Heq]. }
  vm_compute in H. discriminate H.
Defined.

End SampleFacts.
